(** * The LSP client core of oh-my-opencode: a shallow embedding

    The model follows the layout of [src/tools/lsp]:
    - [Json]       the values [JSON.parse] hands to the client;
    - [Utils]      [utils.ts]: hover formatting and severity filtering;
    - [Config]     [config.ts]: the server registry;
    - [Workspace]  [utils.ts]: [findWorkspaceRoot];
    - [Wire]       [client.ts]: [findSequence], the text decoder, the
                   header pattern and one pass of the framing loop;
    - [Client]     [client.ts]: the client's state, [send], [respond],
                   [handleServerRequest] and [processBuffer];
    - [Session]    [utils.ts]: [withLspClient], with [start],
                   [initialize] and [stop] of the client;
    - [Resolution] [config.ts]: server resolution in the spec's words;
    - [Stream]     [client.ts]: the loop of [startReading] over chunks;
    - [Promises]   [client.ts]: the promises the pending table settles;
    - [Operations] [client.ts]: [openFile] and the six requests;
    - [Listing]    [config.ts]: [getAllServers];
    - [Format]     [utils.ts]: locations, symbols and diagnostics as text;
    - [Loader]     [config.ts]: [loadOpencodeJson] and its cache;
    - [Output]     [client.ts]: the frames [send], [notify] and [respond]
                   write;
    - [Initialization] [client.ts]: the parameters of [initialize].
    The properties come after the model, one module per subject.

    Bytes and UTF-16 code units are integers ([Z]); JavaScript strings
    that the code only compares or concatenates are [string]; a [Map]
    keyed by numbers is a [gmap], a [Set] a [gset]; tables that the code
    iterates in insertion order are association lists.  What the code
    asks of the platform ([JSON.parse], the file system, [PATH], the
    subprocess) is a [Variable] of the section that uses it. *)

From Stdlib Require Import ZArith Lia List Bool Ascii String DecimalString
  DecimalNat.
From stdpp Require Import base option list strings gmap.

Import ListNotations.
Open Scope string_scope.

(** ** JSON values *)

Module Json.

(** What [JSON.parse] returns.  Numbers are the integer-valued ones
    (request ids, severities, counts); an object is its list of
    properties in enumeration order, with distinct keys. *)
#[warnings="-register-all"]
Inductive JSON : Type :=
| JNull
| JBool (b : bool)
| JNum (n : Z)
| JStr (s : string)
| JArr (items : list JSON)
| JObj (props : list (string * JSON)).

(** [key in obj] and [obj.key] on an object's property list. *)
Fixpoint getProp (key : string) (props : list (string * JSON)) : option JSON :=
  match props with
  | [] => None
  | (k, v) :: rest => if String.eqb k key then Some v else getProp key rest
  end.

Definition hasProp (key : string) (props : list (string * JSON)) : bool :=
  match getProp key props with Some _ => true | None => false end.

End Json.

Export Json.

(** ** utils.ts: formatting and filtering *)

Module Utils.

(** *** types.ts *)

Record Position := { line : Z; character : Z }.
Record Range := { range_start : Position; range_end : Position }.

Inductive DiagnosticCode := CodeStr (s : string) | CodeNum (n : Z).

Record Diagnostic := {
  diag_range : Range;
  severity : option Z;
  code : option DiagnosticCode;
  source : option string;
  message : string
}.

Record MarkupContent := { kind : option string; value : string }.

Inductive HoverItem :=
| ItemRecord (m : MarkupContent)
| ItemString (s : string).

Inductive HoverContents :=
| ContentsRecord (m : MarkupContent)
| ContentsString (s : string)
| ContentsArray (items : list HoverItem).

Record HoverResult := { contents : HoverContents; hover_range : option Range }.

(** *** filterDiagnosticsBySeverity *)

Inductive SeverityFilter := error | warning | information | hint | all.

(** The local table [severityMap]; it has no entry for ["all"]. *)
Definition severityMap (name : SeverityFilter) : option Z :=
  match name with
  | error => Some 1%Z
  | warning => Some 2%Z
  | information => Some 3%Z
  | hint => Some 4%Z
  | all => None
  end.

(** [a === b] on [number | undefined]. *)
Definition strictEqNum (a b : option Z) : bool :=
  match a, b with
  | Some x, Some y => Z.eqb x y
  | None, None => true
  | _, _ => false
  end.

Definition filterDiagnosticsBySeverity
    (diagnostics : list Diagnostic) (severityFilter : option SeverityFilter)
  : list Diagnostic :=
  match severityFilter with
  | None => diagnostics
  | Some all => diagnostics
  | Some name =>
      let targetSeverity := severityMap name in
      List.filter (fun d => strictEqNum (severity d) targetSeverity) diagnostics
  end.

(** *** formatHoverResult *)

Definition newline : string := String (Ascii.ascii_of_nat 10) EmptyString.
Definition blankLine : string := newline ++ newline.

Definition noHoverInformation : string := "No hover information available".

(** [Array.prototype.join]. *)
Fixpoint join (sep : string) (parts : list string) : string :=
  match parts with
  | [] => ""
  | [p] => p
  | p :: rest => p ++ sep ++ join sep rest
  end.

(** [Boolean(s)] on a string: the empty string is the only falsy one. *)
Definition truthy (s : string) : bool :=
  match s with EmptyString => false | String _ _ => true end.

Definition itemText (c : HoverItem) : string :=
  match c with
  | ItemString s => s
  | ItemRecord m => value m
  end.

Definition formatHoverResult (result : option HoverResult) : string :=
  match result with
  | None => noHoverInformation
  | Some r =>
      match contents r with
      | ContentsString s => s
      | ContentsArray items =>
          join blankLine (List.filter truthy (List.map itemText items))
      | ContentsRecord m => value m
      end
  end.

(** *** The claims' words, and inputs to try them on *)

(** The entries of [ds] whose severity is the number [n], in order. *)
Definition withSeverity (n : Z) (ds : list Diagnostic) : list Diagnostic :=
  List.filter (fun d => bool_decide (severity d = Some n)) ds.

Definition somewhere : Range :=
  {| range_start := {| line := 0; character := 0 |};
     range_end := {| line := 0; character := 1 |} |}.

Definition unrated : Diagnostic :=
  {| diag_range := somewhere; severity := None; code := None; source := None;
     message := "unused import" |}.

Definition rated : Diagnostic :=
  {| diag_range := somewhere; severity := Some 1%Z; code := None; source := None;
     message := "type mismatch" |}.

(** A hover result with the contents [c] and no range. *)
Definition hoverOf (c : HoverContents) : option HoverResult :=
  Some {| contents := c; hover_range := None |}.

End Utils.

(** ** config.ts: the server registry *)

Module Config.

Record ResolvedServer := {
  id : string;
  command : list string;
  extensions : list string;
  env : option (list (string * string));
  initialization : option JSON
}.

Record OpencodeJsonLspEntry := {
  entry_disabled : option bool;
  entry_command : option (list string);
  entry_extensions : option (list string);
  entry_env : option (list (string * string));
  entry_initialization : option JSON
}.

(** [lsp] is the object's [Object.entries], in enumeration order. *)
Record OpencodeJson := {
  lsp : option (list (string * OpencodeJsonLspEntry))
}.

(** An entry of the table [BUILTIN_SERVERS] of [constants.ts]. *)
Record BuiltinServer := {
  builtin_command : list string;
  builtin_extensions : list string
}.

(** [if (entry.disabled)] on [boolean | undefined]. *)
Definition isDisabled (entry : OpencodeJsonLspEntry) : bool :=
  match entry_disabled entry with Some true => true | _ => false end.

Fixpoint collectDisabled (entries : list (string * OpencodeJsonLspEntry))
    (disabled : gset string) : gset string :=
  match entries with
  | [] => disabled
  | (id, entry) :: rest =>
      collectDisabled rest (if isDisabled entry then {[ id ]} ∪ disabled else disabled)
  end.

Definition getDisabledServers (config : OpencodeJson) : gset string :=
  match lsp config with
  | Some entries => collectDisabled entries ∅
  | None => ∅
  end.

(** The [Map] built by [getUserLspServers] is iterated in insertion
    order, and its keys, being those of one object, are distinct: it is
    the list of its entries. *)
Fixpoint collectUserServers (entries : list (string * OpencodeJsonLspEntry))
  : list (string * ResolvedServer) :=
  match entries with
  | [] => []
  | (id, entry) :: rest =>
      if isDisabled entry then collectUserServers rest
      else
        match entry_command entry, entry_extensions entry with
        | Some cmd, Some exts =>
            (id, {| id := id; command := cmd; extensions := exts;
                    env := entry_env entry;
                    initialization := entry_initialization entry |})
            :: collectUserServers rest
        | _, _ => collectUserServers rest
        end
  end.

Definition getUserLspServers (config : OpencodeJson) : list (string * ResolvedServer) :=
  match lsp config with
  | Some entries => collectUserServers entries
  | None => []
  end.

(** [Map.prototype.has] and [Array.prototype.includes] on strings. *)
Definition mapHas {V} (key : string) (m : list (string * V)) : bool :=
  existsb (fun kv => String.eqb (fst kv) key) m.

Definition includes (l : list string) (x : string) : bool :=
  existsb (fun y => String.eqb y x) l.

(** [s.split(":")]: the pieces between colons, at least one piece. *)
Fixpoint splitColon (s : string) : list string :=
  match s with
  | EmptyString => [""]
  | String c rest =>
      if Ascii.eqb c ":"%char then "" :: splitColon rest
      else
        match splitColon rest with
        | [] => [String c ""]
        | piece :: pieces => String c piece :: pieces
        end
  end.

Section Registry.

(** The machine the registry looks at: the configuration as cached by
    [loadOpencodeJson], the built-in table in [Object.entries] order,
    [process.env.PATH], [fs.existsSync] and [path.join]. *)
Variable config : OpencodeJson.
Variable BUILTIN_SERVERS : list (string * BuiltinServer).
Variable PATH : option string.
Variable existsSync : string -> bool.
Variable pathJoin : string -> string -> string.

Definition searchPaths : list string :=
  splitColon (match PATH with Some p => if Utils.truthy p then p else "" | None => "" end).

Fixpoint existsInPaths (paths : list string) (cmd : string) : bool :=
  match paths with
  | [] => false
  | p :: rest => if existsSync (pathJoin p cmd) then true else existsInPaths rest cmd
  end.

Definition isServerInstalled (command : list string) : bool :=
  match command with
  | [] => false
  | cmd :: _ => existsInPaths searchPaths cmd
  end.

Fixpoint findUserServer (servers : list (string * ResolvedServer)) (ext : string)
  : option ResolvedServer :=
  match servers with
  | [] => None
  | (_, server) :: rest =>
      if includes (extensions server) ext && isServerInstalled (command server)
      then Some server
      else findUserServer rest ext
  end.

Fixpoint findBuiltinServer (builtins : list (string * BuiltinServer))
    (userServers : list (string * ResolvedServer)) (disabledServers : gset string)
    (ext : string) : option ResolvedServer :=
  match builtins with
  | [] => None
  | (id, cfg) :: rest =>
      if bool_decide (id ∈ disabledServers) then
        findBuiltinServer rest userServers disabledServers ext
      else if mapHas id userServers then
        findBuiltinServer rest userServers disabledServers ext
      else if includes (builtin_extensions cfg) ext
              && isServerInstalled (builtin_command cfg)
      then Some {| id := id; command := builtin_command cfg;
                   extensions := builtin_extensions cfg;
                   env := None; initialization := None |}
      else findBuiltinServer rest userServers disabledServers ext
  end.

Definition findServerForExtension (ext : string) : option ResolvedServer :=
  let userServers := getUserLspServers config in
  let disabledServers := getDisabledServers config in
  match findUserServer userServers ext with
  | Some server => Some server
  | None => findBuiltinServer BUILTIN_SERVERS userServers disabledServers ext
  end.

(** What the two loops test, as propositions.  A command is installed
    when its first token exists under one of the paths the code
    searches. *)
Definition Installed (command : list string) : Prop :=
  ∃ cmd args p, command = cmd :: args ∧ In p searchPaths
                ∧ existsSync (pathJoin p cmd) = true.

(** A server with these extensions and this command serves [ext]. *)
Definition Serves (exts command : list string) (ext : string) : Prop :=
  In ext exts ∧ Installed command.

(** The user configuration disables [id]. *)
Definition DisabledByUser (id : string) : Prop :=
  ∃ entries entry, lsp config = Some entries ∧ In (id, entry) entries
                   ∧ entry_disabled entry = Some true.

(** A user-defined server carries the id [id]. *)
Definition Shadowed (id : string) : Prop :=
  ∃ server, In (id, server) (getUserLspServers config).

(** The resolved form of a built-in. *)
Definition resolveBuiltin (id : string) (b : BuiltinServer) : ResolvedServer :=
  {| id := id; command := builtin_command b; extensions := builtin_extensions b;
     env := None; initialization := None |}.

(** A built-in that the lookup may return for [ext]. *)
Definition BuiltinServes (ext : string) (entry : string * BuiltinServer) : Prop :=
  ¬ DisabledByUser (fst entry) ∧ ¬ Shadowed (fst entry)
  ∧ Serves (builtin_extensions (snd entry)) (builtin_command (snd entry)) ext.

Definition UserServes (ext : string) (entry : string * ResolvedServer) : Prop :=
  Serves (extensions (snd entry)) (command (snd entry)) ext.

End Registry.

End Config.

(** ** utils.ts: the workspace resolver *)

Module Workspace.

(** An absolute, normalised POSIX path, as [path.resolve] returns it:
    the list of its segments, innermost first.  ["/repo/src/a.ts"] is
    [["a.ts"; "src"; "repo"]] and ["/"] is [[]]. *)
Definition Path := list string.

(** [path.dirname]: the parent, and ["/"] for ["/"]. *)
Definition dirname (p : Path) : Path := tl p.

(** [path.join(dir, name)] for a single segment [name]. *)
Definition pathJoin (dir : Path) (name : string) : Path := name :: dir.

Definition isRoot (p : Path) : bool :=
  match p with [] => true | _ :: _ => false end.

Definition markers : list string :=
  [".git"; "package.json"; "pyproject.toml"; "Cargo.toml"; "go.mod"; "pom.xml";
   "build.gradle"].

Section Resolver.

(** The file system: [fs.existsSync] and [fs.statSync(p).isDirectory()]. *)
Variable existsSync : Path -> bool.
Variable isDirectory : Path -> bool.

(** The [for] loop over the markers. *)
Fixpoint anyMarker (ms : list string) (dir : Path) : bool :=
  match ms with
  | [] => false
  | marker :: rest =>
      if existsSync (pathJoin dir marker) then true else anyMarker rest dir
  end.

(** The [while (dir !== "/")] loop, one iteration per unit of fuel:
    [None] when the fuel runs out, [Some None] when the loop exits at
    the root, [Some (Some d)] when it returns [d]. *)
Fixpoint walkUp (fuel : nat) (dir : Path) : option (option Path) :=
  match fuel with
  | O => None
  | S fuel' =>
      if isRoot dir then Some None
      else if anyMarker markers dir then Some (Some dir)
      else walkUp fuel' (dirname dir)
  end.

(** The directory the walk starts from. *)
Definition startDir (resolved : Path) : Path :=
  if negb (existsSync resolved) || negb (isDirectory resolved)
  then dirname resolved
  else resolved.

(** [findWorkspaceRoot] on [resolve(filePath)]; [None] only if the
    loop were to outlive the fuel it is given. *)
Definition findWorkspaceRoot (resolved : Path) : option Path :=
  let dir := startDir resolved in
  match walkUp (S (length dir)) dir with
  | None => None
  | Some (Some found) => Some found
  | Some None => Some (dirname resolved)
  end.

(** The claim's words: [d] holds one of the project markers. *)
Definition HasMarker (d : Path) : Prop :=
  ∃ marker, marker ∈ markers ∧ existsSync (pathJoin d marker) = true.

(** The [k]-th directory above [p] is [drop k p]: [k] applications of
    [dirname].  [d] is the nearest of the directories from the [from]-th
    to the [upto]-th above [p] that holds a marker. *)
Definition NearestMarked (from upto : nat) (p d : Path) : Prop :=
  ∃ k, from <= k <= upto ∧ d = drop k p ∧ HasMarker d
       ∧ ∀ j, from <= j < k → ¬ HasMarker (drop j p).

(** The claim's words: the nearest ancestor directory of [p], the
    root included, that holds a marker. *)
Definition NearestMarkedAncestor (p d : Path) : Prop :=
  NearestMarked 1 (length p) p d.

End Resolver.

(** A machine whose only marker is ["/.git"], beside a directory ["/a"]. *)
Definition rootRepoExists (p : Path) : bool :=
  match p with
  | [] => true
  | [name] => String.eqb name ".git" || String.eqb name "a"
  | _ => false
  end.

Definition rootRepoIsDirectory (p : Path) : bool :=
  match p with
  | [] => true
  | [name] => String.eqb name ".git" || String.eqb name "a"
  | _ => false
  end.

(** A machine with a repository at ["/repo"] holding ["/repo/src/main.py"]. *)
Definition repoExists (p : Path) : bool :=
  match p with
  | [] => true
  | [name] => String.eqb name "repo"
  | [name; dir] =>
      String.eqb dir "repo" && (String.eqb name ".git" || String.eqb name "src")
  | [name; dir; top] =>
      String.eqb top "repo" && String.eqb dir "src" && String.eqb name "main.py"
  | _ => false
  end.

Definition repoIsDirectory (p : Path) : bool :=
  repoExists p && negb (length p =? 3)%nat.

End Workspace.

(** ** client.ts: bytes, text decoding and the header pattern *)

Module Wire.

Local Open Scope Z_scope.

Definition CONTENT_LENGTH : list Z :=
  [67; 111; 110; 116; 101; 110; 116; 45; 76; 101; 110; 103; 116; 104; 58].
Definition CRLF_CRLF : list Z := [13; 10; 13; 10].
Definition LF_LF : list Z := [10; 10].

(** The inner loop of [findSequence]: [haystack[i + j] === needle[j]]
    for every [j], on the part of the haystack from [i] on. *)
Fixpoint matchesAt (rest needle : list Z) {struct needle} : bool :=
  match needle, rest with
  | [], _ => true
  | n :: needle', b :: rest' => Z.eqb b n && matchesAt rest' needle'
  | _ :: _, [] => false
  end.

(** The outer loop, at index [i] with [rest] the haystack from [i] on;
    [None] stands for [-1]. *)
Fixpoint findSequenceFrom (i : nat) (rest needle : list Z) : option nat :=
  if (length needle <=? length rest)%nat then
    if matchesAt rest needle then Some i
    else
      match rest with
      | [] => None
      | _ :: rest' => findSequenceFrom (S i) rest' needle
      end
  else None.

Definition findSequence (haystack needle : list Z) : option nat :=
  findSequenceFrom 0 haystack needle.

(** [Uint8Array.prototype.slice(from, to)] for [from <= to]. *)
Definition slice (from to : nat) (bytes : list Z) : list Z :=
  take (to - from) (drop from bytes).

(** *** TextDecoder (UTF-8, replacement on error) *)

(** The decoder's state between bytes of one code point: the bits read
    so far, the number of bytes still needed and the bounds of the next
    byte. *)
Record Utf8State := {
  codePoint : Z;
  bytesNeeded : nat;
  lowerBound : Z;
  upperBound : Z
}.

Definition REPLACEMENT : Z := 65533.

(** A byte read with no code point under way: what is emitted and the
    state that follows. *)
Definition utf8Lead (b : Z) : list Z * option Utf8State :=
  if (0 <=? b) && (b <=? 127) then ([b], None)
  else if (194 <=? b) && (b <=? 223) then
    ([], Some {| codePoint := Z.land b 31; bytesNeeded := 1;
                 lowerBound := 128; upperBound := 191 |})
  else if (224 <=? b) && (b <=? 239) then
    ([], Some {| codePoint := Z.land b 15; bytesNeeded := 2;
                 lowerBound := if b =? 224 then 160 else 128;
                 upperBound := if b =? 237 then 159 else 191 |})
  else if (240 <=? b) && (b <=? 244) then
    ([], Some {| codePoint := Z.land b 7; bytesNeeded := 3;
                 lowerBound := if b =? 240 then 144 else 128;
                 upperBound := if b =? 244 then 143 else 191 |})
  else ([REPLACEMENT], None).

Fixpoint utf8Decode (bytes : list Z) (st : option Utf8State) : list Z :=
  match bytes with
  | [] => match st with None => [] | Some _ => [REPLACEMENT] end
  | b :: rest =>
      match st with
      | None =>
          let '(out, st') := utf8Lead b in out ++ utf8Decode rest st'
      | Some s =>
          if (lowerBound s <=? b) && (b <=? upperBound s) then
            let cp := Z.lor (Z.shiftl (codePoint s) 6) (Z.land b 63) in
            match bytesNeeded s with
            | S (S n) =>
                utf8Decode rest
                  (Some {| codePoint := cp; bytesNeeded := S n;
                           lowerBound := 128; upperBound := 191 |})
            | _ => cp :: utf8Decode rest None
            end
          else
            let '(out, st') := utf8Lead b in
            REPLACEMENT :: out ++ utf8Decode rest st'
      end
  end.

(** A leading byte order mark is not part of the text. *)
Definition stripBOM (cps : list Z) : list Z :=
  match cps with
  | cp :: rest => if cp =? 65279 then rest else cps
  | [] => []
  end.

(** A code point as UTF-16 code units. *)
Definition utf16 (cp : Z) : list Z :=
  if cp <? 65536 then [cp]
  else [55296 + Z.shiftr (cp - 65536) 10; 56320 + Z.land (cp - 65536) 1023].

(** [new TextDecoder().decode(bytes)], as the string's code units. *)
Definition decode (bytes : list Z) : list Z :=
  concat (List.map utf16 (stripBOM (utf8Decode bytes None))).

(** *** header.match(/Content-Length:\s*(\d+)/i) *)

(** The pattern's literal part, ["Content-Length:"], in upper case. *)
Definition CONTENT_LENGTH_UPPER : list Z :=
  [67; 79; 78; 84; 69; 78; 84; 45; 76; 69; 78; 71; 84; 72; 58].

(** Case-insensitive comparison without the [u] flag maps a code unit to
    its upper case, and never a non-ASCII one to an ASCII one. *)
Definition canonicalize (c : Z) : Z :=
  if (97 <=? c) && (c <=? 122) then c - 32 else c.

Definition isDigit (c : Z) : bool := (48 <=? c) && (c <=? 57).

(** The class [\s]: white space and line terminators. *)
Definition isSpace (c : Z) : bool :=
  ((9 <=? c) && (c <=? 13)) || (c =? 32) || (c =? 160) || (c =? 5760)
  || ((8192 <=? c) && (c <=? 8202)) || (c =? 8232) || (c =? 8233)
  || (c =? 8239) || (c =? 8287) || (c =? 12288) || (c =? 65279).

Fixpoint matchesLiteral (s upper : list Z) {struct upper} : option (list Z) :=
  match upper, s with
  | [], _ => Some s
  | u :: upper', c :: s' =>
      if canonicalize c =? u then matchesLiteral s' upper' else None
  | _ :: _, [] => None
  end.

Fixpoint skipSpaces (s : list Z) : list Z :=
  match s with
  | c :: s' => if isSpace c then skipSpaces s' else s
  | [] => []
  end.

Fixpoint takeDigits (s : list Z) : list Z :=
  match s with
  | c :: s' => if isDigit c then c :: takeDigits s' else []
  | [] => []
  end.

(** The pattern tried at the front of [s]: the captured digits. *)
Definition matchHere (s : list Z) : option (list Z) :=
  match matchesLiteral s CONTENT_LENGTH_UPPER with
  | Some rest =>
      match takeDigits (skipSpaces rest) with
      | [] => None
      | digits => Some digits
      end
  | None => None
  end.

(** The leftmost match in [s]: [match[1]], or [None] for [null]. *)
Fixpoint matchContentLength (s : list Z) : option (list Z) :=
  match matchHere s with
  | Some digits => Some digits
  | None =>
      match s with
      | [] => None
      | _ :: s' => matchContentLength s'
      end
  end.

(** [parseInt(digits, 10)] on a run of decimal digits.  The value is
    exact here; JavaScript rounds it above 2^53, where it exceeds the
    length of any buffer either way. *)
Definition parseInt (digits : list Z) : Z :=
  fold_left (fun n d => 10 * n + (d - 48)) digits 0.

(** *** One pass over the front of the buffer *)

(** What one iteration of the loop of [processBuffer] does to the
    buffer: it leaves the loop with the buffer as it then is, or it cuts
    one payload off the front. *)
Inductive Scan :=
| Break (buffer : list Z)
| Payload (content : list Z) (buffer : list Z).

Definition scanFrame (buffer : list Z) : Scan :=
  match findSequence buffer CONTENT_LENGTH with
  | None => Break buffer
  | Some headerStart =>
      let buffer := if (0 <? headerStart)%nat then drop headerStart buffer else buffer in
      let '(headerEnd, sepLen) :=
        match findSequence buffer CRLF_CRLF with
        | Some e => (Some e, 4%nat)
        | None => (findSequence buffer LF_LF, 2%nat)
        end in
      match headerEnd with
      | None => Break buffer
      | Some headerEnd =>
          let header := decode (slice 0 headerEnd buffer) in
          match matchContentLength header with
          | None => Break buffer
          | Some digits =>
              let len := parseInt digits in
              let start := Z.of_nat (headerEnd + sepLen) in
              let end_ := start + len in
              if Z.of_nat (length buffer) <? end_ then Break buffer
              else
                let content := slice (Z.to_nat start) (Z.to_nat end_) buffer in
                Payload content (drop (Z.to_nat end_) buffer)
          end
      end
  end.

(** The loop of [processBuffer] as the buffer sees it, one iteration
    per unit of fuel: the payloads cut off and the buffer left; [None]
    when the fuel runs out. *)
Fixpoint drain (fuel : nat) (extracted : list (list Z)) (buffer : list Z)
  : option (list (list Z) * list Z) :=
  match fuel with
  | O => None
  | S fuel' =>
      match scanFrame buffer with
      | Break buffer' => Some (extracted, buffer')
      | Payload content buffer' => drain fuel' (extracted ++ [content]) buffer'
      end
  end.

(** The choice of terminator that [scanFrame] makes on a buffer. *)
Definition headerEndOf (buffer : list Z) : option nat * nat :=
  match findSequence buffer CRLF_CRLF with
  | Some e => (Some e, 4%nat)
  | None => (findSequence buffer LF_LF, 2%nat)
  end.

(** Bytes that are ASCII characters. *)
Definition Ascii7 (bytes : list Z) : Prop := Forall (fun b => 0 <= b <= 127) bytes.

(** The end of a run of digits: the end of the text or a character
    that is not a digit. *)
Definition EndsDigits (tail : list Z) : Prop :=
  match tail with [] => True | c :: _ => isDigit c = false end.

(** *** Frames, in the words of the claims *)

Inductive Terminator := CRLFCRLF | LFLF.

Definition terminatorBytes (t : Terminator) : list Z :=
  match t with CRLFCRLF => CRLF_CRLF | LFLF => LF_LF end.

(** The header the client itself writes: the field name, one space and
    the length in decimal digits. *)
Definition headerBytes (digits : list Z) : list Z :=
  CONTENT_LENGTH ++ [32] ++ digits.

Definition frameBytes (digits : list Z) (t : Terminator) (payload : list Z) : list Z :=
  headerBytes digits ++ terminatorBytes t ++ payload.

(** A non-empty run of decimal digits. *)
Definition Digits (digits : list Z) : Prop :=
  digits ≠ [] ∧ Forall (fun d => 48 <= d <= 57) digits.

Record Frame := {
  frame_digits : list Z;
  frame_terminator : Terminator;
  frame_payload : list Z
}.

(** A complete frame declares the length of its payload. *)
Definition Complete (f : Frame) : Prop :=
  Digits (frame_digits f)
  ∧ parseInt (frame_digits f) = Z.of_nat (length (frame_payload f)).

Definition encodeFrame (f : Frame) : list Z :=
  frameBytes (frame_digits f) (frame_terminator f) (frame_payload f).

Definition encodeFrames (fs : list Frame) : list Z :=
  concat (List.map encodeFrame fs).

(** A complete frame that ends its header with the terminator [t]. *)
Definition CompleteWith (t : Terminator) (f : Frame) : Prop :=
  Complete f ∧ frame_terminator f = t.

(** The complete frames [fs] at the front of [buffer] follow one
    convention: they all end their header with CRLFCRLF, or they all end
    it with LFLF and CRLFCRLF occurs nowhere in the buffer. *)
Definition OneConvention (fs : list Frame) (buffer : list Z) : Prop :=
  Forall (CompleteWith CRLFCRLF) fs
  ∨ (Forall (CompleteWith LFLF) fs ∧ findSequence buffer CRLF_CRLF = None).

(** Two frames of two bytes each, one per convention: the payload
    ["{}"] after LFLF and the payload ["[]"] after CRLFCRLF. *)
Definition lfFrame : Frame :=
  {| frame_digits := [50]; frame_terminator := LFLF; frame_payload := [123; 125] |}.

Definition crlfFrame : Frame :=
  {| frame_digits := [50]; frame_terminator := CRLFCRLF; frame_payload := [91; 93] |}.

(** The first three bytes of a payload of fifty, after LFLF. *)
Definition partialFrame : list Z := frameBytes [53; 48] LFLF [97; 98; 99].

(** One frame of six bytes, ["{"], CR, LF, CR, LF, ["}"], after LFLF. *)
Definition blankLineFrame : Frame :=
  {| frame_digits := [54]; frame_terminator := LFLF;
     frame_payload := [123; 13; 10; 13; 10; 125] |}.

End Wire.

(** ** client.ts: the protocol client *)

Module Client.

Import Wire.

(** What a caller's promise is settled with. *)
Inductive Failure :=
| LspError (message : string)            (* [new Error("...")] of the client *)
| ServerError (message : option JSON)    (* [new Error(msg.error.message)] *)
| Thrown (what : string).                (* anything else a callee throws *)

Inductive Settlement :=
| Resolved (result : option JSON)
| Rejected (reason : Failure).

(** An entry of the pending table: the [resolve]/[reject] pair of the
    promise that the [send] call with this number returned. *)
Record Handler := { promise : Z }.

(** The fields of an [LSPClient], and below them what the client acts
    on: the frames written to the subprocess's standard input (each
    stands for its [Content-Length] header and [JSON.stringify] of the
    value), the promises settled so far, both oldest first, and whether
    the subprocess runs. *)
Record LSPClient := {
  proc : bool;
  buffer : list Z;
  pending : gmap Z Handler;
  requestId : Z;
  openedFiles : gset string;
  stdin : list JSON;
  settled : list (Z * Settlement);
  running : bool
}.

Definition newClient : LSPClient :=
  {| proc := false; buffer := []; pending := ∅; requestId := 0;
     openedFiles := ∅; stdin := []; settled := []; running := false |}.

Definition setProc (p : bool) (c : LSPClient) : LSPClient :=
  {| proc := p; buffer := buffer c; pending := pending c;
     requestId := requestId c; openedFiles := openedFiles c;
     stdin := stdin c; settled := settled c; running := running c |}.

Definition setBuffer (b : list Z) (c : LSPClient) : LSPClient :=
  {| proc := proc c; buffer := b; pending := pending c;
     requestId := requestId c; openedFiles := openedFiles c;
     stdin := stdin c; settled := settled c; running := running c |}.

Definition setPending (p : gmap Z Handler) (c : LSPClient) : LSPClient :=
  {| proc := proc c; buffer := buffer c; pending := p;
     requestId := requestId c; openedFiles := openedFiles c;
     stdin := stdin c; settled := settled c; running := running c |}.

Definition setRequestId (n : Z) (c : LSPClient) : LSPClient :=
  {| proc := proc c; buffer := buffer c; pending := pending c;
     requestId := n; openedFiles := openedFiles c;
     stdin := stdin c; settled := settled c; running := running c |}.

Definition setRunning (r : bool) (c : LSPClient) : LSPClient :=
  {| proc := proc c; buffer := buffer c; pending := pending c;
     requestId := requestId c; openedFiles := openedFiles c;
     stdin := stdin c; settled := settled c; running := r |}.

(** [this.proc.stdin.write(frame)]. *)
Definition write (payload : JSON) (c : LSPClient) : LSPClient :=
  {| proc := proc c; buffer := buffer c; pending := pending c;
     requestId := requestId c; openedFiles := openedFiles c;
     stdin := stdin c ++ [payload]; settled := settled c; running := running c |}.

(** [handler.resolve(v)] and [handler.reject(e)]. *)
Definition settle (h : Handler) (s : Settlement) (c : LSPClient) : LSPClient :=
  {| proc := proc c; buffer := buffer c; pending := pending c;
     requestId := requestId c; openedFiles := openedFiles c;
     stdin := stdin c; settled := settled c ++ [(promise h, s)];
     running := running c |}.

(** [JSON.stringify] leaves out a property whose value is [undefined]. *)
Definition optProp (key : string) (v : option JSON) : list (string * JSON) :=
  match v with Some x => [(key, x)] | None => [] end.

Definition requestMessage (id : Z) (method : string) (params : option JSON) : JSON :=
  JObj ([("jsonrpc", JStr "2.0"); ("id", JNum id); ("method", JStr method)]
        ++ optProp "params" params).

Definition notificationMessage (method : string) (params : option JSON) : JSON :=
  JObj ([("jsonrpc", JStr "2.0"); ("method", JStr method)] ++ optProp "params" params).

Definition responseMessage (id : JSON) (result : JSON) : JSON :=
  JObj [("jsonrpc", JStr "2.0"); ("id", id); ("result", result)].

(** [send], up to the promise it returns: the request number, or the
    error thrown when the client has no subprocess. *)
Definition send (method : string) (params : option JSON) (c : LSPClient)
  : Failure + (Z * LSPClient) :=
  if negb (proc c) then inl (LspError "LSP client not started")
  else
    let id := (requestId c + 1)%Z in
    let c := setRequestId id c in
    let c := write (requestMessage id method params) c in
    inr (id, setPending (<[id := {| promise := id |}]> (pending c)) c).

(** The callback [send] hands to [setTimeout] for request [id]. *)
Definition timeoutFires (id : Z) (c : LSPClient) : LSPClient :=
  match pending c !! id with
  | Some _ =>
      let c := setPending (delete id (pending c)) c in
      settle {| promise := id |} (Rejected (LspError "LSP request timeout")) c
  | None => c
  end.

Definition notify (method : string) (params : option JSON) (c : LSPClient) : LSPClient :=
  if negb (proc c) then c else write (notificationMessage method params) c.

Definition respond (id : JSON) (result : JSON) (c : LSPClient) : LSPClient :=
  if negb (proc c) then c else write (responseMessage id result) c.

(** [method === "..."] on the value found in the message. *)
Definition isMethod (method : JSON) (name : string) : bool :=
  match method with JStr s => String.eqb s name | _ => false end.

Definition handleServerRequest (id : JSON) (method : JSON) (_params : option JSON)
    (c : LSPClient) : LSPClient :=
  if isMethod method "workspace/configuration" then respond id (JArr [JObj []]) c
  else if isMethod method "client/registerCapability" then respond id JNull c
  else if isMethod method "window/workDoneProgress/create" then respond id JNull c
  else c.

(** The key under which [this.pending.has(msg.id)] looks: the table's
    keys are numbers, so only a number can be found. *)
Definition pendingKey (id : option JSON) : option Z :=
  match id with Some (JNum n) => Some n | _ => None end.

(** [msg.error.message]: [None] when reading it throws, that is when
    [msg.error] is [null]. *)
Definition errorMessage (err : JSON) : option (option JSON) :=
  match err with
  | JNull => None
  | JObj props => Some (getProp "message" props)
  | _ => Some None
  end.

(** The body of the [try] in [processBuffer] once [JSON.parse] has
    returned [msg].  A value that is not an object makes [in] throw, and
    the [catch] swallows it. *)
Definition dispatch (msg : JSON) (c : LSPClient) : LSPClient :=
  match msg with
  | JObj props =>
      if hasProp "id" props && hasProp "method" props then
        match getProp "id" props, getProp "method" props with
        | Some id, Some method => handleServerRequest id method (getProp "params" props) c
        | _, _ => c
        end
      else if hasProp "id" props then
        match pendingKey (getProp "id" props) with
        | Some k =>
            match pending c !! k with
            | Some handler =>
                let c := setPending (delete k (pending c)) c in
                match getProp "error" props with
                | Some err =>
                    match errorMessage err with
                    | Some m => settle handler (Rejected (ServerError m)) c
                    | None => c
                    end
                | None => settle handler (Resolved (getProp "result" props)) c
                end
            | None => c
            end
        | None => c
        end
      else c
  | _ => c
  end.

Section ReadLoop.

(** [JSON.parse] on a string given by its code units: the value, or
    [None] for a [SyntaxError]. *)
Variable JSON_parse : list Z -> option JSON.

(** [JSON.parse(content)] and the dispatch, inside the [try]. *)
Definition handleContent (content : list Z) (c : LSPClient) : LSPClient :=
  match JSON_parse (decode content) with
  | Some msg => dispatch msg c
  | None => c
  end.

(** The [while (true)] loop of [processBuffer], one iteration per unit
    of fuel, with the payloads extracted so far; [None] when the fuel
    runs out. *)
Fixpoint processLoop (fuel : nat) (extracted : list (list Z)) (c : LSPClient)
  : option (list (list Z) * LSPClient) :=
  match fuel with
  | O => None
  | S fuel' =>
      match scanFrame (buffer c) with
      | Break buffer' => Some (extracted, setBuffer buffer' c)
      | Payload content buffer' =>
          processLoop fuel' (extracted ++ [content])
            (handleContent content (setBuffer buffer' c))
      end
  end.

(** [processBuffer], with the payloads it handed to [JSON.parse]. *)
Definition processBuffer (c : LSPClient) : option (list (list Z) * LSPClient) :=
  processLoop (S (length (buffer c))) [] c.

(** One chunk read from the subprocess's output, as in [startReading]. *)
Definition receive (chunk : list Z) (c : LSPClient) : option (list (list Z) * LSPClient) :=
  processBuffer (setBuffer (buffer c ++ chunk) c).

End ReadLoop.

(** The four things [dispatch] can do to a client: nothing, answer a
    request of the subprocess, settle the promise of a pending entry it
    removes, or remove the entry and settle nothing (when reading the
    error's message throws). *)
Inductive Dispatched (c : LSPClient) : LSPClient -> Prop :=
| dispatched_ignored : Dispatched c c
| dispatched_replied (id result : JSON) : Dispatched c (respond id result c)
| dispatched_settled (k : Z) (handler : Handler) (s : Settlement) :
    pending c !! k = Some handler ->
    Dispatched c (settle handler s (setPending (delete k (pending c)) c))
| dispatched_unsettled (k : Z) (handler : Handler) :
    pending c !! k = Some handler ->
    Dispatched c (setPending (delete k (pending c)) c).

(** *** Events on the pending table, for the claims about it *)

Inductive Event :=
| Arrives (msg : JSON)               (* a frame's payload is dispatched *)
| TimesOut (id : Z)                  (* the timer of request [id] fires *)
| Sends (method : string) (params : option JSON).

Definition step (e : Event) (c : LSPClient) : LSPClient :=
  match e with
  | Arrives msg => dispatch msg c
  | TimesOut id => timeoutFires id c
  | Sends method params =>
      match send method params c with
      | inr (_, c') => c'
      | inl _ => c
      end
  end.

Definition run (events : list Event) (c : LSPClient) : LSPClient :=
  fold_left (fun c e => step e c) events c.

(** A response to request [k]: an object with [id: k] and no [method]. *)
Definition ResponseTo (k : Z) (msg : JSON) : Prop :=
  ∃ props, msg = JObj props ∧ getProp "id" props = Some (JNum k)
           ∧ getProp "method" props = None.

(** Request numbers in the table were all minted by the counter. *)
Definition Minted (c : LSPClient) : Prop :=
  ∀ k h, pending c !! k = Some h → (k <= requestId c)%Z.

(** Entry [k] is gone for good: the counter has passed [k] and the
    table does not hold it. *)
Definition Gone (k : Z) (c : LSPClient) : Prop :=
  Minted c ∧ (k <= requestId c)%Z ∧ pending c !! k = None.

(** The number of configuration scopes a [workspace/configuration]
    request asks for: the length of [params.items]. *)
Definition requestedScopes (params : option JSON) : nat :=
  match params with
  | Some (JObj props) =>
      match getProp "items" props with
      | Some (JArr items) => length items
      | _ => 0
      end
  | _ => 0
  end.

(** A client whose subprocess runs. *)
Definition startedClient : LSPClient := setRunning true (setProc true newClient).

(** A [workspace/configuration] request of the subprocess, numbered 7
    by it, that asks for two scopes. *)
Definition twoScopes : option JSON :=
  Some (JObj [("items", JArr [JObj [("section", JStr "python")];
                              JObj [("section", JStr "pyright")]])]).

Definition configurationRequest : JSON :=
  JObj ([("jsonrpc", JStr "2.0"); ("id", JNum 7);
         ("method", JStr "workspace/configuration")] ++ optProp "params" twoScopes).

(** The three methods the client answers. *)
Definition Answered (method : JSON) : Prop :=
  method = JStr "workspace/configuration"
  ∨ method = JStr "client/registerCapability"
  ∨ method = JStr "window/workDoneProgress/create".

(** A client waiting for the answer to its first request, and that
    answer. *)
Definition waitingClient : LSPClient :=
  match send "textDocument/hover" None startedClient with
  | inr (_, c) => c
  | inl _ => startedClient
  end.

Definition hoverAnswer : JSON :=
  JObj [("jsonrpc", JStr "2.0"); ("id", JNum 1); ("result", JNull)].

End Client.

(** ** utils.ts: the session orchestrator *)

Module Session.

Import Client.

(** How an [async] call ends: it returns, it throws (its promise is
    rejected), or its promise is never settled. *)
Inductive Outcome (T : Type) :=
| Returns (t : T)
| Throws (e : Failure)
| Hangs.
Arguments Returns {T} t.
Arguments Throws {T} e.
Arguments Hangs {T}.

(** Code that acts on the client. *)
Definition Action (T : Type) : Type := LSPClient -> Outcome T * LSPClient.

Definition ret {T} (t : T) : Action T := fun c => (Returns t, c).

Definition bind {T U} (a : Action T) (k : T -> Action U) : Action U :=
  fun c =>
    match a c with
    | (Returns t, c') => k t c'
    | (Throws e, c') => (Throws e, c')
    | (Hangs, c') => (Hangs, c')
    end.

Definition andThen {T U} (a : Action T) (k : Action U) : Action U :=
  bind a (fun _ => k).

Notation "a ;;; k" := (andThen a k) (at level 100, right associativity).

(** A synchronous step that cannot fail. *)
Definition perform (f : LSPClient -> LSPClient) : Action unit :=
  fun c => (Returns tt, f c).

(** [try { body } catch { }]. *)
Definition tryCatch (body : Action unit) : Action unit :=
  fun c =>
    match body c with
    | (Throws _, c') => (Returns tt, c')
    | other => other
    end.

(** [try { return await body } finally { await cleanup }]. *)
Definition tryFinally {T} (body : Action T) (cleanup : Action unit) : Action T :=
  fun c =>
    match body c with
    | (Hangs, c') => (Hangs, c')
    | (result, c') =>
        match cleanup c' with
        | (Returns _, c'') => (result, c'')
        | (Throws e, c'') => (Throws e, c'')
        | (Hangs, c'') => (Hangs, c'')
        end
    end.

(** What the subprocess does with a request before its timer fires: it
    writes a frame whose payload parses to [msg], or it writes nothing. *)
Inductive Reaction :=
| Answers (msg : JSON)
| Silent.

Fixpoint settlementOf (id : Z) (log : list (Z * Settlement)) : option Settlement :=
  match log with
  | [] => None
  | (k, s) :: rest => if Z.eqb k id then Some s else settlementOf id rest
  end.

(** [setProp] and [spread]: [{ ...base, ...extra }] on property lists. *)
Fixpoint setProp (key : string) (v : JSON) (props : list (string * JSON))
  : list (string * JSON) :=
  match props with
  | [] => [(key, v)]
  | (k, x) :: rest =>
      if String.eqb k key then (k, v) :: rest else (k, x) :: setProp key v rest
  end.

Definition spread (base extra : list (string * JSON)) : list (string * JSON) :=
  fold_left (fun acc kv => setProp (fst kv) (snd kv) acc) extra base.

Section Orchestrator.

(** The constructor's arguments, and the machine around the client. *)
Variable root : string.
Variable server : Config.ResolvedServer.
Variable pid : Z.
Variable spawns : bool.
Variable subprocess : string -> Z -> Reaction.

(** [await this.send(method, params)] with one request in flight, as
    in [withLspClient]: the request goes out, the subprocess reacts, the
    timer fires (to no effect when the entry is gone by then), and the
    caller continues with what its promise was settled with, or never
    continues when nothing settled it. *)
Definition awaitSend (method : string) (params : option JSON) : Action (option JSON) :=
  fun c =>
    match send method params c with
    | inl e => (Throws e, c)
    | inr (id, c) =>
        let c := match subprocess method id with
                 | Answers msg => dispatch msg c
                 | Silent => c
                 end in
        let c := timeoutFires id c in
        match settlementOf id (settled c) with
        | Some (Resolved v) => (Returns v, c)
        | Some (Rejected e) => (Throws e, c)
        | None => (Hangs, c)
        end
    end.

Definition start : Action unit :=
  fun c =>
    if spawns then (Returns tt, setRunning true (setProc true c))
    else (Throws (Thrown "spawn"), c).

Definition initializeParams : JSON :=
  let rootUri := JStr ("file://" ++ root) in
  JObj (spread
    [("processId", JNum pid);
     ("rootUri", rootUri);
     ("rootPath", JStr root);
     ("workspaceFolders",
       JArr [JObj [("uri", rootUri); ("name", JStr "workspace")]]);
     ("capabilities",
       JObj [("textDocument",
               JObj [("hover", JObj [("contentFormat",
                                       JArr [JStr "markdown"; JStr "plaintext"])]);
                     ("definition", JObj [("linkSupport", JBool true)]);
                     ("references", JObj []);
                     ("documentSymbol",
                       JObj [("hierarchicalDocumentSymbolSupport", JBool true)]);
                     ("publishDiagnostics", JObj [])]);
             ("workspace",
               JObj [("symbol", JObj []);
                     ("workspaceFolders", JBool true);
                     ("configuration", JBool true)])])]
    (match Config.initialization server with
     | Some (JObj props) => props
     | _ => []
     end)).

Definition initialize : Action unit :=
  awaitSend "initialize" (Some initializeParams) ;;;
  perform (notify "initialized" None) ;;;
  perform (notify "workspace/didChangeConfiguration"
             (Some (JObj [("settings", JObj [])]))).

(** [this.proc?.kill(); this.proc = null]. *)
Definition kill (c : LSPClient) : LSPClient :=
  setProc false (if proc c then setRunning false c else c).

Definition stop : Action unit :=
  tryCatch (awaitSend "shutdown" (Some (JObj [])) ;;;
            perform (notify "exit" None)) ;;;
  perform kill.

(** [withLspClient], given what [findServerForExtension(ext)] found;
    the result comes with the client as the call leaves it. *)
Definition withLspClient {T} (ext : string) (found : bool) (fn : Action T)
  : Outcome T * LSPClient :=
  if negb found then
    (Throws (LspError ("No LSP server configured for extension: " ++ ext)), newClient)
  else
    (start ;;;
     initialize ;;;
     tryFinally fn stop) newClient.

End Orchestrator.

(** A step that touches neither the handle nor the subprocess. *)
Definition SameProcess (c c' : LSPClient) : Prop :=
  proc c' = proc c ∧ running c' = running c.

(** A client keeps its handle for as long as its subprocess runs. *)
Definition HoldsHandle (c : LSPClient) : Prop := running c = true → proc c = true.

(** A language server for Python, a subprocess that never answers, and
    one that refuses every request with an error. *)
Definition pyright : Config.ResolvedServer :=
  {| Config.id := "pyright";
     Config.command := ["pyright-langserver"; "--stdio"];
     Config.extensions := [".py"];
     Config.env := None;
     Config.initialization := None |}.

Definition silentSubprocess (method : string) (id : Z) : Reaction := Silent.

Definition refusingSubprocess (method : string) (id : Z) : Reaction :=
  Answers (JObj [("jsonrpc", JStr "2.0"); ("id", JNum id);
                 ("error", JObj [("code", JNum (-32603));
                                 ("message", JStr "not ready")])]).

(** A subprocess that answers every request with a null result. *)
Definition obligingSubprocess (method : string) (id : Z) : Reaction :=
  Answers (JObj [("jsonrpc", JStr "2.0"); ("id", JNum id); ("result", JNull)]).

End Session.

(** ** config.ts: server resolution in the words of the specification *)

Module Resolution.

Import Config.

(** A piece of text that holds no colon. *)
Fixpoint NoColon (piece : string) : Prop :=
  match piece with
  | EmptyString => True
  | String c rest => c ≠ ":"%char ∧ NoColon rest
  end.

(** The entry [entry] of the configuration defines the server [server]
    under the key [key]: it is not disabled, it gives a command and
    extensions, and the server carries the key as its id and what the
    entry gives. *)
Definition Defines (key : string) (entry : OpencodeJsonLspEntry)
    (server : ResolvedServer) : Prop :=
  entry_disabled entry ≠ Some true
  ∧ entry_command entry = Some (command server)
  ∧ entry_extensions entry = Some (extensions server)
  ∧ id server = key
  ∧ env server = entry_env entry
  ∧ initialization server = entry_initialization entry.

Section Machine.

Variable config : OpencodeJson.
Variable BUILTIN_SERVERS : list (string * BuiltinServer).
Variable PATH : option string.
Variable existsSync : string -> bool.
Variable pathJoin : string -> string -> string.

(** The text of the search path: [PATH], and the empty text when it is
    not set. *)
Definition pathText : string :=
  match PATH with
  | Some text => text
  | None => ""
  end.

(** The directories of the search path: the pieces that its text is
    made of, with colons between them. *)
Definition SearchDirectory (dir : string) : Prop :=
  ∃ pieces, pathText = Utils.join ":" pieces ∧ Forall NoColon pieces ∧ In dir pieces.

(** The first token of the command exists in some directory of the
    search path. *)
Definition Available (command : list string) : Prop :=
  ∃ cmd args dir, command = cmd :: args ∧ SearchDirectory dir
                  ∧ existsSync (pathJoin dir cmd) = true.

(** A server with these extensions and this command matches [ext]. *)
Definition Matches (exts command : list string) (ext : string) : Prop :=
  In ext exts ∧ Available command.

(** A user-defined server: one that an entry of the configuration
    defines. *)
Definition UserDefined (key : string) (server : ResolvedServer) : Prop :=
  ∃ entries entry, lsp config = Some entries ∧ In (key, entry) entries
                   ∧ Defines key entry server.

Definition ShadowedByUser (id : string) : Prop := ∃ server, UserDefined id server.

(** No entry of [entries] defines a server that matches [ext]. *)
Definition NoneMatches (ext : string) (entries : list (string * OpencodeJsonLspEntry))
  : Prop :=
  Forall (fun kv => ∀ server, Defines kv.1 kv.2 server →
                      ¬ Matches (extensions server) (command server) ext) entries.

(** [server] is the first user-configured server, in configuration
    order, that matches [ext]; configuration order is the order in which
    the [lsp] object of the configuration enumerates its members. *)
Definition FirstUserMatch (ext : string) (server : ResolvedServer) : Prop :=
  ∃ entries before key entry after,
    lsp config = Some entries
    ∧ entries = (before ++ (key, entry) :: after)%list
    ∧ Defines key entry server
    ∧ Matches (extensions server) (command server) ext
    ∧ NoneMatches ext before.

Definition NoUserMatch (ext : string) : Prop :=
  ∀ key server, UserDefined key server →
    ¬ Matches (extensions server) (command server) ext.

(** A built-in that matches [ext], is installed, and is neither
    disabled by the user configuration nor shadowed by a user-defined
    server of the same id. *)
Definition Eligible (ext : string) (builtin : string * BuiltinServer) : Prop :=
  ¬ DisabledByUser config builtin.1
  ∧ ¬ ShadowedByUser builtin.1
  ∧ Matches (builtin_extensions builtin.2) (builtin_command builtin.2) ext.

(** [server] is the first eligible built-in, in the order of the
    table, in its resolved form. *)
Definition FirstBuiltinMatch (ext : string) (server : ResolvedServer) : Prop :=
  ∃ before id b after,
    BUILTIN_SERVERS = (before ++ (id, b) :: after)%list
    ∧ server = {| id := id; command := builtin_command b;
                  extensions := builtin_extensions b;
                  env := None; initialization := None |}
    ∧ Eligible ext (id, b)
    ∧ Forall (fun builtin => ¬ Eligible ext builtin) before.

End Machine.

End Resolution.

(** ** client.ts: the read loop over a stream of chunks *)

Module Stream.

Import Wire Client.

(** [needle] stands in [haystack] at index [i]. *)
Definition OccursAt (needle haystack : list Z) (i : nat) : Prop :=
  ∃ before after, haystack = (before ++ needle ++ after)%list ∧ length before = i.

Section Reader.

(** [JSON.parse], as in the client. *)
Variable JSON_parse : list Z -> option JSON.

(** The loop of [startReading] over the chunks the stream delivers:
    each chunk is appended to the buffer and [processBuffer] runs. *)
Fixpoint readChunks (chunks : list (list Z)) (extracted : list (list Z))
    (c : LSPClient) : option (list (list Z) * LSPClient) :=
  match chunks with
  | [] => Some (extracted, c)
  | chunk :: rest =>
      match receive JSON_parse chunk c with
      | Some (payloads, c') => readChunks rest (extracted ++ payloads)%list c'
      | None => None
      end
  end.

End Reader.

(** Two replies as a server frames them, ["[]"] and ["null"], and the
    same bytes as a stream may deliver them: cut inside the first
    header, inside its terminator, inside the first payload and before
    the last byte. *)
Definition twoReplies : list Frame :=
  [crlfFrame;
   {| frame_digits := [52]; frame_terminator := CRLFCRLF;
      frame_payload := [110; 117; 108; 108] |}]%Z.

Definition fiveChunks : list (list Z) :=
  [[67; 111; 110; 116; 101; 110; 116; 45; 76; 101];
   [110; 103; 116; 104; 58; 32; 50; 13; 10; 13];
   [10; 91];
   [93; 67; 111; 110; 116; 101; 110; 116; 45; 76; 101; 110; 103; 116; 104; 58; 32;
    52; 13; 10; 13; 10; 110; 117; 108];
   [108]]%Z.

(** A complete frame ended by LFLF, ["{}"], and behind it the first
    three bytes, ["abc"], of a payload of fifty whose header ends with
    CRLFCRLF. *)
Definition mixedPartial : list Z :=
  (encodeFrames [lfFrame] ++ frameBytes [53; 48] CRLFCRLF [97; 98; 99])%list%Z.

(** One reply behind two bytes that belong to no frame. *)
Definition noisyBuffer : list Z := ([0; 1]%Z ++ encodeFrames [crlfFrame])%list.

End Stream.

(** ** client.ts: the promises behind the pending table *)

Module Promises.

Import Client.

(** The promises settled so far, by request number, oldest first. *)
Definition settledIds (c : LSPClient) : list Z := List.map fst (settled c).

(** Every entry of the table holds the handlers of the promise that the
    [send] call with the entry's number returned. *)
Definition WellKeyed (c : LSPClient) : Prop :=
  ∀ k h, pending c !! k = Some h → promise h = k.

(** What holds of the table and the settled promises of a client
    between any two events. *)
Definition Consistent (c : LSPClient) : Prop :=
  Minted c ∧ WellKeyed c
  ∧ (∀ k, k ∈ settledIds c → (k <= requestId c)%Z ∧ pending c !! k = None)
  ∧ NoDup (settledIds c).

(** A response to request [k] whose [error] is [null]. *)
Definition NullError (k : Z) (msg : JSON) : Prop :=
  ∃ props, msg = JObj props ∧ getProp "id" props = Some (JNum k)
           ∧ getProp "method" props = None
           ∧ getProp "error" props = Some JNull.

Definition nullErrorAnswer : JSON :=
  JObj [("jsonrpc", JStr "2.0"); ("id", JNum 1); ("error", JNull)].

End Promises.

(** ** client.ts: the operations on documents *)

Module Operations.

Import Client Session.

(** [this.openedFiles.add(absPath)]. *)
Definition addOpened (absPath : string) (c : LSPClient) : LSPClient :=
  {| proc := proc c; buffer := buffer c; pending := pending c;
     requestId := requestId c; openedFiles := {[ absPath ]} ∪ openedFiles c;
     stdin := stdin c; settled := settled c; running := running c |}.

Definition didOpenParams (absPath languageId text : string) : JSON :=
  JObj [("textDocument",
          JObj [("uri", JStr ("file://" ++ absPath));
                ("languageId", JStr languageId);
                ("version", JNum 1);
                ("text", JStr text)])].

Definition textDocument (absPath : string) : string * JSON :=
  ("textDocument", JObj [("uri", JStr ("file://" ++ absPath))]).

(** [{ line: line - 1, character }]. *)
Definition position (line character : Z) : string * JSON :=
  ("position", JObj [("line", JNum (line - 1)); ("character", JNum character)]).

Section Files.

(** [path.resolve] and [path.extname], [fs.readFileSync] ([None] when it
    throws), the table [EXT_TO_LANG] of [constants.ts], and the
    subprocess. *)
Variable resolve : string -> string.
Variable extname : string -> string.
Variable readFileSync : string -> option string.
Variable EXT_TO_LANG : string -> option string.
Variable subprocess : string -> Z -> Reaction.

(** config.ts: [EXT_TO_LANG[ext] || "plaintext"]. *)
Definition getLanguageId (ext : string) : string :=
  match EXT_TO_LANG ext with
  | Some lang => if Utils.truthy lang then lang else "plaintext"
  | None => "plaintext"
  end.

(** [openFile]; the wait that ends it takes time and nothing else. *)
Definition openFile (filePath : string) : Action unit :=
  fun c =>
    let absPath := resolve filePath in
    if bool_decide (absPath ∈ openedFiles c) then (Returns tt, c)
    else
      match readFileSync absPath with
      | None => (Throws (Thrown "readFileSync"), c)
      | Some text =>
          let ext := extname absPath in
          let languageId := getLanguageId ext in
          let c := notify "textDocument/didOpen"
                     (Some (didOpenParams absPath languageId text)) c in
          (Returns tt, addOpened absPath c)
      end.

Definition hover (filePath : string) (line character : Z) : Action (option JSON) :=
  let absPath := resolve filePath in
  openFile absPath ;;;
  awaitSend subprocess "textDocument/hover"
    (Some (JObj [textDocument absPath; position line character])).

Definition definition (filePath : string) (line character : Z) : Action (option JSON) :=
  let absPath := resolve filePath in
  openFile absPath ;;;
  awaitSend subprocess "textDocument/definition"
    (Some (JObj [textDocument absPath; position line character])).

Definition references (filePath : string) (line character : Z)
    (includeDeclaration : bool) : Action (option JSON) :=
  let absPath := resolve filePath in
  openFile absPath ;;;
  awaitSend subprocess "textDocument/references"
    (Some (JObj [textDocument absPath; position line character;
                 ("context", JObj [("includeDeclaration", JBool includeDeclaration)])])).

Definition documentSymbols (filePath : string) : Action (option JSON) :=
  let absPath := resolve filePath in
  openFile absPath ;;;
  awaitSend subprocess "textDocument/documentSymbol"
    (Some (JObj [textDocument absPath])).

Definition workspaceSymbols (query : string) : Action (option JSON) :=
  awaitSend subprocess "workspace/symbol" (Some (JObj [("query", JStr query)])).

Definition diagnostics (filePath : string) : Action (option JSON) :=
  let absPath := resolve filePath in
  openFile absPath ;;;
  awaitSend subprocess "textDocument/diagnostic"
    (Some (JObj [textDocument absPath])).

(** The calls a user of the client makes, and a sequence of them on one
    client, each on the client as the one before left it. *)
Inductive Operation :=
| Hover (filePath : string) (line character : Z)
| Definition_ (filePath : string) (line character : Z)
| References (filePath : string) (line character : Z) (includeDeclaration : bool)
| DocumentSymbols (filePath : string)
| WorkspaceSymbols (query : string)
| Diagnostics (filePath : string).

Definition operate (op : Operation) : Action (option JSON) :=
  match op with
  | Hover filePath line character => hover filePath line character
  | Definition_ filePath line character => definition filePath line character
  | References filePath line character includeDeclaration =>
      references filePath line character includeDeclaration
  | DocumentSymbols filePath => documentSymbols filePath
  | WorkspaceSymbols query => workspaceSymbols query
  | Diagnostics filePath => diagnostics filePath
  end.

Definition operateAll (ops : list Operation) (c : LSPClient) : LSPClient :=
  fold_left (fun c op => (operate op c).2) ops c.

End Files.

(** The document a frame written to the subprocess announces, when the
    frame is a [textDocument/didOpen] notification. *)
Definition didOpenUri (msg : JSON) : option string :=
  match msg with
  | JObj props =>
      match getProp "method" props, getProp "params" props with
      | Some method, Some (JObj params) =>
          if isMethod method "textDocument/didOpen" then
            match getProp "textDocument" params with
            | Some (JObj doc) =>
                match getProp "uri" doc with
                | Some (JStr uri) => Some uri
                | _ => None
                end
            | _ => None
            end
          else None
      | _, _ => None
      end
  | _ => None
  end.

Definition announcedUris (c : LSPClient) : list string := omap didOpenUri (stdin c).

(** The documents announced are announced once each, and are among the
    files the client holds as opened. *)
Definition Announced (c : LSPClient) : Prop :=
  NoDup (announcedUris c)
  ∧ ∀ uri, uri ∈ announcedUris c → ∃ p, uri = "file://" ++ p ∧ p ∈ openedFiles c.

(** A machine on which every file reads as ["pass"], with paths taken
    as they are given. *)
Definition readsPass (path : string) : option string := Some "pass".
Definition noExtension (path : string) : string := "".
Definition noLanguages (ext : string) : option string := None.

End Operations.

(** ** config.ts: the listing of servers *)

Module Listing.

Import Config.
Local Open Scope list_scope.

(** An element of the array [getAllServers] returns. *)
Record ServerInfo := {
  id : string;
  installed : bool;
  extensions : list string;
  disabled : bool
}.

(** The [Set] built by [getDisabledServers], in the order in which
    [for (const id of disabledServers)] visits it: insertion order. *)
Fixpoint collectDisabledOrder (entries : list (string * OpencodeJsonLspEntry))
    (disabled : list string) : list string :=
  match entries with
  | [] => disabled
  | (id, entry) :: rest =>
      collectDisabledOrder rest
        (if isDisabled entry
         then if includes disabled id then disabled else disabled ++ [id]
         else disabled)
  end.

Definition disabledInOrder (config : OpencodeJson) : list string :=
  match lsp config with
  | Some entries => collectDisabledOrder entries []
  | None => []
  end.

(** The names that every object inherits from [Object.prototype]. *)
Definition OBJECT_PROTOTYPE : list string :=
  ["constructor"; "__defineGetter__"; "__defineSetter__"; "hasOwnProperty";
   "__lookupGetter__"; "__lookupSetter__"; "isPrototypeOf"; "propertyIsEnumerable";
   "toString"; "valueOf"; "__proto__"; "toLocaleString"].

(** What [BUILTIN_SERVERS[id]] finds: an entry of the table; failing
    that a member inherited from [Object.prototype], which is a function
    or the prototype itself; failing that nothing, [undefined]. *)
Inductive Lookup :=
| Own (builtin : BuiltinServer)
| Inherited
| Undefined.

Fixpoint ownBuiltin (builtins : list (string * BuiltinServer)) (id : string)
  : option BuiltinServer :=
  match builtins with
  | [] => None
  | (key, b) :: rest => if String.eqb key id then Some b else ownBuiltin rest id
  end.

Definition lookupBuiltin (builtins : list (string * BuiltinServer)) (id : string)
  : Lookup :=
  match ownBuiltin builtins id with
  | Some b => Own b
  | None => if includes OBJECT_PROTOTYPE id then Inherited else Undefined
  end.

Section Servers.

Variable config : OpencodeJson.
Variable BUILTIN_SERVERS : list (string * BuiltinServer).
Variable PATH : option string.
Variable existsSync : string -> bool.
Variable pathJoin : string -> string -> string.

Local Abbreviation isServerInstalled := (isServerInstalled PATH existsSync pathJoin).

Definition userInfo (server : ResolvedServer) : ServerInfo :=
  {| id := Config.id server;
     installed := isServerInstalled (command server);
     extensions := Config.extensions server;
     disabled := false |}.

(** The element pushed for a disabled id; [None] when building it
    throws: an inherited member is truthy and has no [command], so
    [isServerInstalled(builtin.command)] reads [length] of [undefined],
    a [TypeError]. *)
Definition disabledInfo (id : string) : option ServerInfo :=
  match lookupBuiltin BUILTIN_SERVERS id with
  | Own b =>
      Some {| id := id;
              installed := isServerInstalled (builtin_command b);
              extensions := builtin_extensions b;
              disabled := true |}
  | Undefined =>
      Some {| id := id; installed := false; extensions := []; disabled := true |}
  | Inherited => None
  end.

Definition builtinInfo (id : string) (cfg : BuiltinServer) : ServerInfo :=
  {| id := id;
     installed := isServerInstalled (builtin_command cfg);
     extensions := builtin_extensions cfg;
     disabled := false |}.

(** The body of the first loop, on [result] and [seen]. *)
Definition listUserServer (st : list ServerInfo * gset string)
    (kv : string * ResolvedServer) : list ServerInfo * gset string :=
  (st.1 ++ [userInfo kv.2], {[ Config.id kv.2 ]} ∪ st.2).

(** The second loop, over the disabled ids in order; [None] when an
    iteration throws. *)
Fixpoint listDisabled (ids : list string) (st : list ServerInfo * gset string)
  : option (list ServerInfo * gset string) :=
  match ids with
  | [] => Some st
  | id :: rest =>
      if bool_decide (id ∈ st.2) then listDisabled rest st
      else
        match disabledInfo id with
        | Some info => listDisabled rest (st.1 ++ [info], {[ id ]} ∪ st.2)
        | None => None
        end
  end.

(** The body of the third loop. *)
Definition listBuiltin (st : list ServerInfo * gset string)
    (kv : string * BuiltinServer) : list ServerInfo * gset string :=
  if bool_decide (kv.1 ∈ st.2) then st
  else (st.1 ++ [builtinInfo kv.1 kv.2], st.2).

(** [getAllServers]: the listing, or [None] for the [TypeError] that
    the second loop throws. *)
Definition getAllServers : option (list ServerInfo) :=
  let st := fold_left listUserServer (getUserLspServers config) ([], ∅) in
  match listDisabled (disabledInOrder config) st with
  | Some st => Some (fold_left listBuiltin BUILTIN_SERVERS st).1
  | None => None
  end.

End Servers.

(** The keys of an object are distinct. *)
Definition DistinctKeys (config : OpencodeJson) : Prop :=
  ∀ entries, lsp config = Some entries → NoDup (List.map fst entries).

(** [id] names a member of [Object.prototype] and no entry of the
    table. *)
Definition InheritedOnly (builtins : list (string * BuiltinServer)) (id : string)
  : Prop :=
  In id OBJECT_PROTOTYPE ∧ ∀ b, ¬ In (id, b) builtins.

(** No id that the configuration disables is such a name. *)
Definition PlainIds (config : OpencodeJson) (builtins : list (string * BuiltinServer))
  : Prop :=
  ∀ id, DisabledByUser config id → ¬ InheritedOnly builtins id.

(** A machine with one built-in server, and a configuration that
    disables a server and defines one of the user's own; every command
    is found on the search path. *)
Definition onePython : list (string * BuiltinServer) :=
  [("pyright", {| builtin_command := ["pyright-langserver"; "--stdio"];
                  builtin_extensions := [".py"] |})].

Definition disabledEntry : OpencodeJsonLspEntry :=
  {| entry_disabled := Some true; entry_command := None; entry_extensions := None;
     entry_env := None; entry_initialization := None |}.

Definition customEntry : OpencodeJsonLspEntry :=
  {| entry_disabled := None; entry_command := Some ["my-lsp"];
     entry_extensions := Some [".my"]; entry_env := None;
     entry_initialization := None |}.

Definition exampleConfig : OpencodeJson :=
  {| lsp := Some [("gopls", disabledEntry); ("mine", customEntry)] |}.

(** A configuration that disables a server by the name of a member of
    [Object.prototype]. *)
Definition constructorConfig : OpencodeJson :=
  {| lsp := Some [("constructor", disabledEntry)] |}.

Definition everythingExists (path : string) : bool := true.

Definition joinWithSlash (dir name : string) : string := (dir ++ "/" ++ name)%string.

End Listing.

(** ** utils.ts: locations, symbols and diagnostics as text *)

Module Format.

Import Utils.

(** *** types.ts *)

Record Location := { uri : string; loc_range : Range }.

Record LocationLink := {
  targetUri : string;
  targetRange : Range;
  targetSelectionRange : Range;
  originSelectionRange : option Range
}.

(** [Location | LocationLink], told apart by ["targetUri" in loc]. *)
Inductive LocationOrLink :=
| IsLocation (loc : Location)
| IsLink (link : LocationLink).

Record SymbolInfo := {
  info_name : string;
  info_kind : Z;
  location : Location;
  containerName : option string
}.

#[warnings="-register-all"]
Inductive DocumentSymbol := {
  name : string;
  symbol_kind : Z;
  symbol_range : Range;
  selectionRange : Range;
  children : option (list DocumentSymbol)
}.

(** A number in a template literal; the numbers here are integers, and
    below 10^21 in absolute value, which print in decimal. *)
Definition showNumber (n : Z) : string := NilZero.string_of_int (Z.to_int n).

(** [s.replace(pattern, replacement)] with [pattern] a string: the
    first occurrence is replaced. *)
Fixpoint replaceFirst (pattern replacement s : string) : string :=
  if String.prefix pattern s then
    replacement ++ String.substring (String.length pattern)
                     (String.length s - String.length pattern) s
  else
    match s with
    | EmptyString => EmptyString
    | String c rest => String c (replaceFirst pattern replacement rest)
    end.

(** ["  ".repeat(indent)]. *)
Fixpoint repeatString (s : string) (n : nat) : string :=
  match n with
  | O => ""
  | S n' => s ++ repeatString s n'
  end.

Definition formatLocation (loc : LocationOrLink) : string :=
  match loc with
  | IsLink link =>
      let uri := replaceFirst "file://" "" (targetUri link) in
      let line := (line (range_start (targetRange link)) + 1)%Z in
      let char := character (range_start (targetRange link)) in
      uri ++ ":" ++ showNumber line ++ ":" ++ showNumber char
  | IsLocation loc =>
      let uri := replaceFirst "file://" "" (uri loc) in
      let line := (line (range_start (loc_range loc)) + 1)%Z in
      let char := character (range_start (loc_range loc)) in
      uri ++ ":" ++ showNumber line ++ ":" ++ showNumber char
  end.

Section Tables.

(** The tables [SYMBOL_KIND_MAP] and [SEVERITY_MAP] of [constants.ts]. *)
Variable SYMBOL_KIND_MAP : Z -> option string.
Variable SEVERITY_MAP : Z -> option string.

(** [table[key] || fallback]. *)
Definition orElse (found : option string) (fallback : string) : string :=
  match found with
  | Some s => if truthy s then s else fallback
  | None => fallback
  end.

Definition formatSymbolKind (kind : Z) : string :=
  orElse (SYMBOL_KIND_MAP kind) ("Unknown(" ++ showNumber kind ++ ")").

Definition formatSeverity (severity : option Z) : string :=
  match severity with
  | None => "unknown"
  | Some n =>
      if (n =? 0)%Z then "unknown"
      else orElse (SEVERITY_MAP n) ("unknown(" ++ showNumber n ++ ")")
  end.

(** The line [formatDocumentSymbol] starts its result with. *)
Definition symbolLine (symbol : DocumentSymbol) (indent : nat) : string :=
  let prefix := repeatString "  " indent in
  let kind := formatSymbolKind (symbol_kind symbol) in
  let line := (line (range_start (symbol_range symbol)) + 1)%Z in
  prefix ++ name symbol ++ " (" ++ kind ++ ") - line " ++ showNumber line.

Fixpoint formatDocumentSymbol (symbol : DocumentSymbol) (indent : nat) {struct symbol}
  : string :=
  let result := symbolLine symbol indent in
  match children symbol with
  | Some kids =>
      if (0 <? List.length kids)%nat then
        fold_left
          (fun result child => result ++ newline ++ formatDocumentSymbol child (S indent))
          kids result
      else result
  | None => result
  end.

Definition formatSymbolInfo (symbol : SymbolInfo) : string :=
  let kind := formatSymbolKind (info_kind symbol) in
  let loc := formatLocation (IsLocation (location symbol)) in
  let container :=
    match containerName symbol with
    | Some c => if truthy c then " (in " ++ c ++ ")" else ""
    | None => ""
    end in
  info_name symbol ++ " (" ++ kind ++ ")" ++ container ++ " - " ++ loc.

Definition formatDiagnostic (diag : Diagnostic) : string :=
  let severity := formatSeverity (severity diag) in
  let line := (line (range_start (diag_range diag)) + 1)%Z in
  let char := character (range_start (diag_range diag)) in
  let source :=
    match source diag with
    | Some s => if truthy s then "[" ++ s ++ "]" else ""
    | None => ""
    end in
  let code :=
    match code diag with
    | Some (CodeStr s) => if truthy s then " (" ++ s ++ ")" else ""
    | Some (CodeNum n) => if (n =? 0)%Z then "" else " (" ++ showNumber n ++ ")"
    | None => ""
    end in
  severity ++ source ++ code ++ " at " ++ showNumber line ++ ":" ++ showNumber char
  ++ ": " ++ message diag.

(** The outline in the words of its readers: one line per symbol,
    a symbol before its children, the children in order, each one level
    deeper than its parent. *)
Fixpoint outline (symbol : DocumentSymbol) (indent : nat) {struct symbol} : list string :=
  symbolLine symbol indent
  :: match children symbol with
     | Some kids => flat_map (fun child => outline child (S indent)) kids
     | None => []
     end.

End Tables.

(** The name a severity filter goes by in the tool's arguments. *)
Definition filterName (name : SeverityFilter) : string :=
  match name with
  | error => "error"
  | warning => "warning"
  | information => "information"
  | hint => "hint"
  | all => "all"
  end.

(** The severity table of the protocol. *)
Definition protocolSeverities (n : Z) : option string :=
  if (n =? 1)%Z then Some "error"
  else if (n =? 2)%Z then Some "warning"
  else if (n =? 3)%Z then Some "information"
  else if (n =? 4)%Z then Some "hint"
  else None.

End Format.

(** ** config.ts: the configuration file and its cache *)

Module Loader.

(** What [loadOpencodeJson] asks of the machine when it runs. *)
Record FileSystem := {
  existsSync : string -> bool;
  readFileSync : string -> option string
}.

(** [if (v)] on a value. *)
Definition truthyValue (v : JSON) : bool :=
  match v with
  | JNull => false
  | JBool b => b
  | JNum n => negb (n =? 0)%Z
  | JStr s => Utils.truthy s
  | JArr _ | JObj _ => true
  end.

Section Cache.

(** [join(homedir(), ".config", "opencode", "opencode.json")], and
    [JSON.parse] on a string. *)
Variable configPath : string.
Variable JSON_parse : string -> option JSON.

(** [loadOpencodeJson] on the module's [cachedOpencodeConfig]: the
    value returned and the cache as the call leaves it. *)
Definition loadOpencodeJson (fs : FileSystem) (cachedOpencodeConfig : JSON)
  : JSON * JSON :=
  if truthyValue cachedOpencodeConfig then (cachedOpencodeConfig, cachedOpencodeConfig)
  else
    let fallback := (JObj [], JObj []) in
    if existsSync fs configPath then
      match readFileSync fs configPath with
      | Some content =>
          match JSON_parse content with
          | Some parsed => (parsed, parsed)
          | None => fallback
          end
      | None => fallback
      end
    else fallback.

(** Calls one after the other, each on the machine as it then is. *)
Fixpoint loadEach (machines : list FileSystem) (cachedOpencodeConfig : JSON)
  : list JSON :=
  match machines with
  | [] => []
  | fs :: rest =>
      let '(config, cached) := loadOpencodeJson fs cachedOpencodeConfig in
      config :: loadEach rest cached
  end.

End Cache.

(** A machine without the file, and one where it disables a server. *)
Definition noFile : FileSystem :=
  {| existsSync := fun _ => false; readFileSync := fun _ => None |}.

Definition withFile : FileSystem :=
  {| existsSync := fun _ => true; readFileSync := fun _ => Some "{...}" |}.

Definition parsesToDisabled (content : string) : option JSON :=
  Some (JObj [("lsp", JObj [("pyright", JObj [("disabled", JBool true)])])]).

End Loader.

(** ** client.ts: the frames the client writes *)

Module Output.

Import Wire.
Local Open Scope Z_scope.

(** The characters of a number in decimal, as code units. *)
Fixpoint uintDigits (d : Decimal.uint) : list Z :=
  match d with
  | Decimal.Nil => []
  | Decimal.D0 d => 48 :: uintDigits d
  | Decimal.D1 d => 49 :: uintDigits d
  | Decimal.D2 d => 50 :: uintDigits d
  | Decimal.D3 d => 51 :: uintDigits d
  | Decimal.D4 d => 52 :: uintDigits d
  | Decimal.D5 d => 53 :: uintDigits d
  | Decimal.D6 d => 54 :: uintDigits d
  | Decimal.D7 d => 55 :: uintDigits d
  | Decimal.D8 d => 56 :: uintDigits d
  | Decimal.D9 d => 57 :: uintDigits d
  end.

(** [`${Buffer.byteLength(msg)}`] for a message of [n] bytes. *)
Definition byteLengthDigits (n : nat) : list Z := uintDigits (Nat.to_uint n).

(** What [send], [notify] and [respond] write for a message whose text
    is the bytes [msg]: ["Content-Length: "], the byte length, CRLFCRLF
    and the message. *)
Definition writtenFrame (msg : list Z) : Frame :=
  {| frame_digits := byteLengthDigits (length msg);
     frame_terminator := CRLFCRLF;
     frame_payload := msg |}.

Definition written (msgs : list (list Z)) : list Z :=
  encodeFrames (List.map writtenFrame msgs).

(** A frame whose header name is in lower case. *)
Definition lowerCaseFrame : list Z :=
  [99; 111; 110; 116; 101; 110; 116; 45; 108; 101; 110; 103; 116; 104; 58; 32; 50;
   13; 10; 13; 10; 123; 125].

End Output.

(** ** client.ts: the parameters of the handshake *)

Module Initialization.

Import Session.

(** The members of the object that [initialize] sends as [params]. *)
Definition paramsOf (root : string) (server : Config.ResolvedServer) (pid : Z)
  : list (string * JSON) :=
  match initializeParams root server pid with
  | JObj props => props
  | _ => []
  end.

(** The server without initialization options of its own. *)
Definition withoutOptions (server : Config.ResolvedServer) : Config.ResolvedServer :=
  {| Config.id := Config.id server;
     Config.command := Config.command server;
     Config.extensions := Config.extensions server;
     Config.env := Config.env server;
     Config.initialization := None |}.

(** A server whose options hide the process id and add a member. *)
Definition pyrightWithOptions : Config.ResolvedServer :=
  {| Config.id := "pyright";
     Config.command := ["pyright-langserver"; "--stdio"];
     Config.extensions := [".py"];
     Config.env := None;
     Config.initialization :=
       Some (JObj [("processId", JNull); ("python", JObj [])]) |}.

End Initialization.

(** * Properties *)

(** ** Severity filtering *)

Module Filtering.

Import Utils.

Lemma strictEqNum_decide (a : option Z) (n : Z) :
  strictEqNum a (Some n) = bool_decide (a = Some n).
Proof.
  unfold strictEqNum. destruct a as [x|].
  - destruct (Z.eqb_spec x n) as [->|Hne]; symmetry.
    + by apply bool_decide_eq_true_2.
    + apply bool_decide_eq_false_2. congruence.
  - symmetry. by apply bool_decide_eq_false_2.
Qed.

Lemma filter_named (ds : list Diagnostic) (name : SeverityFilter) (n : Z) :
  name ≠ all → severityMap name = Some n →
  filterDiagnosticsBySeverity ds (Some name) = withSeverity n ds.
Proof.
  intros Hname Hmap. unfold filterDiagnosticsBySeverity, withSeverity.
  destruct name; try congruence; rewrite Hmap;
    apply filter_ext; intros d; apply strictEqNum_decide.
Qed.

(** C8: filtering with "all" or with no filter is the identity, and a
    named severity keeps, in order, exactly the entries whose numeric
    severity is the number the name maps to (error is 1, warning 2,
    information 3, hint 4). *)
Theorem filter_by_severity_spec (ds : list Diagnostic) :
  filterDiagnosticsBySeverity ds None = ds
  ∧ filterDiagnosticsBySeverity ds (Some all) = ds
  ∧ filterDiagnosticsBySeverity ds (Some error) = withSeverity 1 ds
  ∧ filterDiagnosticsBySeverity ds (Some warning) = withSeverity 2 ds
  ∧ filterDiagnosticsBySeverity ds (Some information) = withSeverity 3 ds
  ∧ filterDiagnosticsBySeverity ds (Some hint) = withSeverity 4 ds.
Proof.
  repeat split; try reflexivity; by apply filter_named.
Qed.

(** C10: under a named severity filter a diagnostic without a severity
    never survives, while "all" and the absent filter keep it. *)
Theorem absent_severity_is_filtered_out
    (ds : list Diagnostic) (name : SeverityFilter) (d : Diagnostic)
    (Hname : name ≠ all) (Habsent : severity d = None) :
  ¬ In d (filterDiagnosticsBySeverity ds (Some name))
  ∧ (In d ds → In d (filterDiagnosticsBySeverity ds None)
               ∧ In d (filterDiagnosticsBySeverity ds (Some all))).
Proof.
  split.
  - assert (∃ n, severityMap name = Some n) as [n Hn]
      by (destruct name; simpl; eauto; congruence).
    rewrite (filter_named ds name n Hname Hn). unfold withSeverity.
    rewrite filter_In, bool_decide_eq_true. intros [_ Hsev]. congruence.
  - intros Hin. by split.
Qed.

Lemma absent_severity_is_filtered_out_witness :
  ¬ In unrated (filterDiagnosticsBySeverity [unrated; rated] (Some error))
  ∧ (In unrated [unrated; rated] →
     In unrated (filterDiagnosticsBySeverity [unrated; rated] None)
     ∧ In unrated (filterDiagnosticsBySeverity [unrated; rated] (Some all))).
Proof.
  apply (absent_severity_is_filtered_out [unrated; rated] error unrated).
  - discriminate.
  - reflexivity.
Defined.

End Filtering.

(** ** Hover formatting *)

Module Hover.

Import Utils.

(** C9, as stated, at a sequence with an empty element: the texts
    joined by blank lines are not what the code returns. *)
Lemma hover_sequence_counterexample :
  formatHoverResult (hoverOf (ContentsArray [ItemString "a"; ItemString ""]))
  ≠ join blankLine (List.map itemText [ItemString "a"; ItemString ""]).
Proof. vm_compute. discriminate. Qed.

(** C9, amended: a null result formats to the sentinel, a string to
    itself, a record to its value, and a sequence to its non-empty
    texts, in order, joined by blank lines. *)
Theorem format_hover_spec :
  formatHoverResult None = "No hover information available"
  ∧ (∀ s rg, formatHoverResult (Some {| contents := ContentsString s;
                                        hover_range := rg |}) = s)
  ∧ (∀ m rg, formatHoverResult (Some {| contents := ContentsRecord m;
                                        hover_range := rg |}) = value m)
  ∧ (∀ items rg,
       formatHoverResult (Some {| contents := ContentsArray items;
                                  hover_range := rg |})
       = join blankLine
           (List.filter (fun t => negb (String.eqb t ""))
                        (List.map itemText items)))
  ∧ formatHoverResult
      (hoverOf (ContentsArray
                  [ItemString "a"; ItemRecord {| kind := None; value := "b" |}]))
    = "a" ++ newline ++ newline ++ "b".
Proof.
  repeat split; try reflexivity.
  intros items rg. simpl. f_equal. apply filter_ext.
  intros [|ch t]; reflexivity.
Qed.

End Hover.

(** ** The server registry *)

Module Registry.

Import Config.
Local Open Scope list_scope.

Lemma includes_In (l : list string) (x : string) : includes l x = true ↔ In x l.
Proof.
  unfold includes. rewrite existsb_exists. split.
  - intros (y & Hin & Heq). apply String.eqb_eq in Heq. by subst.
  - intros Hin. exists x. split; [done | apply String.eqb_refl].
Qed.

Lemma mapHas_In {V} (key : string) (m : list (string * V)) :
  mapHas key m = true ↔ ∃ v, In (key, v) m.
Proof.
  unfold mapHas. rewrite existsb_exists. split.
  - intros ([k v] & Hin & Heq). simpl in Heq. apply String.eqb_eq in Heq.
    subst. by exists v.
  - intros (v & Hin). exists (key, v). split; [done | apply String.eqb_refl].
Qed.

Lemma collectDisabled_elem (entries : list (string * OpencodeJsonLspEntry))
    (acc : gset string) (id : string) :
  id ∈ collectDisabled entries acc
  ↔ id ∈ acc ∨ ∃ entry, In (id, entry) entries ∧ entry_disabled entry = Some true.
Proof.
  revert acc. induction entries as [|[k e] rest IH]; intros acc.
  - simpl. split; [by left | intros [H|(e & Hin & _)]; [done | destruct Hin]].
  - simpl. rewrite IH. clear IH. unfold isDisabled.
    split.
    + intros [Hacc|(e' & Hin & Hd)].
      * destruct (entry_disabled e) as [[|]|] eqn:Hde; try by left.
        apply elem_of_union in Hacc as [Hk|Hacc]; [|by left].
        apply elem_of_singleton in Hk. subst. right. exists e. by split; [left|].
      * right. exists e'. by split; [right|].
    + intros [Hacc|(e' & [Heq|Hin] & Hd)].
      * left. destruct (entry_disabled e) as [[|]|]; set_solver.
      * inversion Heq; subst. left. rewrite Hd. set_solver.
      * right. by exists e'.
Qed.

Section Facts.

Variable config : OpencodeJson.
Variable BUILTIN_SERVERS : list (string * BuiltinServer).
Variable PATH : option string.
Variable existsSync : string -> bool.
Variable pathJoin : string -> string -> string.

Local Abbreviation isServerInstalled := (isServerInstalled PATH existsSync pathJoin).
Local Abbreviation Installed := (Installed PATH existsSync pathJoin).
Local Abbreviation Serves := (Serves PATH existsSync pathJoin).
Local Abbreviation UserServes := (UserServes PATH existsSync pathJoin).
Local Abbreviation BuiltinServes := (BuiltinServes config PATH existsSync pathJoin).

Lemma existsInPaths_In (paths : list string) (cmd : string) :
  existsInPaths existsSync pathJoin paths cmd = true
  ↔ ∃ p, In p paths ∧ existsSync (pathJoin p cmd) = true.
Proof.
  induction paths as [|p rest IH]; simpl.
  - split; [discriminate | intros (p & [] & _)].
  - destruct (existsSync (pathJoin p cmd)) eqn:Hp.
    + split; [intros _; exists p; by split; [left|] | done].
    + rewrite IH. split.
      * intros (q & Hin & Hq). exists q. by split; [right|].
      * intros (q & [Heq|Hin] & Hq); [subst; congruence | by exists q].
Qed.

Lemma isServerInstalled_Installed (command : list string) :
  isServerInstalled command = true ↔ Installed command.
Proof.
  unfold Config.isServerInstalled, Config.Installed.
  destruct command as [|cmd args].
  - split; [discriminate | intros (c & a & p & Heq & _); discriminate].
  - rewrite existsInPaths_In. split.
    + intros (p & Hin & Hp). by exists cmd, args, p.
    + intros (c & a & p & Heq & Hin & Hp). inversion Heq; subst. by exists p.
Qed.

Lemma serves_decide (exts command : list string) (ext : string) :
  includes exts ext && isServerInstalled command = true ↔ Serves exts command ext.
Proof.
  unfold Config.Serves.
  rewrite andb_true_iff, includes_In, isServerInstalled_Installed. tauto.
Qed.

Lemma disabled_elem (id : string) :
  id ∈ getDisabledServers config ↔ DisabledByUser config id.
Proof.
  unfold getDisabledServers, DisabledByUser.
  destruct (lsp config) as [entries|].
  - rewrite collectDisabled_elem. split.
    + intros [Hempty|(e & Hin & Hd)]; [set_solver | by exists entries, e].
    + intros (es & e & Heq & Hin & Hd). inversion Heq; subst. right. by exists e.
  - split; [set_solver | intros (es & e & Heq & _); discriminate].
Qed.

(** The loop over the user-defined servers returns the first that
    serves the extension. *)
Lemma findUserServer_first (servers : list (string * ResolvedServer)) (ext : string) :
  match findUserServer PATH existsSync pathJoin servers ext with
  | Some s =>
      ∃ before key after,
        servers = before ++ (key, s) :: after
        ∧ UserServes ext (key, s)
        ∧ Forall (fun e => ¬ UserServes ext e) before
  | None => Forall (fun e => ¬ UserServes ext e) servers
  end.
Proof.
  induction servers as [|[key s] rest IH]; simpl; [by constructor|].
  destruct (includes (extensions s) ext && isServerInstalled (command s)) eqn:Hs.
  - exists [], key, rest.
    split; [reflexivity | split; [by apply serves_decide | constructor]].
  - assert (¬ UserServes ext (key, s)) as Hno.
    { unfold Config.UserServes. simpl. rewrite <- serves_decide. congruence. }
    destruct (findUserServer _ _ _ rest ext) as [found|].
    + destruct IH as (before & k & after & -> & Hserves & Hbefore).
      exists ((key, s) :: before), k, after.
      split; [reflexivity | split; [done | by constructor]].
    + by constructor.
Qed.

(** The loop over the built-ins returns the first one that is neither
    disabled nor shadowed and serves the extension. *)
Lemma findBuiltinServer_first (builtins : list (string * BuiltinServer)) (ext : string) :
  match findBuiltinServer PATH existsSync pathJoin builtins
          (getUserLspServers config) (getDisabledServers config) ext with
  | Some s =>
      ∃ before id b after,
        builtins = before ++ (id, b) :: after
        ∧ s = resolveBuiltin id b
        ∧ BuiltinServes ext (id, b)
        ∧ Forall (fun e => ¬ BuiltinServes ext e) before
  | None => Forall (fun e => ¬ BuiltinServes ext e) builtins
  end.
Proof.
  induction builtins as [|[id b] rest IH]; simpl; [by constructor|].
  assert (∀ found : option ResolvedServer,
    ¬ BuiltinServes ext (id, b) →
    match found with
    | Some s =>
        ∃ before id' b' after,
          rest = before ++ (id', b') :: after ∧ s = resolveBuiltin id' b'
          ∧ BuiltinServes ext (id', b')
          ∧ Forall (fun e => ¬ BuiltinServes ext e) before
    | None => Forall (fun e => ¬ BuiltinServes ext e) rest
    end →
    match found with
    | Some s =>
        ∃ before id' b' after,
          (id, b) :: rest = before ++ (id', b') :: after ∧ s = resolveBuiltin id' b'
          ∧ BuiltinServes ext (id', b')
          ∧ Forall (fun e => ¬ BuiltinServes ext e) before
    | None => Forall (fun e => ¬ BuiltinServes ext e) ((id, b) :: rest)
    end) as Hskip.
  { intros [s|] Hno Hrest.
    - destruct Hrest as (before & id' & b' & after & -> & Hs & Hserves & Hbefore).
      exists ((id, b) :: before), id', b', after.
      split; [reflexivity | split; [done | split; [done | by constructor]]].
    - by constructor. }
  case_bool_decide as Hdis.
  { apply Hskip; [|exact IH]. intros (Hnd & _). apply Hnd.
    by apply disabled_elem. }
  destruct (mapHas id (getUserLspServers config)) eqn:Hshadow.
  { apply Hskip; [|exact IH]. intros (_ & Hns & _). apply Hns.
    by apply mapHas_In. }
  destruct (includes (builtin_extensions b) ext
            && isServerInstalled (builtin_command b)) eqn:Hs.
  - exists [], id, b, rest.
    split; [reflexivity | split; [reflexivity | split; [|constructor]]].
    split; [by rewrite <- disabled_elem | split].
    + unfold Shadowed. simpl. rewrite <- mapHas_In. congruence.
    + by apply serves_decide.
  - apply Hskip; [|exact IH]. intros (_ & _ & Hserves).
    apply serves_decide in Hserves. simpl in Hserves. congruence.
Qed.

End Facts.

End Registry.

(** ** The workspace resolver *)

Module Resolver.

Import Workspace.
Local Open Scope list_scope.

Section Facts.

Variable existsSync : Path -> bool.
Variable isDirectory : Path -> bool.

Local Abbreviation HasMarker := (HasMarker existsSync).
Local Abbreviation walkUp := (walkUp existsSync).
Local Abbreviation startDir := (startDir existsSync isDirectory).
Local Abbreviation findWorkspaceRoot := (findWorkspaceRoot existsSync isDirectory).

Lemma anyMarker_In (ms : list string) (dir : Path) :
  anyMarker existsSync ms dir = true
  ↔ ∃ marker, In marker ms ∧ existsSync (pathJoin dir marker) = true.
Proof.
  induction ms as [|m rest IH]; simpl.
  - split; [discriminate | intros (m & Hin & _); destruct Hin].
  - destruct (existsSync (pathJoin dir m)) eqn:Hm.
    + split; [intros _; exists m; by split; [left|] | done].
    + rewrite IH. split.
      * intros (m' & Hin & Hm'). exists m'. by split; [right|].
      * intros (m' & [Heq|Hin] & Hm'); [subst; congruence | by exists m'].
Qed.

Lemma anyMarker_HasMarker (dir : Path) :
  anyMarker existsSync markers dir = true ↔ HasMarker dir.
Proof.
  rewrite anyMarker_In. unfold Workspace.HasMarker.
  split; intros (m & Hin & Hm); exists m; (split; [|done]);
    by apply list_elem_of_In.
Qed.

(** The loop ends within one iteration per segment of the directory it
    starts from, and more fuel changes nothing: it returns the nearest
    marked directory below the root, or leaves at the root. *)
Lemma walkUp_enough (dir : Path) :
  ∀ fuel, length dir < fuel →
    (∃ d, walkUp fuel dir = Some (Some d)
          ∧ NearestMarked existsSync 0 (length dir - 1) dir d ∧ d ≠ [])
    ∨ (walkUp fuel dir = Some None
       ∧ ∀ j, j < length dir → ¬ HasMarker (drop j dir)).
Proof.
  induction dir as [|seg parent IH]; intros fuel Hfuel.
  - destruct fuel as [|fuel]; [simpl in Hfuel; lia|].
    right. split; [reflexivity | simpl; intros j Hj; lia].
  - destruct fuel as [|fuel]; [simpl in Hfuel; lia|].
    change (walkUp (S fuel) (seg :: parent))
      with (if anyMarker existsSync markers (seg :: parent)
            then Some (Some (seg :: parent)) else walkUp fuel parent).
    destruct (anyMarker existsSync markers (seg :: parent)) eqn:Hm.
    + left. exists (seg :: parent). split; [reflexivity|]. split; [|done].
      exists 0. split; [simpl; lia|]. split; [reflexivity|].
      split; [by apply anyMarker_HasMarker | intros j Hj; lia].
    + assert (¬ HasMarker (seg :: parent)) as Hno
        by (rewrite <- anyMarker_HasMarker; congruence).
      destruct (IH fuel) as [(d & Hwalk & (k & Hk & Hd & Hmark & Hnear) & Hne)
                            |(Hwalk & Hnone)];
        [simpl in Hfuel; lia | |].
      * left. exists d. split; [exact Hwalk|]. split; [|done].
        assert (parent ≠ []) as Hparent.
        { intros ->. rewrite drop_nil in Hd. congruence. }
        assert (0 < length parent) by (destruct parent; simpl; [done | lia]).
        exists (S k). split; [simpl; lia|]. split; [exact Hd|].
        split; [exact Hmark|]. intros [|j] Hj; [exact Hno|].
        simpl. apply Hnear. lia.
      * right. split; [exact Hwalk|]. intros [|j] Hj; [exact Hno|].
        simpl. apply Hnone. simpl in Hj. lia.
Qed.

(** C6, amended: the resolver always returns a directory.  The walk
    starts at the resolved path when that is an existing directory and
    at its parent otherwise; the result is the nearest directory from
    there upwards, the filesystem root excluded, that holds a project
    marker, and the parent of the resolved path when there is none. *)
Theorem find_workspace_root_spec (resolved : Path) :
  ∃ d, findWorkspaceRoot resolved = Some d
    ∧ startDir resolved
      = (if existsSync resolved && isDirectory resolved
         then resolved else dirname resolved)
    ∧ ((NearestMarked existsSync 0 (length (startDir resolved) - 1)
          (startDir resolved) d ∧ d ≠ [])
       ∨ ((∀ j, j < length (startDir resolved) →
                ¬ HasMarker (drop j (startDir resolved)))
          ∧ d = dirname resolved)).
Proof.
  unfold Workspace.findWorkspaceRoot.
  destruct (walkUp_enough (startDir resolved) (S (length (startDir resolved))))
    as [(d & Hwalk & Hnear & Hne)|(Hwalk & Hnone)]; [lia | |].
  - exists d. rewrite Hwalk. split; [reflexivity|]. split; [|by left].
    unfold Workspace.startDir.
    by destruct (existsSync resolved), (isDirectory resolved).
  - exists (dirname resolved). rewrite Hwalk. split; [reflexivity|].
    split; [|by right].
    unfold Workspace.startDir.
    by destruct (existsSync resolved), (isDirectory resolved).
Qed.

End Facts.

(** C6, as stated, on a machine whose only marker is ["/.git"]: for
    ["/a/f.txt"] the nearest ancestor that holds a marker is the root,
    and the resolver returns ["/a"]. *)
Lemma root_marker_counterexample :
  NearestMarkedAncestor rootRepoExists ["f.txt"; "a"] []
  ∧ findWorkspaceRoot rootRepoExists rootRepoIsDirectory ["f.txt"; "a"]
    = Some ["a"]
  ∧ findWorkspaceRoot rootRepoExists rootRepoIsDirectory ["f.txt"; "a"]
    ≠ Some [].
Proof.
  split; [|split; [reflexivity | discriminate]].
  exists 2. split; [simpl; lia|]. split; [reflexivity|]. split.
  - apply anyMarker_HasMarker. reflexivity.
  - intros j Hj. assert (j = 1) as -> by lia.
    rewrite <- anyMarker_HasMarker. simpl. discriminate.
Qed.

(** The resolver on the repository of the specification's scenario. *)
Example find_workspace_root_repo :
  findWorkspaceRoot repoExists repoIsDirectory ["main.py"; "src"; "repo"]
  = Some ["repo"].
Proof. reflexivity. Qed.

End Resolver.

(** ** What dispatching a message can do *)

Module Dispatch.

Import Client Session.
Local Open Scope list_scope.

Create HintDb dispatch discriminated.
#[local] Hint Constructors Dispatched : dispatch.

(** [respond] writes a frame or does nothing. *)
Lemma respond_cases id result c :
  respond id result c = c ∨ respond id result c = write (responseMessage id result) c.
Proof. unfold respond. destruct (negb (proc c)); auto. Qed.

Lemma handleServerRequest_cases id method params c :
  Dispatched c (handleServerRequest id method params c).
Proof.
  unfold handleServerRequest.
  repeat (destruct (isMethod method _); [auto with dispatch|]). auto with dispatch.
Qed.

(** Every message falls under one of the four cases. *)
Lemma dispatch_cases (msg : JSON) (c : LSPClient) : Dispatched c (dispatch msg c).
Proof.
  destruct msg as [| | | | |props]; try apply dispatched_ignored. unfold dispatch.
  destruct (hasProp "id" props && hasProp "method" props).
  { destruct (getProp "id" props), (getProp "method" props); auto with dispatch.
    apply handleServerRequest_cases. }
  destruct (hasProp "id" props); [|auto with dispatch].
  destruct (pendingKey (getProp "id" props)) as [k|]; [|auto with dispatch].
  destruct (pending c !! k) as [handler|] eqn:Hk; [|auto with dispatch].
  destruct (getProp "error" props) as [err|]; [|eauto with dispatch].
  destruct (errorMessage err); eauto with dispatch.
Qed.

(** A field that writing and settling leave alone, and that removing an
    entry leaves alone, is left alone by [dispatch]. *)
Ltac by_dispatch_cases msg c :=
  destruct (dispatch_cases msg c) as [|id result|k handler s Hk|k handler Hk];
  [| destruct (respond_cases id result c) as [-> | ->] | |].

Lemma dispatch_buffer (msg : JSON) (c : LSPClient) : buffer (dispatch msg c) = buffer c.
Proof. by_dispatch_cases msg c; reflexivity. Qed.

Lemma dispatch_requestId (msg : JSON) (c : LSPClient) :
  requestId (dispatch msg c) = requestId c.
Proof. by_dispatch_cases msg c; reflexivity. Qed.

Lemma dispatch_process (msg : JSON) (c : LSPClient) : SameProcess c (dispatch msg c).
Proof. by_dispatch_cases msg c; by split. Qed.

(** The table stays as it is or loses one entry. *)
Lemma dispatch_pending (msg : JSON) (c : LSPClient) :
  pending (dispatch msg c) = pending c
  ∨ ∃ j, pending (dispatch msg c) = delete j (pending c).
Proof. by_dispatch_cases msg c; simpl; eauto. Qed.

Lemma respond_pending id result c : pending (respond id result c) = pending c.
Proof. by destruct (respond_cases id result c) as [-> | ->]. Qed.

Lemma respond_requestId id result c : requestId (respond id result c) = requestId c.
Proof. by destruct (respond_cases id result c) as [-> | ->]. Qed.

Lemma handleServerRequest_pending id method params c :
  pending (handleServerRequest id method params c) = pending c.
Proof.
  unfold handleServerRequest.
  repeat (destruct (isMethod method _); [apply respond_pending|]). reflexivity.
Qed.

Lemma handleServerRequest_requestId id method params c :
  requestId (handleServerRequest id method params c) = requestId c.
Proof.
  unfold handleServerRequest.
  repeat (destruct (isMethod method _); [apply respond_requestId|]). reflexivity.
Qed.

End Dispatch.

(** ** The pending table *)

Module Pending.

Import Client Dispatch.
Local Open Scope list_scope.
Local Open Scope Z_scope.

(** What [dispatch] does with a response to request [k]. *)
Lemma dispatch_response (k : Z) (msg : JSON) (c : LSPClient) :
  ResponseTo k msg →
  match pending c !! k with
  | Some handler =>
      pending (dispatch msg c) = delete k (pending c)
      ∧ requestId (dispatch msg c) = requestId c
  | None => dispatch msg c = c
  end.
Proof.
  intros (props & -> & Hid & Hmethod). unfold dispatch, hasProp.
  rewrite Hid, Hmethod. simpl.
  destruct (pending c !! k) as [handler|]; [|reflexivity].
  destruct (getProp "error" props) as [err|]; [|by split].
  by destruct (errorMessage err).
Qed.

Lemma timeoutFires_spec (k : Z) (c : LSPClient) :
  match pending c !! k with
  | Some _ =>
      pending (timeoutFires k c) = delete k (pending c)
      ∧ requestId (timeoutFires k c) = requestId c
      ∧ settled (timeoutFires k c)
        = settled c ++ [(k, Rejected (LspError "LSP request timeout"))]
  | None => timeoutFires k c = c
  end.
Proof. unfold timeoutFires. by destruct (pending c !! k). Qed.

Lemma Minted_delete (j : Z) (c c' : LSPClient) :
  Minted c → requestId c' = requestId c → pending c' = delete j (pending c) →
  Minted c'.
Proof.
  intros Hm Hid Hp k h. rewrite Hp, Hid. intros Hk.
  apply lookup_delete_Some in Hk as [_ Hk]. by apply (Hm k h).
Qed.

Lemma Gone_step (k : Z) (e : Event) (c : LSPClient) : Gone k c → Gone k (step e c).
Proof.
  intros (Hm & Hk & Hnone). destruct e as [msg|j|method params]; simpl.
  - pose proof (dispatch_requestId msg c) as Hid.
    destruct (dispatch_pending msg c) as [Hp|(j & Hp)].
    + split; [|split].
      * intros i h. rewrite Hp, Hid. apply Hm.
      * by rewrite Hid.
      * by rewrite Hp.
    + split; [by apply (Minted_delete j c)|]. split; [by rewrite Hid|].
      rewrite Hp. apply lookup_delete_None. by right.
  - pose proof (timeoutFires_spec j c) as Hspec.
    destruct (pending c !! j); [|by rewrite Hspec].
    destruct Hspec as (Hp & Hid & _).
    split; [by apply (Minted_delete j c)|]. split; [by rewrite Hid|].
    rewrite Hp. apply lookup_delete_None. by right.
  - unfold send. destruct (negb (proc c)); [done|].
    unfold Gone, Minted. simpl.
    split; [|split].
    + intros i h Hi. apply lookup_insert_Some in Hi as [[<- _]|[_ Hi]]; [lia|].
      specialize (Hm i h Hi). lia.
    + lia.
    + rewrite lookup_insert_ne; [done | lia].
Qed.

(** The invariant holds of a new client and of every state it reaches. *)
Lemma Minted_step (e : Event) (c : LSPClient) : Minted c → Minted (step e c).
Proof.
  intros Hm. destruct e as [msg|j|method params]; simpl.
  - pose proof (dispatch_requestId msg c) as Hid.
    destruct (dispatch_pending msg c) as [Hp|(j & Hp)].
    + intros i h. rewrite Hp, Hid. apply Hm.
    + by apply (Minted_delete j c).
  - pose proof (timeoutFires_spec j c) as Hspec.
    destruct (pending c !! j); [|by rewrite Hspec].
    destruct Hspec as (Hp & Hid & _). by apply (Minted_delete j c).
  - unfold send. destruct (negb (proc c)); [done|].
    unfold Minted. simpl. intros i h Hi.
    apply lookup_insert_Some in Hi as [[<- _]|[_ Hi]]; [lia|].
    specialize (Hm i h Hi). lia.
Qed.

Lemma Minted_reachable (start : bool) (events : list Event) :
  Minted (run events (if start then startedClient else newClient)).
Proof.
  assert (∀ c, Minted c → Minted (run events c)) as Hrun.
  { induction events as [|e events IH]; intros c Hc; [done|].
    simpl. apply IH. by apply Minted_step. }
  apply Hrun. intros k h Hk. by destruct start.
Qed.

Lemma Gone_run (k : Z) (events : list Event) (c : LSPClient) :
  Gone k c → Gone k (run events c).
Proof.
  revert c. induction events as [|e events IH]; intros c Hgone; [done|].
  simpl. apply IH. by apply Gone_step.
Qed.

(** C3: an entry [k] of the pending table is removed by the response to
    [k] or by its timer, whichever comes first, and the other is then a
    no-op; a response to a number that is not pending changes nothing;
    once removed, the entry never comes back, whatever arrives, fires or
    is sent afterwards. *)
Theorem pending_entry_removed_once
    (c : LSPClient) (k : Z) (handler : Handler) (msg : JSON)
    (Hminted : Minted c)
    (Hpending : pending c !! k = Some handler)
    (Hmsg : ResponseTo k msg) :
  (pending (dispatch msg c) = delete k (pending c)
   ∧ timeoutFires k (dispatch msg c) = dispatch msg c)
  ∧ (pending (timeoutFires k c) = delete k (pending c)
     ∧ dispatch msg (timeoutFires k c) = timeoutFires k c)
  ∧ (∀ j other, pending c !! j = None → ResponseTo j other → dispatch other c = c)
  ∧ (∀ events,
       pending (run events (dispatch msg c)) !! k = None
       ∧ pending (run events (timeoutFires k c)) !! k = None).
Proof.
  pose proof (dispatch_response k msg c Hmsg) as Hresp.
  rewrite Hpending in Hresp. destruct Hresp as [Hresp Hid].
  pose proof (timeoutFires_spec k c) as Htime.
  rewrite Hpending in Htime. destruct Htime as (Htime & Hid' & _).
  assert (pending (dispatch msg c) !! k = None) as Hgone
    by (rewrite Hresp; apply lookup_delete_eq).
  assert (pending (timeoutFires k c) !! k = None) as Hgone'
    by (rewrite Htime; apply lookup_delete_eq).
  split; [split; [exact Hresp|]|split; [split; [exact Htime|]|split]].
  - pose proof (timeoutFires_spec k (dispatch msg c)) as H.
    by rewrite Hgone in H.
  - pose proof (dispatch_response k msg (timeoutFires k c) Hmsg) as H.
    by rewrite Hgone' in H.
  - intros j other Hnone Hother.
    pose proof (dispatch_response j other c Hother) as H.
    by rewrite Hnone in H.
  - intros events. split.
    + apply (Gone_run k events (dispatch msg c)).
      split; [by apply (Minted_delete k c)|]. split; [|exact Hgone].
      rewrite Hid. by apply (Hminted k handler).
    + apply (Gone_run k events (timeoutFires k c)).
      split; [by apply (Minted_delete k c)|]. split; [|exact Hgone'].
      rewrite Hid'. by apply (Hminted k handler).
Qed.

Lemma waitingClient_minted : Minted waitingClient.
Proof.
  intros k h Hk.
  change (pending waitingClient)
    with (<[1 := {| promise := 1 |}]> (∅ : gmap Z Handler)) in Hk.
  apply lookup_insert_Some in Hk as [[<- _]|[_ Hk]]; [done|].
  by rewrite lookup_empty in Hk.
Qed.

Lemma hoverAnswer_response : ResponseTo 1 hoverAnswer.
Proof. by eexists. Qed.

Lemma pending_entry_removed_once_witness :
  (pending (dispatch hoverAnswer waitingClient) = delete 1 (pending waitingClient)
   ∧ timeoutFires 1 (dispatch hoverAnswer waitingClient)
     = dispatch hoverAnswer waitingClient)
  ∧ (pending (timeoutFires 1 waitingClient) = delete 1 (pending waitingClient)
     ∧ dispatch hoverAnswer (timeoutFires 1 waitingClient)
       = timeoutFires 1 waitingClient)
  ∧ (∀ j other, pending waitingClient !! j = None → ResponseTo j other →
                dispatch other waitingClient = waitingClient)
  ∧ (∀ events,
       pending (run events (dispatch hoverAnswer waitingClient)) !! 1 = None
       ∧ pending (run events (timeoutFires 1 waitingClient)) !! 1 = None).
Proof.
  apply (pending_entry_removed_once waitingClient 1 {| promise := 1 |} hoverAnswer).
  - exact waitingClient_minted.
  - reflexivity.
  - exact hoverAnswer_response.
Defined.

End Pending.

(** ** Requests of the subprocess *)

Module ServerRequests.

Import Client.
Local Open Scope list_scope.

Lemma isMethod_true (method : JSON) (name : string) :
  isMethod method name = true ↔ method = JStr name.
Proof.
  destruct method as [| | |s| |]; simpl; try (split; [discriminate | congruence]).
  rewrite String.eqb_eq. split; congruence.
Qed.

Lemma isMethod_false (method : JSON) (name : string) :
  method ≠ JStr name → isMethod method name = false.
Proof.
  intros Hne. destruct (isMethod method name) eqn:H; [|done].
  by apply isMethod_true in H.
Qed.

(** C4, as stated, at a [workspace/configuration] request for two
    scopes: the client answers with one empty object, not two. *)
Lemma configuration_scopes_counterexample :
  requestedScopes twoScopes = 2
  ∧ stdin (dispatch configurationRequest startedClient)
    = [responseMessage (JNum 7) (JArr [JObj []])]
  ∧ JArr [JObj []] ≠ JArr (repeat (JObj []) (requestedScopes twoScopes)).
Proof. split; [reflexivity | split; [reflexivity | discriminate]]. Qed.

(** C4, amended: while the client holds its subprocess, a request of the
    subprocess is answered under the id it came with, and no request
    number is minted: [workspace/configuration] with an array of exactly
    one empty object, whatever it asks for; [client/registerCapability]
    and [window/workDoneProgress/create] with null; any other method
    with nothing at all. *)
Theorem server_request_replies
    (c : LSPClient) (props : list (string * JSON)) (id method : JSON)
    (Hproc : proc c = true)
    (Hid : getProp "id" props = Some id)
    (Hmethod : getProp "method" props = Some method) :
  (method = JStr "workspace/configuration" →
     dispatch (JObj props) c = write (responseMessage id (JArr [JObj []])) c)
  ∧ (method = JStr "client/registerCapability"
     ∨ method = JStr "window/workDoneProgress/create" →
     dispatch (JObj props) c = write (responseMessage id JNull) c)
  ∧ (¬ Answered method → dispatch (JObj props) c = c)
  ∧ requestId (dispatch (JObj props) c) = requestId c
  ∧ pending (dispatch (JObj props) c) = pending c.
Proof.
  assert (dispatch (JObj props) c
          = handleServerRequest id method (getProp "params" props) c) as ->.
  { unfold dispatch, hasProp. by rewrite Hid, Hmethod. }
  split; [|split; [|split; [|split]]].
  - intros ->. unfold handleServerRequest, respond. by rewrite Hproc.
  - intros [-> | ->]; unfold handleServerRequest, respond; by rewrite Hproc.
  - intros Hno. unfold handleServerRequest.
    rewrite !isMethod_false; [done | | |]; intros ->; apply Hno;
      unfold Answered; auto.
  - apply Dispatch.handleServerRequest_requestId.
  - apply Dispatch.handleServerRequest_pending.
Qed.

Lemma server_request_replies_witness :
  (JStr "workspace/configuration" = JStr "workspace/configuration" →
     dispatch configurationRequest startedClient
     = write (responseMessage (JNum 7) (JArr [JObj []])) startedClient)
  ∧ (JStr "workspace/configuration" = JStr "client/registerCapability"
     ∨ JStr "workspace/configuration" = JStr "window/workDoneProgress/create" →
     dispatch configurationRequest startedClient
     = write (responseMessage (JNum 7) JNull) startedClient)
  ∧ (¬ Answered (JStr "workspace/configuration") →
     dispatch configurationRequest startedClient = startedClient)
  ∧ requestId (dispatch configurationRequest startedClient) = requestId startedClient
  ∧ pending (dispatch configurationRequest startedClient) = pending startedClient.
Proof.
  apply (server_request_replies startedClient
           ([("jsonrpc", JStr "2.0"); ("id", JNum 7);
             ("method", JStr "workspace/configuration")]
            ++ optProp "params" twoScopes)
           (JNum 7) (JStr "workspace/configuration")); reflexivity.
Defined.

End ServerRequests.

(** ** Framing *)

Module Framing.

Import Wire.
Local Open Scope list_scope.

(** *** findSequence *)

Lemma findSequenceFrom_eq (i : nat) (rest needle : list Z) :
  findSequenceFrom i rest needle
  = if (length needle <=? length rest)%nat then
      if matchesAt rest needle then Some i
      else match rest with
           | [] => None
           | _ :: rest' => findSequenceFrom (S i) rest' needle
           end
    else None.
Proof. by destruct rest. Qed.

Lemma matchesAt_app (needle rest : list Z) : matchesAt (needle ++ rest) needle = true.
Proof.
  induction needle as [|n needle IH]; simpl; [reflexivity|].
  by rewrite Z.eqb_refl.
Qed.

Lemma matchesAt_length (rest needle : list Z) :
  matchesAt rest needle = true → length needle <= length rest.
Proof.
  revert rest. induction needle as [|n needle IH]; intros rest; simpl; [lia|].
  destruct rest as [|b rest]; [discriminate|].
  intros H. apply andb_true_iff in H as [_ H]. apply IH in H. simpl. lia.
Qed.

Lemma findSequenceFrom_here (i : nat) (rest needle : list Z) :
  matchesAt rest needle = true → findSequenceFrom i rest needle = Some i.
Proof.
  intros H. rewrite findSequenceFrom_eq, H.
  apply matchesAt_length in H. apply Nat.leb_le in H. by rewrite H.
Qed.

(** A needle does not start at a byte other than its first. *)
Lemma matchesAt_head (b n : Z) (rest needle : list Z) :
  b ≠ n → matchesAt (b :: rest) (n :: needle) = false.
Proof. intros Hne. simpl. by apply Z.eqb_neq in Hne as ->. Qed.

(** The search passes over bytes that differ from the needle's first. *)
Lemma findSequenceFrom_skip (skipped rest : list Z) (n : Z) (needle : list Z) (i : nat) :
  Forall (fun b => b ≠ n) skipped →
  length (n :: needle) <= length rest →
  findSequenceFrom i (skipped ++ rest) (n :: needle)
  = findSequenceFrom (i + length skipped) rest (n :: needle).
Proof.
  intros Hskip Hlen. revert i.
  induction Hskip as [|b skipped Hb Hskip IH]; intros i.
  - simpl. by rewrite Nat.add_0_r.
  - rewrite findSequenceFrom_eq.
    change ((b :: skipped) ++ rest) with (b :: (skipped ++ rest)).
    rewrite (matchesAt_head b n _ _ Hb).
    destruct (Nat.leb_spec (length (n :: needle)) (length (b :: skipped ++ rest)))
      as [_|Hgt].
    + rewrite IH. f_equal. simpl. lia.
    + simpl in Hgt, Hlen. rewrite length_app in Hgt. lia.
Qed.

(** Where the search finds the needle, and that it is found no earlier
    than the bytes that differ from its first byte end. *)
Lemma findSequenceFrom_bounds (rest needle : list Z) (i e : nat) :
  findSequenceFrom i rest needle = Some e →
  i <= e ∧ e + length needle <= i + length rest.
Proof.
  revert i. induction rest as [|b rest IH]; intros i; rewrite findSequenceFrom_eq.
  - destruct (length needle <=? length [])%nat eqn:Hle; [|discriminate].
    apply Nat.leb_le in Hle.
    destruct (matchesAt [] needle); [|discriminate].
    intros [= <-]. lia.
  - destruct (length needle <=? length (b :: rest))%nat eqn:Hle; [|discriminate].
    apply Nat.leb_le in Hle.
    destruct (matchesAt (b :: rest) needle).
    + intros [= <-]. lia.
    + intros H. apply IH in H. simpl. lia.
Qed.

Lemma findSequenceFrom_after (skipped rest : list Z) (n : Z) (needle : list Z) (i e : nat) :
  Forall (fun b => b ≠ n) skipped →
  findSequenceFrom i (skipped ++ rest) (n :: needle) = Some e →
  i + length skipped <= e.
Proof.
  intros Hskip. revert i.
  induction Hskip as [|b skipped Hb Hskip IH]; intros i.
  - intros H. apply findSequenceFrom_bounds in H. simpl. lia.
  - rewrite findSequenceFrom_eq.
    change ((b :: skipped) ++ rest) with (b :: (skipped ++ rest)).
    rewrite (matchesAt_head b n _ _ Hb).
    destruct (length (n :: needle) <=? length (b :: skipped ++ rest))%nat;
      [|discriminate].
    intros H. apply IH in H. simpl. lia.
Qed.

(** *** Decoding and matching the header *)

Local Open Scope Z_scope.

Lemma utf8Lead_ascii (b : Z) : 0 <= b <= 127 → utf8Lead b = ([b], None).
Proof.
  intros Hb. unfold utf8Lead.
  destruct (Z.leb_spec 0 b); [|lia]. destruct (Z.leb_spec b 127); [|lia].
  reflexivity.
Qed.

Lemma utf8Decode_ascii (a rest : list Z) :
  Ascii7 a → utf8Decode (a ++ rest) None = a ++ utf8Decode rest None.
Proof.
  induction 1 as [|b a Hb Ha IH]; [reflexivity|].
  simpl. rewrite (utf8Lead_ascii b Hb). simpl. by rewrite IH.
Qed.

Lemma utf16_ascii (a : list Z) (cps : list Z) :
  Ascii7 a → concat (List.map utf16 (a ++ cps)) = a ++ concat (List.map utf16 cps).
Proof.
  induction 1 as [|b a Hb Ha IH]; [reflexivity|].
  simpl. rewrite IH. unfold utf16.
  destruct (Z.ltb_spec b 65536); [reflexivity | lia].
Qed.

(** Text that starts with ASCII bytes decodes to those bytes, followed
    by whatever the rest decodes to. *)
Lemma decode_ascii (a rest : list Z) :
  a ≠ [] → Ascii7 a →
  decode (a ++ rest) = a ++ concat (List.map utf16 (utf8Decode rest None)).
Proof.
  intros Hne Ha. unfold decode. rewrite (utf8Decode_ascii a rest Ha).
  destruct Ha as [|b a Hb Ha]; [done|].
  change ((b :: a) ++ utf8Decode rest None) with (b :: (a ++ utf8Decode rest None)).
  unfold stripBOM. destruct (Z.eqb_spec b 65279); [lia|].
  apply (utf16_ascii (b :: a)). by constructor.
Qed.

Lemma decode_ascii_only (a : list Z) : Ascii7 a → decode a = a.
Proof.
  intros Ha. destruct a as [|b a]; [reflexivity|].
  rewrite <- (app_nil_r (b :: a)) at 1. rewrite decode_ascii; [|done|done].
  simpl. by rewrite app_nil_r.
Qed.

Lemma Digits_ascii (digits : list Z) : Digits digits → Ascii7 digits.
Proof. intros [_ H]. eapply Forall_impl; [exact H|]. simpl. intros; lia. Qed.

Lemma headerBytes_ascii (digits : list Z) : Digits digits → Ascii7 (headerBytes digits).
Proof.
  intros Hd. unfold headerBytes, Ascii7.
  repeat rewrite Forall_app. split; [|split].
  - unfold CONTENT_LENGTH. repeat constructor; lia.
  - repeat constructor; lia.
  - by apply Digits_ascii.
Qed.

Lemma isDigit_true (d : Z) : 48 <= d <= 57 → isDigit d = true.
Proof.
  intros Hd. unfold isDigit.
  destruct (Z.leb_spec 48 d); [|lia]. destruct (Z.leb_spec d 57); [|lia]. done.
Qed.

Lemma isSpace_digit (d : Z) : 48 <= d <= 57 → isSpace d = false.
Proof.
  intros Hd. unfold isSpace.
  repeat match goal with
         | |- context [?a <=? ?b] => destruct (Z.leb_spec a b); try lia
         | |- context [?a =? ?b] => destruct (Z.eqb_spec a b); try lia
         end; reflexivity.
Qed.

Lemma takeDigits_app (digits tail : list Z) :
  Forall (fun d => 48 <= d <= 57) digits → EndsDigits tail →
  takeDigits (digits ++ tail) = digits.
Proof.
  induction 1 as [|d digits Hd Hds IH]; intros Htail.
  - destruct tail as [|c tail]; [reflexivity|]. simpl in *. by rewrite Htail.
  - simpl. rewrite (isDigit_true d Hd). by rewrite IH.
Qed.

Lemma matchesLiteral_header (rest : list Z) :
  matchesLiteral (CONTENT_LENGTH ++ rest) CONTENT_LENGTH_UPPER = Some rest.
Proof. reflexivity. Qed.

Lemma matchContentLength_eq (s : list Z) :
  matchContentLength s
  = match matchHere s with
    | Some digits => Some digits
    | None => match s with [] => None | _ :: s' => matchContentLength s' end
    end.
Proof. by destruct s. Qed.

(** The pattern matches a header at its front and captures its digits. *)
Lemma matchContentLength_header (digits tail : list Z) :
  Digits digits → EndsDigits tail →
  matchContentLength (headerBytes digits ++ tail) = Some digits.
Proof.
  intros [Hne Hds] Htail.
  assert (matchHere (headerBytes digits ++ tail) = Some digits) as Hhere.
  { unfold matchHere, headerBytes. rewrite <- !app_assoc.
    rewrite matchesLiteral_header.
    destruct digits as [|d digits]; [done|].
    change ([32] ++ (d :: digits) ++ tail) with (32 :: d :: (digits ++ tail)).
    assert (48 <= d <= 57) as Hd by (by inversion Hds).
    change (skipSpaces (32 :: d :: (digits ++ tail)))
      with (skipSpaces (d :: (digits ++ tail))).
    simpl skipSpaces. rewrite (isSpace_digit d Hd).
    change (d :: digits ++ tail) with ((d :: digits) ++ tail).
    by rewrite takeDigits_app. }
  rewrite matchContentLength_eq. by rewrite Hhere.
Qed.

(** *** One frame at the front of the buffer *)

Local Open Scope nat_scope.

Lemma headerBytes_no (n : Z) (digits : list Z) :
  Digits digits → (n = 13 ∨ n = 10)%Z → Forall (fun b => b ≠ n) (headerBytes digits).
Proof.
  intros [_ Hd] Hn. unfold headerBytes. repeat rewrite Forall_app. split; [|split].
  - unfold CONTENT_LENGTH. repeat constructor; lia.
  - repeat constructor; lia.
  - eapply Forall_impl; [exact Hd|]. simpl. intros; lia.
Qed.

Lemma findSequence_header (digits rest : list Z) :
  findSequence (headerBytes digits ++ rest) CONTENT_LENGTH = Some 0.
Proof.
  unfold findSequence, headerBytes. rewrite <- app_assoc.
  apply findSequenceFrom_here, matchesAt_app.
Qed.

(** The terminator is found right after the header. *)
Lemma findSequence_terminator (digits rest : list Z) (n : Z) (needle : list Z) :
  Digits digits → (n = 13 ∨ n = 10)%Z →
  findSequence (headerBytes digits ++ (n :: needle) ++ rest) (n :: needle)
  = Some (length (headerBytes digits)).
Proof.
  intros Hd Hn. unfold findSequence.
  rewrite findSequenceFrom_skip; [|by apply headerBytes_no|].
  - apply findSequenceFrom_here, matchesAt_app.
  - rewrite length_app. lia.
Qed.

(** What the length check sees once the header has been read. *)
Lemma scanFrame_at (buffer digits : list Z) (headerEnd sepLen : nat) :
  findSequence buffer CONTENT_LENGTH = Some 0 →
  match findSequence buffer CRLF_CRLF with
  | Some e => (Some e, 4)
  | None => (findSequence buffer LF_LF, 2)
  end = (Some headerEnd, sepLen) →
  matchContentLength (decode (slice 0 headerEnd buffer)) = Some digits →
  scanFrame buffer
  = let start := Z.of_nat (headerEnd + sepLen) in
    let end_ := (start + parseInt digits)%Z in
    if (Z.of_nat (length buffer) <? end_)%Z then Break buffer
    else Payload (slice (Z.to_nat start) (Z.to_nat end_) buffer)
                 (drop (Z.to_nat end_) buffer).
Proof.
  intros Hstart Hend Hmatch. unfold scanFrame. rewrite Hstart. simpl.
  rewrite Hend. by rewrite Hmatch.
Qed.

Lemma slice_0 (n : nat) (bytes : list Z) : slice 0 n bytes = take n bytes.
Proof. unfold slice. by rewrite Nat.sub_0_r. Qed.

(** A complete frame is cut off the front of the buffer once its own
    terminator is the one chosen. *)
Lemma scanFrame_complete (digits : list Z) (t : Terminator) (payload rest : list Z) :
  Digits digits → parseInt digits = Z.of_nat (length payload) →
  headerEndOf (frameBytes digits t payload ++ rest)
  = (Some (length (headerBytes digits)), length (terminatorBytes t)) →
  scanFrame (frameBytes digits t payload ++ rest) = Payload payload rest.
Proof.
  intros Hd Hlen Hend. unfold frameBytes in *.
  set (hdr := headerBytes digits) in *. set (term := terminatorBytes t) in *.
  rewrite <- !app_assoc in *.
  rewrite (scanFrame_at _ digits (length hdr) (length term)).
  - cbv zeta. rewrite Hlen.
    replace (Z.of_nat (length (hdr ++ term ++ payload ++ rest)))
      with (Z.of_nat (length hdr + length term) + Z.of_nat (length payload)
            + Z.of_nat (length rest))%Z
      by (rewrite !length_app; lia).
    destruct (Z.ltb_spec
                (Z.of_nat (length hdr + length term)
                 + Z.of_nat (length payload) + Z.of_nat (length rest))
                (Z.of_nat (length hdr + length term)
                 + Z.of_nat (length payload))) as [Hlt|_]; [lia|].
    unfold slice. rewrite Nat2Z.id.
    replace (Z.to_nat (Z.of_nat (length hdr + length term)
                       + Z.of_nat (length payload)))
      with (length (hdr ++ term ++ payload))
      by (rewrite !length_app; lia).
    replace (length (hdr ++ term ++ payload) - (length hdr + length term))
      with (length payload) by (rewrite !length_app; lia).
    f_equal.
    + replace (length hdr + length term) with (length (hdr ++ term))
        by (rewrite length_app; lia).
      replace (hdr ++ term ++ payload ++ rest)
        with ((hdr ++ term) ++ payload ++ rest) by (by rewrite <- app_assoc).
      rewrite drop_app_length. by rewrite take_app_length.
    + replace (hdr ++ term ++ payload ++ rest)
        with ((hdr ++ term ++ payload) ++ rest) by (by rewrite <- !app_assoc).
      by rewrite drop_app_length.
  - apply findSequence_header.
  - exact Hend.
  - rewrite slice_0, take_app_length. subst hdr.
    rewrite (decode_ascii_only _ (headerBytes_ascii _ Hd)).
    rewrite <- (app_nil_r (headerBytes digits)).
    by apply matchContentLength_header.
Qed.

(** With the CRLFCRLF terminator that is always so. *)
Lemma scanFrame_crlf (digits payload rest : list Z) :
  Digits digits → parseInt digits = Z.of_nat (length payload) →
  scanFrame (frameBytes digits CRLFCRLF payload ++ rest) = Payload payload rest.
Proof.
  intros Hd Hlen. apply scanFrame_complete; [done | done |].
  unfold headerEndOf, frameBytes. rewrite <- !app_assoc.
  pose proof (findSequence_terminator digits (payload ++ rest) 13
                [10; 13; 10]%Z Hd (or_introl eq_refl)) as Hfound.
  change ([13; 10; 13; 10]%Z) with CRLF_CRLF in Hfound.
  simpl terminatorBytes. by rewrite Hfound.
Qed.

(** With the LFLF terminator it is so when CRLFCRLF occurs nowhere in
    the buffer. *)
Lemma scanFrame_lf (digits payload rest : list Z) :
  Digits digits → parseInt digits = Z.of_nat (length payload) →
  findSequence (frameBytes digits LFLF payload ++ rest) CRLF_CRLF = None →
  scanFrame (frameBytes digits LFLF payload ++ rest) = Payload payload rest.
Proof.
  intros Hd Hlen Hnone. apply scanFrame_complete; [done | done |].
  unfold headerEndOf. rewrite Hnone.
  unfold frameBytes. rewrite <- !app_assoc.
  pose proof (findSequence_terminator digits (payload ++ rest) 10
                [10]%Z Hd (or_intror eq_refl)) as Hfound.
  change ([10; 10]%Z) with LF_LF in Hfound.
  simpl terminatorBytes. by rewrite Hfound.
Qed.

(** A frame whose payload is not all there stays where it is. *)
Lemma scanFrame_incomplete (digits : list Z) (t : Terminator) (partial : list Z) :
  Digits digits → (Z.of_nat (length partial) < parseInt digits)%Z →
  scanFrame (frameBytes digits t partial) = Break (frameBytes digits t partial).
Proof.
  intros Hd Hshort.
  assert (∀ headerEnd sepLen,
    headerEndOf (frameBytes digits t partial) = (Some headerEnd, sepLen) →
    matchContentLength (decode (slice 0 headerEnd (frameBytes digits t partial)))
    = Some digits →
    length (headerBytes digits) + length (terminatorBytes t) <= headerEnd + sepLen →
    scanFrame (frameBytes digits t partial) = Break (frameBytes digits t partial))
    as Hbreak.
  { intros headerEnd sepLen Hend Hmatch Hle.
    rewrite (scanFrame_at _ digits headerEnd sepLen);
      [|unfold frameBytes; apply findSequence_header | exact Hend | exact Hmatch].
    cbv zeta.
    destruct (Z.ltb_spec (Z.of_nat (length (frameBytes digits t partial)))
                (Z.of_nat (headerEnd + sepLen) + parseInt digits)) as [_|Hge];
      [reflexivity|].
    unfold frameBytes in Hge. rewrite !length_app in Hge. lia. }
  assert (matchContentLength
            (decode (slice 0 (length (headerBytes digits))
                       (frameBytes digits t partial))) = Some digits) as Hexact.
  { unfold frameBytes. rewrite slice_0, take_app_length.
    rewrite (decode_ascii_only _ (headerBytes_ascii _ Hd)).
    rewrite <- (app_nil_r (headerBytes digits)).
    by apply matchContentLength_header. }
  destruct t.
  - apply (Hbreak (length (headerBytes digits)) 4); [|exact Hexact|simpl; lia].
    unfold headerEndOf, frameBytes.
    pose proof (findSequence_terminator digits partial 13
                  [10; 13; 10]%Z Hd (or_introl eq_refl)) as Hfound.
    change ([13; 10; 13; 10]%Z) with CRLF_CRLF in Hfound.
    simpl terminatorBytes. by rewrite Hfound.
  - destruct (findSequence (frameBytes digits LFLF partial) CRLF_CRLF) as [e|] eqn:Hcr.
    + assert (length (headerBytes digits) + 2 <= e) as He.
      { unfold findSequence, frameBytes in Hcr. simpl terminatorBytes in Hcr.
        rewrite app_assoc in Hcr.
        apply findSequenceFrom_after in Hcr.
        - rewrite length_app in Hcr. change (length LF_LF) with 2 in Hcr. lia.
        - apply Forall_app. split; [by apply headerBytes_no; [|left]|].
          unfold LF_LF. repeat constructor; lia. }
      apply (Hbreak e 4); [by unfold headerEndOf; rewrite Hcr | |
                           change (length (terminatorBytes LFLF)) with 2; lia].
      unfold frameBytes. simpl terminatorBytes. rewrite slice_0.
      replace (headerBytes digits ++ LF_LF ++ partial)
        with ((headerBytes digits ++ [10%Z]) ++ (10%Z :: partial))
        by (by rewrite <- app_assoc).
      rewrite take_app_ge
        by (rewrite length_app; change (length [10%Z]) with 1; lia).
      rewrite decode_ascii.
      * rewrite <- app_assoc. by apply matchContentLength_header.
      * by destruct (headerBytes digits).
      * apply Forall_app. split; [by apply headerBytes_ascii|].
        repeat constructor; lia.
    + apply (Hbreak (length (headerBytes digits)) 2); [|exact Hexact|simpl; lia].
      unfold headerEndOf. rewrite Hcr. unfold frameBytes.
      pose proof (findSequence_terminator digits partial 10
                    [10]%Z Hd (or_intror eq_refl)) as Hfound.
      change ([10; 10]%Z) with LF_LF in Hfound.
      simpl terminatorBytes. by rewrite Hfound.
Qed.

(** *** The loop *)

Lemma takeDigits_digits (s : list Z) : Forall (fun d => (48 <= d <= 57)%Z) (takeDigits s).
Proof.
  induction s as [|c s IH]; simpl; [constructor|].
  unfold isDigit. destruct (Z.leb_spec 48 c); simpl; [|constructor].
  destruct (Z.leb_spec c 57); constructor; [lia | exact IH].
Qed.

Lemma matchContentLength_digits (s digits : list Z) :
  matchContentLength s = Some digits → Forall (fun d => (48 <= d <= 57)%Z) digits.
Proof.
  induction s as [|c s IH]; rewrite matchContentLength_eq; unfold matchHere.
  - destruct (matchesLiteral [] CONTENT_LENGTH_UPPER) as [rest|]; [|discriminate].
    pose proof (takeDigits_digits (skipSpaces rest)) as Hd.
    destruct (takeDigits (skipSpaces rest)); [discriminate|]. by intros [= <-].
  - destruct (matchesLiteral (c :: s) CONTENT_LENGTH_UPPER) as [rest|]; [|exact IH].
    pose proof (takeDigits_digits (skipSpaces rest)) as Hd.
    destruct (takeDigits (skipSpaces rest)); [exact IH|]. by intros [= <-].
Qed.

Lemma parseInt_nonneg (digits : list Z) :
  Forall (fun d => (48 <= d <= 57)%Z) digits → (0 <= parseInt digits)%Z.
Proof.
  intros Hd. unfold parseInt.
  assert (∀ n, (0 <= n)%Z →
               (0 <= fold_left (fun n d => 10 * n + (d - 48)) digits n)%Z) as Hfold.
  { induction Hd as [|d digits Hd _ IH]; intros n Hn; simpl; [done|].
    apply IH. lia. }
  by apply Hfold.
Qed.

(** An iteration that cuts a payload off leaves a shorter buffer. *)
Lemma scanFrame_shrinks (buffer content buffer' : list Z) :
  scanFrame buffer = Payload content buffer' → length buffer' < length buffer.
Proof.
  unfold scanFrame.
  destruct (findSequence buffer CONTENT_LENGTH) as [headerStart|]; [|discriminate].
  set (sliced := if 0 <? headerStart then drop headerStart buffer else buffer).
  assert (length sliced <= length buffer) as Hsliced.
  { subst sliced. destruct (0 <? headerStart); [rewrite length_drop|]; lia. }
  assert (∀ headerEnd sepLen, 2 <= sepLen →
    match headerEnd with
    | Some headerEnd =>
        match matchContentLength (decode (slice 0 headerEnd sliced)) with
        | Some digits =>
            if (Z.of_nat (length sliced)
                <? Z.of_nat (headerEnd + sepLen) + parseInt digits)%Z
            then Break sliced
            else Payload
                   (slice (Z.to_nat (Z.of_nat (headerEnd + sepLen)))
                      (Z.to_nat (Z.of_nat (headerEnd + sepLen) + parseInt digits))
                      sliced)
                   (drop (Z.to_nat (Z.of_nat (headerEnd + sepLen) + parseInt digits))
                      sliced)
        | None => Break sliced
        end
    | None => Break sliced
    end = Payload content buffer' → length buffer' < length buffer) as Hcase.
  { intros [headerEnd|] sepLen Hsep; [|discriminate].
    destruct (matchContentLength _) as [digits|] eqn:Hmatch; [|discriminate].
    pose proof (parseInt_nonneg _ (matchContentLength_digits _ _ Hmatch)) as Hlen.
    destruct (Z.ltb_spec (Z.of_nat (length sliced))
                (Z.of_nat (headerEnd + sepLen) + parseInt digits)) as [|Hfits];
      [discriminate|].
    intros [= _ <-]. rewrite length_drop. lia. }
  destruct (findSequence sliced CRLF_CRLF) as [e|].
  - apply (Hcase (Some e) 4). lia.
  - apply (Hcase (findSequence sliced LF_LF) 2). lia.
Qed.

Lemma drain_S (fuel : nat) (extracted : list (list Z)) (buffer : list Z) :
  drain (S fuel) extracted buffer
  = match scanFrame buffer with
    | Break buffer' => Some (extracted, buffer')
    | Payload content buffer' => drain fuel (extracted ++ [content]) buffer'
    end.
Proof. reflexivity. Qed.

(** The loop ends within one iteration per byte of the buffer. *)
Lemma drain_enough (fuel : nat) :
  ∀ extracted buffer, length buffer < fuel → is_Some (drain fuel extracted buffer).
Proof.
  induction fuel as [|fuel IH]; intros extracted buffer Hfuel; [lia|].
  rewrite drain_S.
  destruct (scanFrame buffer) as [left|content left] eqn:Hscan; [done|].
  apply IH. apply scanFrame_shrinks in Hscan. lia.
Qed.

Lemma encodeFrame_length (f : Frame) : 0 < length (encodeFrame f).
Proof.
  unfold encodeFrame, frameBytes, headerBytes. rewrite !length_app.
  change (length CONTENT_LENGTH) with 15. lia.
Qed.

(** Frames of one convention at the front of the buffer are cut off
    one after the other, provided each is recognised where it stands. *)
Lemma drain_frames (fs : list Frame) (tail left : list Z) :
  (∀ before f after, fs = before ++ f :: after →
     scanFrame (encodeFrame f ++ encodeFrames after ++ tail)
     = Payload (frame_payload f) (encodeFrames after ++ tail)) →
  scanFrame tail = Break left →
  ∀ fuel extracted, length (encodeFrames fs ++ tail) < fuel →
    drain fuel extracted (encodeFrames fs ++ tail)
    = Some (extracted ++ List.map frame_payload fs, left).
Proof.
  intros Hfs Htail. induction fs as [|f fs IH]; intros fuel extracted Hfuel.
  - destruct fuel as [|fuel]; [lia|]. rewrite drain_S. simpl app.
    rewrite Htail. by rewrite app_nil_r.
  - destruct fuel as [|fuel]; [lia|].
    change (encodeFrames (f :: fs)) with (encodeFrame f ++ encodeFrames fs) in *.
    rewrite <- app_assoc in *. rewrite drain_S.
    rewrite (Hfs [] f fs eq_refl).
    rewrite IH.
    + simpl. by rewrite <- app_assoc.
    + intros before g after ->. by apply (Hfs (f :: before) g after).
    + rewrite length_app in Hfuel. pose proof (encodeFrame_length f). lia.
Qed.

(** A needle that occurs nowhere in a buffer occurs nowhere in its tail. *)
Lemma findSequenceFrom_none_index (rest needle : list Z) (i j : nat) :
  findSequenceFrom i rest needle = None → findSequenceFrom j rest needle = None.
Proof.
  revert i j. induction rest as [|b rest IH]; intros i j;
    rewrite (findSequenceFrom_eq i), (findSequenceFrom_eq j).
  - destruct (length needle <=? length []); [|done].
    by destruct (matchesAt [] needle).
  - destruct (length needle <=? length (b :: rest)); [|done].
    destruct (matchesAt (b :: rest) needle); [done|]. apply IH.
Qed.

Lemma findSequenceFrom_short (rest needle : list Z) (i : nat) :
  length rest < length needle → findSequenceFrom i rest needle = None.
Proof.
  intros Hshort. rewrite findSequenceFrom_eq.
  destruct (Nat.leb_spec (length needle) (length rest)); [lia | done].
Qed.

Lemma findSequence_none_tail (skipped rest needle : list Z) :
  findSequence (skipped ++ rest) needle = None → findSequence rest needle = None.
Proof.
  unfold findSequence. generalize 0 at 1. induction skipped as [|b skipped IH]; intros i.
  - apply findSequenceFrom_none_index.
  - simpl app. rewrite findSequenceFrom_eq.
    destruct (Nat.leb_spec (length needle) (length (b :: skipped ++ rest))) as [_|Hgt].
    + destruct (matchesAt (b :: skipped ++ rest) needle); [done|]. apply IH.
    + intros _. apply findSequenceFrom_short. simpl in Hgt.
      rewrite length_app in Hgt. lia.
Qed.

(** Frames that all end their header with CRLFCRLF are cut off one after
    the other, whatever their payloads hold. *)
Lemma drain_crlf_frames (fs : list Frame) (tail left : list Z) :
  Forall (CompleteWith CRLFCRLF) fs → scanFrame tail = Break left →
  ∀ fuel extracted, length (encodeFrames fs ++ tail) < fuel →
    drain fuel extracted (encodeFrames fs ++ tail)
    = Some (extracted ++ List.map frame_payload fs, left).
Proof.
  intros Hfs Htail. apply drain_frames; [|exact Htail].
  intros before f after ->.
  apply Forall_app in Hfs as [_ Hfs]. inversion Hfs as [|? ? [[Hd Hlen] Ht] _]; subst.
  unfold encodeFrame. rewrite Ht. by apply scanFrame_crlf.
Qed.

(** Frames that all end their header with LFLF are cut off one after the
    other when CRLFCRLF occurs nowhere in the buffer. *)
Lemma drain_lf_frames (fs : list Frame) (tail left : list Z) :
  Forall (CompleteWith LFLF) fs → scanFrame tail = Break left →
  findSequence (encodeFrames fs ++ tail) CRLF_CRLF = None →
  ∀ fuel extracted, length (encodeFrames fs ++ tail) < fuel →
    drain fuel extracted (encodeFrames fs ++ tail)
    = Some (extracted ++ List.map frame_payload fs, left).
Proof.
  intros Hfs Htail Hnone. apply drain_frames; [|exact Htail].
  intros before f after ->.
  apply Forall_app in Hfs as [_ Hfs]. inversion Hfs as [|? ? [[Hd Hlen] Ht] _]; subst.
  unfold encodeFrame. rewrite Ht. apply scanFrame_lf; [done | done |].
  unfold encodeFrames in Hnone. rewrite map_app, concat_app in Hnone.
  rewrite <- app_assoc in Hnone. apply findSequence_none_tail in Hnone.
  simpl in Hnone. unfold encodeFrame in Hnone at 1. rewrite Ht in Hnone.
  by rewrite <- app_assoc in Hnone.
Qed.

(** *** processBuffer *)

Import Client.

Section ReadLoop.

Variable JSON_parse : list Z -> option JSON.

Lemma handleContent_buffer (content : list Z) (c : LSPClient) :
  buffer (handleContent JSON_parse content c) = buffer c.
Proof.
  unfold handleContent.
  destruct (JSON_parse _); [apply Dispatch.dispatch_buffer | done].
Qed.

(** The loop of [processBuffer] treats the buffer as [drain] does. *)
Lemma processLoop_drain (fuel : nat) :
  ∀ extracted c,
    match processLoop JSON_parse fuel extracted c with
    | Some (payloads, c') =>
        drain fuel extracted (buffer c) = Some (payloads, buffer c')
    | None => drain fuel extracted (buffer c) = None
    end.
Proof.
  induction fuel as [|fuel IH]; intros extracted c; [reflexivity|].
  simpl. destruct (scanFrame (buffer c)) as [left|content left]; [reflexivity|].
  specialize (IH (extracted ++ [content])
                (handleContent JSON_parse content (setBuffer left c))).
  by rewrite handleContent_buffer in IH.
Qed.

(** [processBuffer] always returns. *)
Lemma processBuffer_returns (c : LSPClient) :
  is_Some (processBuffer JSON_parse c).
Proof.
  unfold processBuffer.
  pose proof (processLoop_drain (S (length (buffer c))) [] c) as Hloop.
  destruct (processLoop _ _ _ _) as [[payloads c']|]; [done|].
  destruct (drain_enough (S (length (buffer c))) [] (buffer c)) as [r Hr]; [lia|].
  congruence.
Qed.

Lemma processBuffer_drain (c : LSPClient) (payloads : list (list Z)) (left : list Z) :
  drain (S (length (buffer c))) [] (buffer c) = Some (payloads, left) →
  ∃ c', processBuffer JSON_parse c = Some (payloads, c') ∧ buffer c' = left.
Proof.
  intros Hdrain. unfold processBuffer.
  pose proof (processLoop_drain (S (length (buffer c))) [] c) as Hloop.
  destruct (processLoop _ _ _ _) as [[payloads' c']|]; [|congruence].
  rewrite Hdrain in Hloop. injection Hloop as -> ->. by exists c'.
Qed.

(** Behind complete frames of one convention, a frame whose declared
    length exceeds the payload bytes that have arrived is left in the
    buffer, byte for byte, and nothing of it is extracted, whichever
    terminator ends its header and whatever those bytes are; the
    payloads of the frames before it are extracted and nothing else. *)
Theorem incomplete_frame_waits
    (c : LSPClient) (fs : list Frame) (digits : list Z) (t : Terminator)
    (partial : list Z)
    (Hbefore : OneConvention fs (buffer c))
    (Hdigits : Digits digits)
    (Hshort : (Z.of_nat (length partial) < parseInt digits)%Z)
    (Hbuffer : buffer c = encodeFrames fs ++ frameBytes digits t partial) :
  ∃ c', processBuffer JSON_parse c = Some (List.map frame_payload fs, c')
        ∧ buffer c' = frameBytes digits t partial.
Proof.
  apply processBuffer_drain. rewrite Hbuffer in *.
  pose proof (scanFrame_incomplete digits t partial Hdigits Hshort) as Hwaits.
  destruct Hbefore as [Hcrlf | [Hlf Hnone]].
  - by rewrite (drain_crlf_frames fs _ (frameBytes digits t partial)); [| | |lia].
  - by rewrite (drain_lf_frames fs _ (frameBytes digits t partial)); [| | | |lia].
Qed.

(** Complete frames of one convention are all extracted, in order, and
    the buffer is left empty. *)
Lemma frames_of_one_convention_extracted (c : LSPClient) (fs : list Frame) :
  OneConvention fs (buffer c) → buffer c = encodeFrames fs →
  ∃ c', processBuffer JSON_parse c = Some (List.map frame_payload fs, c')
        ∧ buffer c' = [].
Proof.
  intros Hone Hbuffer. apply processBuffer_drain. rewrite Hbuffer in *.
  rewrite <- (app_nil_r (encodeFrames fs)) in *.
  destruct Hone as [Hcrlf | [Hlf Hnone]].
  - by rewrite (drain_crlf_frames fs [] []); [| | |lia].
  - by rewrite (drain_lf_frames fs [] []); [| | | |lia].
Qed.

(** C1 at two complete frames, the first ended by LFLF and the second
    by CRLFCRLF: one call extracts the payload of the second frame
    alone and empties the buffer; the first frame is lost. *)
Theorem mixed_terminators_lose_a_frame :
  let c := setBuffer (encodeFrames [lfFrame; crlfFrame]) startedClient in
  Complete lfFrame ∧ Complete crlfFrame
  ∧ (∃ c', processBuffer JSON_parse c = Some ([frame_payload crlfFrame], c')
           ∧ buffer c' = [])
  ∧ [frame_payload crlfFrame] ≠ List.map frame_payload [lfFrame; crlfFrame].
Proof.
  split; [|split; [|split]].
  - split; [split; [done | repeat constructor; lia] | reflexivity].
  - split; [split; [done | repeat constructor; lia] | reflexivity].
  - apply processBuffer_drain. vm_compute. reflexivity.
  - discriminate.
Qed.

End ReadLoop.

(** The theorem at one complete frame followed by the first three bytes
    of a payload of fifty. *)
Lemma incomplete_frame_waits_witness :
  ∃ c', processBuffer (fun _ => None)
          (setBuffer (encodeFrames [crlfFrame] ++ partialFrame) startedClient)
        = Some ([frame_payload crlfFrame], c')
        ∧ buffer c' = partialFrame.
Proof.
  apply (incomplete_frame_waits (fun _ => None)
           (setBuffer (encodeFrames [crlfFrame] ++ partialFrame) startedClient)
           [crlfFrame] [53; 48]%Z LFLF [97; 98; 99]%Z).
  - left. apply Forall_cons_2; [|apply Forall_nil_2].
    split; [|reflexivity]. split; [|reflexivity]. split; [discriminate|].
    apply Forall_cons_2; [simpl; lia | apply Forall_nil_2].
  - split; [discriminate|].
    apply Forall_cons_2; [lia|]. apply Forall_cons_2; [lia | apply Forall_nil_2].
  - vm_compute. reflexivity.
  - reflexivity.
Defined.

End Framing.

(** ** The session orchestrator *)

Module Orchestration.

Import Client Session.
Local Open Scope list_scope.

Lemma SameProcess_refl c : SameProcess c c.
Proof. by split. Qed.

Lemma SameProcess_trans c1 c2 c3 :
  SameProcess c1 c2 → SameProcess c2 c3 → SameProcess c1 c3.
Proof. intros [? ?] [? ?]. split; congruence. Qed.

Lemma notify_process method params c : SameProcess c (notify method params c).
Proof. unfold notify. by destruct (negb (proc c)). Qed.

Lemma timeoutFires_process id c : SameProcess c (timeoutFires id c).
Proof. unfold timeoutFires. by destruct (pending c !! id). Qed.

Section Facts.

Variable root : string.
Variable server : Config.ResolvedServer.
Variable pid : Z.
Variable spawns : bool.
Variable subprocess : string -> Z -> Reaction.

Local Abbreviation awaitSend := (awaitSend subprocess).
Local Abbreviation initialize := (initialize root server pid subprocess).
Local Abbreviation stop := (stop subprocess).
Local Abbreviation start := (start spawns).

Lemma awaitSend_process method params c :
  SameProcess c (awaitSend method params c).2.
Proof.
  unfold Session.awaitSend, send.
  destruct (negb (proc c)); [apply SameProcess_refl|].
  match goal with
  | |- context [timeoutFires ?i ?x] =>
      assert (SameProcess c (timeoutFires i x)) as Hsame
  end.
  { eapply SameProcess_trans; [|apply timeoutFires_process].
    destruct (subprocess method (requestId c + 1));
      [eapply SameProcess_trans; [|apply Dispatch.dispatch_process]|]; by split. }
  by destruct (settlementOf _ _) as [[v|e]|].
Qed.

Lemma initialize_process c : SameProcess c (initialize c).2.
Proof.
  unfold Session.initialize, andThen, bind, perform.
  pose proof (awaitSend_process "initialize"
                (Some (initializeParams root server pid)) c) as Hsend.
  destruct (awaitSend _ _ c) as [[v|e|] c1]; simpl in *; try exact Hsend.
  eapply SameProcess_trans; [exact Hsend|].
  eapply SameProcess_trans; apply notify_process.
Qed.

(** [stop] never throws, and when it returns the subprocess has been
    killed and the handle dropped. *)
Lemma stop_kills c :
  HoldsHandle c →
  match stop c with
  | (Returns _, c') => running c' = false ∧ proc c' = false
  | (Throws _, _) => False
  | (Hangs, _) => True
  end.
Proof.
  intros Hholds. unfold Session.stop, andThen, bind, tryCatch, perform.
  pose proof (awaitSend_process "shutdown" (Some (JObj [])) c) as [Hp Hr].
  assert (∀ c1, proc c1 = proc c → running c1 = running c →
                running (kill c1) = false ∧ proc (kill c1) = false) as Hkill.
  { intros c1 Hp1 Hr1. unfold kill. split; [|reflexivity].
    destruct (proc c1) eqn:Hproc; simpl; [reflexivity|].
    destruct (running c1) eqn:Hrun; [|reflexivity].
    assert (proc c = true) by (apply Hholds; congruence). congruence. }
  destruct (awaitSend _ _ c) as [[v|e|] c1]; simpl in *; try done.
  - destruct (notify_process "exit" None c1) as [Hp' Hr'].
    apply Hkill; congruence.
  - by apply Hkill.
Qed.

(** Once [initialize] has returned, the call does not end, by return
    or by throw, without the subprocess having been killed. *)
Lemma stopped_after_operation {T} (ext : string) (fn : Action T) c1 :
  (start ;;; initialize) newClient = (Returns tt, c1) →
  (∀ c, HoldsHandle c → HoldsHandle (fn c).2) →
  match withLspClient root server pid spawns subprocess ext true fn with
  | (Hangs, _) => True
  | (_, c') => running c' = false ∧ proc c' = false
  end.
Proof.
  intros Hinit Hfn. unfold withLspClient. simpl negb. cbv iota.
  unfold andThen, bind in *.
  destruct (start newClient) as [[[]|e|] c0] eqn:Hstart; try discriminate.
  destruct (initialize c0) as [[[]|e|] c1'] eqn:Hinit'; try discriminate.
  injection Hinit as ->.
  assert (HoldsHandle c1) as Hholds.
  { pose proof (initialize_process c0) as [Hp Hr]. rewrite Hinit' in Hp, Hr.
    simpl in Hp, Hr. unfold Session.start in Hstart.
    destruct spawns; [|discriminate]. injection Hstart as <-.
    intros _. by rewrite Hp. }
  unfold tryFinally. specialize (Hfn c1 Hholds).
  destruct (fn c1) as [[t|e|] c2]; simpl in Hfn; [| |done];
    pose proof (stop_kills c2 Hfn) as Hstop;
    by destruct (stop c2) as [[[]|e'|] c3].
Qed.

(** When [initialize] throws, the call throws the same error and
    leaves the subprocess running, with the handle still in place. *)
Lemma not_stopped_after_initialize {T} (ext : string) (fn : Action T) e c1 :
  spawns = true →
  initialize startedClient = (Throws e, c1) →
  withLspClient root server pid spawns subprocess ext true fn = (Throws e, c1)
  ∧ running c1 = true ∧ proc c1 = true.
Proof.
  intros -> Hinit. unfold withLspClient. simpl negb. cbv iota.
  unfold andThen, bind, Session.start.
  change (setRunning true (setProc true newClient)) with startedClient.
  rewrite Hinit. split; [reflexivity|].
  pose proof (initialize_process startedClient) as [Hp Hr].
  rewrite Hinit in Hp, Hr. by split.
Qed.

End Facts.

(** C2 where the subprocess never answers [initialize]: the request
    times out, [withLspClient] throws the timeout, and it leaves the
    subprocess running with the handle in place; nothing but the
    [initialize] request was written, so [stop] was never invoked. *)
Theorem initialize_timeout_leaves_subprocess_running (T : Type) (fn : Action T) :
  let result :=
    withLspClient "/repo" pyright 4242 true silentSubprocess ".py" true fn in
  result.1 = Throws (LspError "LSP request timeout")
  ∧ running result.2 = true
  ∧ proc result.2 = true
  ∧ stdin result.2
    = [requestMessage 1 "initialize" (Some (initializeParams "/repo" pyright 4242))].
Proof. repeat split; vm_compute; reflexivity. Qed.

(** The same call against a subprocess that answers: the operation runs
    and the subprocess is killed before the call returns. *)
Example obliging_subprocess_is_stopped :
  let result :=
    withLspClient "/repo" pyright 4242 true obligingSubprocess ".py" true (ret tt) in
  result.1 = Returns tt ∧ running result.2 = false ∧ proc result.2 = false.
Proof. repeat split; vm_compute; reflexivity. Qed.

End Orchestration.

(** ** Server resolution *)

Module Resolving.

Import Config Resolution Registry.
Local Open Scope list_scope.

Lemma append_cons (c : ascii) (a b : string) :
  (String c a ++ b)%string = String c (a ++ b)%string.
Proof. reflexivity. Qed.

Lemma splitColon_cons (c : ascii) (rest : string) :
  splitColon (String c rest)
  = if Ascii.eqb c ":"%char then "" :: splitColon rest
    else match splitColon rest with
         | [] => [String c ""]
         | piece :: pieces => String c piece :: pieces
         end.
Proof. reflexivity. Qed.

Lemma splitColon_nonempty (s : string) : splitColon s ≠ [].
Proof.
  destruct s as [|c rest]; [done|]. rewrite splitColon_cons.
  destruct (Ascii.eqb c ":"%char); [done|]. by destruct (splitColon rest).
Qed.

Lemma join_cons_cons (sep p q : string) (rest : list string) :
  Utils.join sep (p :: q :: rest) = (p ++ sep ++ Utils.join sep (q :: rest))%string.
Proof. reflexivity. Qed.

(** The pieces of a text, with colons between them, make up the text. *)
Lemma join_splitColon (s : string) : Utils.join ":" (splitColon s) = s.
Proof.
  induction s as [|c rest IH]; [reflexivity|]. rewrite splitColon_cons.
  destruct (Ascii.eqb_spec c ":"%char) as [-> | Hc].
  - pose proof (splitColon_nonempty rest) as Hne.
    destruct (splitColon rest) as [|q pieces]; [done|].
    rewrite join_cons_cons, IH. reflexivity.
  - pose proof (splitColon_nonempty rest) as Hne.
    destruct (splitColon rest) as [|q [|q' pieces]]; [done| |].
    + simpl in IH. subst rest. reflexivity.
    + rewrite join_cons_cons in *. rewrite append_cons. by rewrite IH.
Qed.

Lemma NoColon_splitColon (s : string) : Forall NoColon (splitColon s).
Proof.
  induction s as [|c rest IH]; [by repeat constructor|]. rewrite splitColon_cons.
  destruct (Ascii.eqb_spec c ":"%char) as [-> | Hc].
  - by constructor.
  - destruct (splitColon rest) as [|q pieces]; [by repeat constructor|].
    inversion IH; subst. constructor; [by split | done].
Qed.

Lemma splitColon_piece (piece tail : string) :
  NoColon piece →
  splitColon (piece ++ ":" ++ tail)%string = piece :: splitColon tail.
Proof.
  induction piece as [|c piece IH]; intros Hpiece.
  - reflexivity.
  - destruct Hpiece as [Hc Hpiece]. rewrite append_cons, splitColon_cons.
    apply Ascii.eqb_neq in Hc as ->. by rewrite IH.
Qed.

Lemma splitColon_last (piece : string) : NoColon piece → splitColon piece = [piece].
Proof.
  induction piece as [|c piece IH]; intros Hpiece; [reflexivity|].
  destruct Hpiece as [Hc Hpiece]. rewrite splitColon_cons.
  apply Ascii.eqb_neq in Hc as ->. by rewrite IH.
Qed.

(** A text made of pieces without colons splits into those pieces. *)
Lemma splitColon_join (pieces : list string) :
  pieces ≠ [] → Forall NoColon pieces → splitColon (Utils.join ":" pieces) = pieces.
Proof.
  induction pieces as [|p [|q pieces] IH]; intros Hne Hpieces; [done| |].
  - inversion Hpieces; subst. by apply splitColon_last.
  - inversion Hpieces; subst. rewrite join_cons_cons, splitColon_piece by done.
    by rewrite IH.
Qed.

Section Facts.

Variable config : OpencodeJson.
Variable BUILTIN_SERVERS : list (string * BuiltinServer).
Variable PATH : option string.
Variable existsSync : string -> bool.
Variable pathJoin : string -> string -> string.

Local Abbreviation findServerForExtension :=
  (findServerForExtension config BUILTIN_SERVERS PATH existsSync pathJoin).
Local Abbreviation isServerInstalled := (isServerInstalled PATH existsSync pathJoin).
Local Abbreviation findUserServer := (findUserServer PATH existsSync pathJoin).
Local Abbreviation SearchDirectory := (SearchDirectory PATH).
Local Abbreviation Available := (Available PATH existsSync pathJoin).
Local Abbreviation Matches := (Matches PATH existsSync pathJoin).
Local Abbreviation NoneMatches := (NoneMatches PATH existsSync pathJoin).
Local Abbreviation Eligible := (Eligible config PATH existsSync pathJoin).

(** The paths the code searches are the directories of the search path. *)
Lemma searchPaths_directories (dir : string) :
  In dir (searchPaths PATH) ↔ SearchDirectory dir.
Proof.
  unfold searchPaths, Resolution.SearchDirectory, pathText.
  assert (match PATH with
          | Some p => if Utils.truthy p then p else ""
          | None => ""
          end = match PATH with Some text => text | None => "" end) as ->.
  { destruct PATH as [[|c p]|]; reflexivity. }
  set (text := match PATH with Some text => text | None => "" end).
  split.
  - intros Hdir. exists (splitColon text).
    split; [by rewrite join_splitColon|]. split; [apply NoColon_splitColon | done].
  - intros (pieces & -> & Hpieces & Hdir). rewrite splitColon_join; [done | | done].
    by destruct pieces.
Qed.

Lemma Installed_Available (command : list string) :
  Installed PATH existsSync pathJoin command ↔ Available command.
Proof.
  unfold Installed, Resolution.Available. split.
  - intros (cmd & args & dir & -> & Hdir%searchPaths_directories & Hexists).
    by exists cmd, args, dir.
  - intros (cmd & args & dir & -> & Hdir%searchPaths_directories & Hexists).
    by exists cmd, args, dir.
Qed.

Lemma matches_decide (exts command : list string) (ext : string) :
  includes exts ext && isServerInstalled command = true ↔ Matches exts command ext.
Proof.
  rewrite serves_decide. unfold Serves, Resolution.Matches.
  by rewrite Installed_Available.
Qed.

Lemma isDisabled_false (entry : OpencodeJsonLspEntry) :
  isDisabled entry = false ↔ entry_disabled entry ≠ Some true.
Proof. unfold isDisabled. by destruct (entry_disabled entry) as [[|]|]. Qed.

(** The servers the code collects are those the entries define. *)
Lemma collectUserServers_defines (entries : list (string * OpencodeJsonLspEntry))
    (key : string) (server : ResolvedServer) :
  In (key, server) (collectUserServers entries)
  ↔ ∃ entry, In (key, entry) entries ∧ Defines key entry server.
Proof.
  induction entries as [|[k e] rest IH]; simpl.
  - split; [done | by intros (entry & [] & _)].
  - assert ((∃ entry, In (key, entry) rest ∧ Defines key entry server)
            ∨ (k = key ∧ Defines key e server)
            ↔ ∃ entry, ((k, e) = (key, entry) ∨ In (key, entry) rest)
                       ∧ Defines key entry server) as <-.
    { split.
      - intros [(entry & Hin & Hd) | [-> Hd]]; [exists entry | exists e]; auto.
      - intros (entry & [[= -> ->] | Hin] & Hd); [by right | left; by exists entry]. }
    rewrite <- IH. clear IH.
    destruct (isDisabled e) eqn:Hdisabled.
    { split; [by left|]. intros [Hin | [_ (Hd & _)]]; [done|].
      apply isDisabled_false in Hd. congruence. }
    destruct (entry_command e) as [cmd|] eqn:Hcmd;
      [|split; [by left | intros [Hin | [_ (_ & ? & _)]]; [done | congruence]]].
    destruct (entry_extensions e) as [exts|] eqn:Hexts;
      [|split; [by left | intros [Hin | [_ (_ & _ & ? & _)]]; [done | congruence]]].
    simpl. split.
    + intros [[= <- <-] | Hin]; [|by left]. right. split; [done|].
      by split; [apply isDisabled_false|].
    + intros [Hin | [-> (_ & Hc & He & Hid & Henv & Hinit)]]; [by right|].
      left. destruct server as [sid scmd sexts senv sinit]. simpl in *.
      congruence.
Qed.

Lemma Shadowed_ShadowedByUser (id : string) :
  Shadowed config id ↔ ShadowedByUser config id.
Proof.
  unfold Shadowed, ShadowedByUser, UserDefined, getUserLspServers.
  destruct (lsp config) as [entries|].
  - split.
    + intros (server & (entry & Hin & Hd)%collectUserServers_defines).
      by exists server, entries, entry.
    + intros (server & entries' & entry & [= <-] & Hin & Hd).
      exists server. apply collectUserServers_defines. by exists entry.
  - split; [by intros (? & []) | by intros (? & ? & ? & ? & _)].
Qed.

Lemma BuiltinServes_Eligible (ext : string) (builtin : string * BuiltinServer) :
  BuiltinServes config PATH existsSync pathJoin ext builtin ↔ Eligible ext builtin.
Proof.
  unfold BuiltinServes, Resolution.Eligible, Serves, Resolution.Matches.
  by rewrite Shadowed_ShadowedByUser, Installed_Available.
Qed.

(** The first loop of the lookup, on the entries of the configuration. *)
Lemma findUserServer_entries (entries : list (string * OpencodeJsonLspEntry))
    (ext : string) :
  match findUserServer (collectUserServers entries) ext with
  | Some server =>
      ∃ before key entry after,
        entries = before ++ (key, entry) :: after
        ∧ Defines key entry server
        ∧ Matches (extensions server) (command server) ext
        ∧ NoneMatches ext before
  | None => NoneMatches ext entries
  end.
Proof.
  induction entries as [|[k e] rest IH]; [by constructor|].
  assert (∀ found : option ResolvedServer,
    (∀ server, Defines k e server → ¬ Matches (extensions server) (command server) ext) →
    match found with
    | Some server =>
        ∃ before key entry after,
          rest = before ++ (key, entry) :: after
          ∧ Defines key entry server
          ∧ Matches (extensions server) (command server) ext
          ∧ NoneMatches ext before
    | None => NoneMatches ext rest
    end →
    match found with
    | Some server =>
        ∃ before key entry after,
          (k, e) :: rest = before ++ (key, entry) :: after
          ∧ Defines key entry server
          ∧ Matches (extensions server) (command server) ext
          ∧ NoneMatches ext before
    | None => NoneMatches ext ((k, e) :: rest)
    end) as Hskip.
  { intros [server|] Hhere Hrest.
    - destruct Hrest as (before & key & entry & after & -> & Hd & Hm & Hnone).
      exists ((k, e) :: before), key, entry, after.
      split; [done|]. split; [done|]. split; [done|]. by constructor.
    - by constructor. }
  simpl. destruct (isDisabled e) eqn:Hdisabled.
  { apply Hskip; [|exact IH]. intros server (Hd & _).
    apply isDisabled_false in Hd. congruence. }
  destruct (entry_command e) as [cmd|] eqn:Hcmd;
    [|apply Hskip; [intros server (_ & ? & _); congruence | exact IH]].
  destruct (entry_extensions e) as [exts|] eqn:Hexts;
    [|apply Hskip; [intros server (_ & _ & ? & _); congruence | exact IH]].
  simpl. destruct (includes exts ext && isServerInstalled cmd) eqn:Hmatch.
  - exists [], k, e, rest. split; [done|]. split; [|split; [|by constructor]].
    + split; [by apply isDisabled_false|]. by rewrite Hcmd, Hexts.
    + by apply matches_decide.
  - apply Hskip; [|exact IH]. intros server (_ & Hc & He & _) Hm%matches_decide.
    congruence.
Qed.

(** C7: server resolution tries user-defined servers before built-ins.
    The lookup returns the first user-configured server, in
    configuration order, whose extensions contain the extension and
    whose command's first token exists in some directory of the search
    path; when no user-configured server matches, it returns the first
    matching installed built-in whose id is neither disabled by the
    user configuration nor shadowed by a user-defined server of the
    same id; when none matches either it returns the not-found result.
    For a configuration of the declared type it always returns. *)
Theorem find_server_for_extension_spec (ext : string) :
  match findServerForExtension ext with
  | Some server =>
      FirstUserMatch config PATH existsSync pathJoin ext server
      ∨ (NoUserMatch config PATH existsSync pathJoin ext
         ∧ FirstBuiltinMatch config BUILTIN_SERVERS PATH existsSync pathJoin ext server)
  | None =>
      NoUserMatch config PATH existsSync pathJoin ext
      ∧ Forall (fun builtin => ¬ Eligible ext builtin) BUILTIN_SERVERS
  end.
Proof.
  assert (∀ entries, lsp config = Some entries → NoneMatches ext entries →
                     NoUserMatch config PATH existsSync pathJoin ext) as Hnone.
  { intros entries Hlsp Hentries key server (entries' & entry & Hlsp' & Hin & Hd).
    assert (entries' = entries) as -> by congruence.
    unfold Resolution.NoneMatches in Hentries. rewrite Forall_forall in Hentries.
    apply (Hentries (key, entry)); [by apply list_elem_of_In | done]. }
  unfold Config.findServerForExtension, getUserLspServers.
  pose proof (findBuiltinServer_first config PATH existsSync pathJoin BUILTIN_SERVERS ext)
    as Hbuiltin.
  unfold getUserLspServers in Hbuiltin.
  assert (match findBuiltinServer PATH existsSync pathJoin BUILTIN_SERVERS
                  match lsp config with
                  | Some entries => collectUserServers entries
                  | None => []
                  end (getDisabledServers config) ext with
          | Some server =>
              FirstBuiltinMatch config BUILTIN_SERVERS PATH existsSync pathJoin ext server
          | None => Forall (fun builtin => ¬ Eligible ext builtin) BUILTIN_SERVERS
          end) as Hsecond.
  { destruct (findBuiltinServer _ _ _ _ _ _ ext) as [server|].
    - destruct Hbuiltin as (before & id & b & after & Hsplit & -> & Hserves & Hbefore).
      exists before, id, b, after. split; [done|]. split; [done|].
      split; [by apply BuiltinServes_Eligible|].
      eapply Forall_impl; [exact Hbefore|]. intros builtin Hno He.
      by apply Hno, BuiltinServes_Eligible.
    - eapply Forall_impl; [exact Hbuiltin|]. intros builtin Hno He.
      by apply Hno, BuiltinServes_Eligible. }
  clear Hbuiltin.
  destruct (lsp config) as [entries|] eqn:Hlsp.
  - pose proof (findUserServer_entries entries ext) as Huser.
    destruct (findUserServer (collectUserServers entries) ext) as [server|].
    + left. destruct Huser as (before & key & entry & after & Hsplit & Hd & Hm & Hbefore).
      by exists entries, before, key, entry, after.
    + destruct (findBuiltinServer _ _ _ _ _ _ ext) as [server|].
      * right. split; [by apply (Hnone entries) | done].
      * split; [by apply (Hnone entries) | done].
  - assert (NoUserMatch config PATH existsSync pathJoin ext) as Hno.
    { intros key server (entries & entry & Hlsp' & _). congruence. }
    simpl. destruct (findBuiltinServer _ _ _ _ _ _ ext) as [server|].
    + right. by split.
    + by split.
Qed.

End Facts.

End Resolving.

(** ** findSequence *)

Module Search.

Import Wire Stream Framing.
Local Open Scope list_scope.

Lemma matchesAt_prefix (rest needle : list Z) :
  matchesAt rest needle = true ↔ ∃ after, rest = needle ++ after.
Proof.
  revert rest. induction needle as [|n needle IH]; intros rest; simpl.
  - split; [intros _; by exists rest | done].
  - destruct rest as [|b rest].
    + split; [discriminate | intros (after & H); discriminate].
    + rewrite andb_true_iff, IH, Z.eqb_eq. split.
      * intros (-> & after & ->). by exists after.
      * intros (after & H). injection H as -> ->. split; [done | by exists after].
Qed.

Lemma OccursAt_0 (needle haystack : list Z) :
  OccursAt needle haystack 0 ↔ matchesAt haystack needle = true.
Proof.
  rewrite matchesAt_prefix. split.
  - intros (before & after & -> & Hlen). destruct before; [|discriminate].
    by exists after.
  - intros (after & ->). by exists [], after.
Qed.

Lemma OccursAt_S (needle : list Z) (b : Z) (haystack : list Z) (i : nat) :
  OccursAt needle (b :: haystack) (S i) ↔ OccursAt needle haystack i.
Proof.
  split.
  - intros (before & after & Heq & Hlen). destruct before as [|b' before]; [discriminate|].
    injection Heq as -> ->. exists before, after. split; [done | by injection Hlen].
  - intros (before & after & -> & Hlen). exists (b :: before), after.
    split; [done | simpl; by rewrite Hlen].
Qed.

Lemma OccursAt_length (needle haystack : list Z) (i : nat) :
  OccursAt needle haystack i → i + length needle <= length haystack.
Proof. intros (before & after & -> & <-). rewrite !length_app. lia. Qed.

Lemma findSequenceFrom_first (haystack needle : list Z) :
  ∀ i,
    match findSequenceFrom i haystack needle with
    | Some e =>
        ∃ k, e = i + k ∧ OccursAt needle haystack k
             ∧ ∀ j, OccursAt needle haystack j → k <= j
    | None => ∀ j, ¬ OccursAt needle haystack j
    end.
Proof.
  induction haystack as [|b haystack IH]; intros i; rewrite findSequenceFrom_eq.
  - destruct (Nat.leb_spec (length needle) (length (@nil Z))) as [Hle|Hgt].
    + destruct (matchesAt [] needle) eqn:Hm.
      * exists 0. split; [lia|]. split; [by apply OccursAt_0 | intros; lia].
      * intros j Hj. apply OccursAt_length in Hj as Hlen. simpl in *.
        assert (j = 0) as -> by lia. apply OccursAt_0 in Hj. congruence.
    + intros j Hj. apply OccursAt_length in Hj. lia.
  - destruct (Nat.leb_spec (length needle) (length (b :: haystack))) as [Hle|Hgt].
    + destruct (matchesAt (b :: haystack) needle) eqn:Hm.
      * exists 0. split; [lia|]. split; [by apply OccursAt_0 | intros; lia].
      * specialize (IH (S i)).
        destruct (findSequenceFrom (S i) haystack needle) as [e|].
        -- destruct IH as (k & -> & Hocc & Hmin). exists (S k).
           split; [lia|]. split; [by apply OccursAt_S|].
           intros [|j] Hj; [apply OccursAt_0 in Hj; congruence|].
           apply OccursAt_S in Hj. apply Hmin in Hj. lia.
        -- intros [|j] Hj; [apply OccursAt_0 in Hj; congruence|].
           apply OccursAt_S in Hj. by apply (IH j).
    + intros j Hj. apply OccursAt_length in Hj. lia.
Qed.

(** X1: [findSequence] returns the index of the first place where
    the needle stands in the haystack, and -1 exactly when the needle
    stands nowhere in it. *)
Theorem findSequence_first_occurrence (haystack needle : list Z) :
  match findSequence haystack needle with
  | Some i =>
      OccursAt needle haystack i ∧ ∀ j, OccursAt needle haystack j → i <= j
  | None => ∀ j, ¬ OccursAt needle haystack j
  end.
Proof.
  unfold findSequence. pose proof (findSequenceFrom_first haystack needle 0) as H.
  destruct (findSequenceFrom 0 haystack needle) as [e|]; [|exact H].
  destruct H as (k & -> & Hocc & Hmin). by split.
Qed.

End Search.

(** ** The read loop *)

Module Reading.

Import Wire Client Stream Framing.
Local Open Scope list_scope.

Lemma scanFrame_consumes (buffer : list Z) :
  match scanFrame buffer with
  | Break buffer' => ∃ consumed, buffer = consumed ++ buffer'
  | Payload content buffer' =>
      ∃ consumed, buffer = consumed ++ buffer' ∧ length content <= length consumed
  end.
Proof.
  unfold scanFrame.
  destruct (findSequence buffer CONTENT_LENGTH) as [headerStart|]; [|by exists []].
  set (sliced := if (0 <? headerStart)%nat then drop headerStart buffer else buffer).
  assert (∃ noise, buffer = noise ++ sliced) as [noise Hnoise].
  { subst sliced. destruct (0 <? headerStart)%nat.
    - exists (take headerStart buffer). by rewrite take_drop.
    - by exists []. }
  assert (∀ headerEnd sepLen,
    match
      match headerEnd with
      | Some headerEnd =>
          match matchContentLength (decode (slice 0 headerEnd sliced)) with
          | Some digits =>
              if (Z.of_nat (length sliced)
                  <? Z.of_nat (headerEnd + sepLen) + parseInt digits)%Z
              then Break sliced
              else Payload
                     (slice (Z.to_nat (Z.of_nat (headerEnd + sepLen)))
                        (Z.to_nat (Z.of_nat (headerEnd + sepLen) + parseInt digits))
                        sliced)
                     (drop (Z.to_nat (Z.of_nat (headerEnd + sepLen) + parseInt digits))
                        sliced)
          | None => Break sliced
          end
      | None => Break sliced
      end
    with
    | Break buffer' => ∃ consumed, buffer = consumed ++ buffer'
    | Payload content buffer' =>
        ∃ consumed, buffer = consumed ++ buffer' ∧ length content <= length consumed
    end) as Hcase.
  { intros [headerEnd|] sepLen; [|by exists noise].
    destruct (matchContentLength _) as [digits|] eqn:Hmatch; [|by exists noise].
    pose proof (parseInt_nonneg _ (matchContentLength_digits _ _ Hmatch)) as Hlen.
    destruct (Z.ltb_spec (Z.of_nat (length sliced))
                (Z.of_nat (headerEnd + sepLen) + parseInt digits)) as [|Hfits];
      [by exists noise|].
    set (end_ := Z.to_nat (Z.of_nat (headerEnd + sepLen) + parseInt digits)).
    exists (noise ++ take end_ sliced). split.
    - by rewrite <- app_assoc, take_drop.
    - unfold slice. rewrite length_take, length_drop, length_app, length_take. lia. }
  destruct (findSequence sliced CRLF_CRLF) as [e|].
  - apply (Hcase (Some e) 4).
  - apply (Hcase (findSequence sliced LF_LF) 2).
Qed.

Lemma drain_consumes (fuel : nat) :
  ∀ extracted buffer payloads buffer',
    drain fuel extracted buffer = Some (payloads, buffer') →
    ∃ consumed, buffer = consumed ++ buffer'
                ∧ length (concat payloads) <= length (concat extracted) + length consumed.
Proof.
  induction fuel as [|fuel IH]; intros extracted buffer payloads buffer'; [discriminate|].
  rewrite drain_S. pose proof (scanFrame_consumes buffer) as Hscan.
  destruct (scanFrame buffer) as [left|content left].
  - intros [= <- <-]. destruct Hscan as [consumed ->]. exists consumed. split; [done | lia].
  - intros Hdrain. destruct Hscan as (consumed & -> & Hlen).
    apply IH in Hdrain as (consumed' & -> & Hlen').
    exists (consumed ++ consumed'). split; [by rewrite <- app_assoc|].
    rewrite concat_app, !length_app in *. simpl in Hlen'. rewrite app_nil_r in Hlen'. lia.
Qed.

Lemma findSequence_drop (buffer needle : list Z) (k : nat) :
  findSequence buffer needle = Some k → findSequence (drop k buffer) needle = Some 0.
Proof.
  intros Hfound. pose proof (Search.findSequenceFrom_first buffer needle 0) as Hfirst.
  unfold findSequence in Hfound. rewrite Hfound in Hfirst.
  destruct Hfirst as (k' & -> & (before & after & -> & Hlen) & _). simpl.
  rewrite <- Hlen, drop_app_length. apply findSequenceFrom_here, matchesAt_app.
Qed.

Lemma scanFrame_drop (buffer : list Z) (k : nat) :
  findSequence buffer CONTENT_LENGTH = Some k → scanFrame buffer = scanFrame (drop k buffer).
Proof.
  intros Hfound. unfold scanFrame.
  rewrite (findSequence_drop _ _ _ Hfound), Hfound.
  destruct k as [|k]; [by rewrite drop_0 | reflexivity].
Qed.

Lemma findSequenceFrom_skip_all (skipped rest : list Z) (n : Z) (needle : list Z) :
  Forall (fun b => b ≠ n) skipped → ∀ i,
    findSequenceFrom i (skipped ++ rest) (n :: needle)
    = findSequenceFrom (i + length skipped) rest (n :: needle).
Proof.
  induction 1 as [|b skipped Hb _ IH]; intros i.
  - simpl app. by rewrite Nat.add_0_r.
  - simpl app. rewrite findSequenceFrom_eq, matchesAt_head by done.
    destruct (Nat.leb_spec (length (n :: needle)) (length (b :: skipped ++ rest))).
    + rewrite IH. f_equal. simpl. lia.
    + symmetry. apply findSequenceFrom_short. simpl in *. rewrite length_app in *. lia.
Qed.

Lemma scanFrame_stuck (s : list Z) :
  findSequence s CONTENT_LENGTH = Some 0 →
  findSequence s CRLF_CRLF = None → findSequence s LF_LF = None →
  scanFrame s = Break s.
Proof.
  intros Hstart Hcrlf Hlf. unfold scanFrame. rewrite Hstart. simpl.
  by rewrite Hcrlf, Hlf.
Qed.

Lemma findSequence_front (s rest tail : list Z) :
  s ++ rest = CONTENT_LENGTH ++ tail → 15 <= length s →
  findSequence s CONTENT_LENGTH = Some 0.
Proof.
  intros Heq Hlen. apply findSequenceFrom_here.
  assert (take 15 s = CONTENT_LENGTH) as Htake.
  { rewrite <- (take_app_le s rest 15) by lia. rewrite Heq. reflexivity. }
  rewrite <- (take_drop 15 s), Htake. apply matchesAt_app.
Qed.

(** A frame of which the last byte has not arrived stays in the buffer. *)
Lemma scanFrame_prefix_waits (digits payload s rest : list Z) :
  Digits digits → parseInt digits = Z.of_nat (length payload) →
  s ++ rest = frameBytes digits CRLFCRLF payload → rest ≠ [] →
  scanFrame s = Break s.
Proof.
  intros Hd Hlen Heq Hrest.
  destruct (Nat.lt_ge_cases (length s) 15) as [Hshort|Hlong].
  { unfold scanFrame, findSequence. by rewrite findSequenceFrom_short. }
  assert (findSequence s CONTENT_LENGTH = Some 0) as Hstart.
  { apply (findSequence_front s rest ([32%Z] ++ digits ++ CRLF_CRLF ++ payload));
      [|done]. rewrite Heq. unfold frameBytes, headerBytes.
    by rewrite <- !app_assoc. }
  unfold frameBytes in Heq. simpl terminatorBytes in Heq.
  apply app_eq_inv in Heq as [(k & -> & Hk) | (k & Hheader & ->)].
  - symmetry in Hk. apply app_eq_inv in Hk as [(k' & -> & ->) | (k' & Hterm & ->)].
    + apply (scanFrame_incomplete digits CRLFCRLF k' Hd).
      rewrite Hlen, length_app. destruct rest; [done|]. simpl. lia.
    + destruct k' as [|b k'].
      * rewrite app_nil_r in Hterm. subst k.
        apply (scanFrame_incomplete digits CRLFCRLF [] Hd).
        rewrite Hlen. destruct payload; [done|]. simpl. lia.
      * apply scanFrame_stuck; [done| |].
        -- unfold findSequence, CRLF_CRLF.
           rewrite (findSequenceFrom_skip_all _ _ 13 _ (headerBytes_no 13 digits Hd (or_introl eq_refl))).
           apply findSequenceFrom_short.
           apply (f_equal (@length Z)) in Hterm. rewrite length_app in Hterm.
           simpl in *. lia.
        -- unfold findSequence, LF_LF.
           rewrite (findSequenceFrom_skip_all _ _ 10 _ (headerBytes_no 10 digits Hd (or_intror eq_refl))).
           unfold CRLF_CRLF in Hterm.
           destruct k as [|k1 [|k2 [|k3 [|k4 k]]]]; simpl in Hterm; simplify_eq;
             try reflexivity.
           by destruct k.
  - assert (Forall (fun b => b ≠ 13%Z) s ∧ Forall (fun b => b ≠ 10%Z) s) as [H13 H10].
    { pose proof (headerBytes_no 13 digits Hd (or_introl eq_refl)) as H13.
      pose proof (headerBytes_no 10 digits Hd (or_intror eq_refl)) as H10.
      rewrite Hheader in H13, H10.
      by apply Forall_app in H13 as [? _], H10 as [? _]. }
    apply scanFrame_stuck; [done| |]; unfold findSequence, CRLF_CRLF, LF_LF;
      rewrite <- (app_nil_r s).
    + by rewrite (findSequenceFrom_skip_all _ _ 13 _ H13).
    + by rewrite (findSequenceFrom_skip_all _ _ 10 _ H10).
Qed.

(** What has arrived of a stream of frames: the frames that are
    complete, and the bytes of the frame that is not. *)
Lemma encodeFrames_split (fs : list Frame) :
  ∀ s rest, s ++ rest = encodeFrames fs →
    ∃ fs1 fs2 b, fs = fs1 ++ fs2 ∧ s = encodeFrames fs1 ++ b
      ∧ b ++ rest = encodeFrames fs2
      ∧ (b = [] ∨ ∃ f fs2' rest', fs2 = f :: fs2' ∧ rest' ≠ []
                                   ∧ b ++ rest' = encodeFrame f).
Proof.
  induction fs as [|f fs IH]; intros s rest Heq.
  - apply app_eq_nil in Heq as [-> ->]. exists [], [], []. by auto.
  - change (encodeFrames (f :: fs)) with (encodeFrame f ++ encodeFrames fs) in Heq.
    apply app_eq_inv in Heq as [(k & -> & Hk) | (k & Hframe & ->)].
    + destruct (IH k rest (eq_sym Hk)) as (fs1 & fs2 & b & -> & -> & Hb & Hcase).
      exists (f :: fs1), fs2, b. split; [done|]. split; [|done].
      change (encodeFrames (f :: fs1)) with (encodeFrame f ++ encodeFrames fs1).
      by rewrite <- app_assoc.
    + destruct k as [|b k].
      * rewrite app_nil_r in Hframe. subst s. exists [f], fs, [].
        split; [done|]. split; [|by auto].
        change (encodeFrames [f]) with (encodeFrame f ++ []). by rewrite !app_nil_r.
      * exists [], (f :: fs), s. split; [done|]. split; [done|]. split.
        -- change (encodeFrames (f :: fs)) with (encodeFrame f ++ encodeFrames fs).
           by rewrite Hframe, <- app_assoc.
        -- right. by exists f, fs, (b :: k).
Qed.

Section Reader.

Variable JSON_parse : list Z -> option JSON.

Lemma processLoop_S (fuel : nat) (extracted : list (list Z)) (c : LSPClient) :
  processLoop JSON_parse (S fuel) extracted c
  = match scanFrame (buffer c) with
    | Break buffer' => Some (extracted, setBuffer buffer' c)
    | Payload content buffer' =>
        processLoop JSON_parse fuel (extracted ++ [content])
          (handleContent JSON_parse content (setBuffer buffer' c))
    end.
Proof. reflexivity. Qed.

Lemma processLoop_fuel (fuel : nat) :
  ∀ fuel' extracted c,
    length (buffer c) < fuel → length (buffer c) < fuel' →
    processLoop JSON_parse fuel extracted c = processLoop JSON_parse fuel' extracted c.
Proof.
  induction fuel as [|fuel IH]; intros [|fuel'] extracted c Hfuel Hfuel'; try lia.
  rewrite !processLoop_S.
  destruct (scanFrame (buffer c)) as [left|content left] eqn:Hscan; [done|].
  apply scanFrame_shrinks in Hscan.
  apply IH; rewrite handleContent_buffer; simpl; lia.
Qed.

(** X2: [processBuffer] returns on every client, whatever its buffer
    holds; the buffer it leaves is what the buffer was without some
    bytes at its front, and the payloads it extracted are together no
    longer than the bytes it removed. *)
Theorem processBuffer_consumes_the_front (c : LSPClient) :
  ∃ payloads c' consumed,
    processBuffer JSON_parse c = Some (payloads, c')
    ∧ buffer c = consumed ++ buffer c'
    ∧ length (concat payloads) <= length consumed.
Proof.
  destruct (processBuffer_returns JSON_parse c) as [[payloads c'] Hreturns].
  exists payloads, c'. unfold processBuffer in Hreturns.
  pose proof (processLoop_drain JSON_parse (S (length (buffer c))) [] c) as Hloop.
  rewrite Hreturns in Hloop. apply drain_consumes in Hloop as (consumed & Hcut & Hlen).
  exists consumed. split; [exact Hreturns|]. split; [exact Hcut | exact Hlen].
Qed.

(** X4: the bytes in front of the first ["Content-Length:"] play no
    part: when the header name is first found at index [k],
    [processBuffer] does what it does on the buffer without its first
    [k] bytes. *)
Theorem bytes_before_the_header_are_dropped (c : LSPClient) (k : nat)
    (Hfound : findSequence (buffer c) CONTENT_LENGTH = Some k) :
  processBuffer JSON_parse c
  = processBuffer JSON_parse (setBuffer (drop k (buffer c)) c).
Proof.
  unfold processBuffer. rewrite !processLoop_S.
  change (buffer (setBuffer (drop k (buffer c)) c)) with (drop k (buffer c)).
  rewrite <- (scanFrame_drop _ _ Hfound).
  destruct (scanFrame (buffer c)) as [left|content left] eqn:Hscan; [reflexivity|].
  change (setBuffer left (setBuffer (drop k (buffer c)) c)) with (setBuffer left c).
  pose proof Hscan as Hshort. apply scanFrame_shrinks in Hshort.
  rewrite (scanFrame_drop _ _ Hfound) in Hscan. apply scanFrame_shrinks in Hscan.
  apply processLoop_fuel; rewrite handleContent_buffer; simpl; lia.
Qed.

Lemma readChunks_crlf (chunks : list (list Z)) :
  ∀ fs extracted c,
    Forall (CompleteWith CRLFCRLF) fs →
    scanFrame (buffer c) = Break (buffer c) →
    buffer c ++ concat chunks = encodeFrames fs →
    ∃ c', readChunks JSON_parse chunks extracted c
          = Some (extracted ++ List.map frame_payload fs, c')
          ∧ buffer c' = [].
Proof.
  induction chunks as [|chunk chunks IH]; intros fs extracted c Hfs Hstuck Heq.
  - simpl in Heq. rewrite app_nil_r in Heq. destruct fs as [|f fs].
    + exists c. by rewrite app_nil_r.
    + exfalso. rewrite Heq in Hstuck.
      change (encodeFrames (f :: fs)) with (encodeFrame f ++ encodeFrames fs) in Hstuck.
      inversion Hfs as [|? ? [[Hd Hlen] Ht] _]; subst.
      unfold encodeFrame in Hstuck. rewrite Ht in Hstuck.
      by rewrite scanFrame_crlf in Hstuck.
  - simpl in Heq. rewrite app_assoc in Heq.
    destruct (encodeFrames_split fs _ _ Heq) as (fs1 & fs2 & b & -> & Hs & Hb & Hcase).
    apply Forall_app in Hfs as [Hfs1 Hfs2].
    assert (scanFrame b = Break b) as Hwaits.
    { destruct Hcase as [-> | (f & fs2' & rest' & -> & Hrest & Hframe)]; [reflexivity|].
      inversion Hfs2 as [|? ? [[Hd Hlen] Ht] _]; subst.
      unfold encodeFrame in Hframe. rewrite Ht in Hframe.
      by apply (scanFrame_prefix_waits _ _ _ _ Hd Hlen Hframe). }
    destruct (processBuffer_drain JSON_parse (setBuffer (buffer c ++ chunk) c)
                (List.map frame_payload fs1) b) as (c1 & Hreceive & Hbuffer).
    { change (buffer (setBuffer (buffer c ++ chunk) c)) with (buffer c ++ chunk).
      rewrite Hs. by rewrite (drain_crlf_frames fs1 b b); [| | |lia]. }
    destruct (IH fs2 (extracted ++ List.map frame_payload fs1) c1)
      as (c' & Hread & Hempty); [done | by rewrite Hbuffer | by rewrite Hbuffer |].
    exists c'. split; [|done].
    simpl. unfold receive. rewrite Hreceive, Hread.
    by rewrite map_app, app_assoc.
Qed.

(** X3: however the stream cuts them into chunks, complete frames
    whose headers end with CRLFCRLF are all extracted, in order: the
    read loop, started on an empty buffer, hands over the payload of
    every frame and leaves the buffer empty. *)
Theorem chunked_frames_are_all_extracted
    (c : LSPClient) (fs : list Frame) (chunks : list (list Z))
    (Hfs : Forall (CompleteWith CRLFCRLF) fs)
    (Hempty : buffer c = [])
    (Hstream : concat chunks = encodeFrames fs) :
  ∃ c', readChunks JSON_parse chunks [] c = Some (List.map frame_payload fs, c')
        ∧ buffer c' = [].
Proof.
  apply (readChunks_crlf chunks fs [] c Hfs); rewrite Hempty; [reflexivity | done].
Qed.

(** C5 at a complete frame ended by LFLF followed by a frame whose
    header ends with CRLFCRLF and declares fifty bytes, of which three
    have arrived: one call takes the terminator of the incomplete frame
    for the end of the first header, reads the length 2 there, hands the
    first two bytes of the incomplete payload, ["ab"], on as a payload
    and leaves ["c"]; the bytes of the incomplete frame are not left in
    place, and what is extracted is the payload of no frame. *)
Theorem incomplete_frame_yields_garbage :
  let c := setBuffer mixedPartial startedClient in
  mixedPartial = encodeFrames [lfFrame] ++ frameBytes [53; 48]%Z CRLFCRLF [97; 98; 99]%Z
  ∧ Complete lfFrame
  ∧ Digits [53; 48]%Z
  ∧ (Z.of_nat (length [97; 98; 99]%Z) < parseInt [53; 48]%Z)%Z
  ∧ (∃ c', processBuffer JSON_parse c = Some ([[97; 98]%Z], c')
           ∧ buffer c' = [99%Z])
  ∧ [[97; 98]%Z] ≠ [frame_payload lfFrame]
  ∧ [99%Z] ≠ frameBytes [53; 48]%Z CRLFCRLF [97; 98; 99]%Z.
Proof.
  split; [reflexivity|]. split; [|split; [|split; [|split; [|split]]]].
  - split; [split; [done | repeat constructor; lia] | reflexivity].
  - split; [done|]. apply Forall_cons_2; [lia|]. apply Forall_cons_2; [lia|].
    apply Forall_nil_2.
  - vm_compute. reflexivity.
  - apply processBuffer_drain. vm_compute. reflexivity.
  - discriminate.
  - discriminate.
Qed.

End Reader.

Lemma chunked_frames_are_all_extracted_witness :
  concat fiveChunks = encodeFrames twoReplies
  ∧ ∃ c', readChunks (fun _ => None) fiveChunks [] startedClient
          = Some (List.map frame_payload twoReplies, c')
          ∧ buffer c' = [].
Proof.
  split; [reflexivity|].
  apply (chunked_frames_are_all_extracted (fun _ => None) startedClient twoReplies
           fiveChunks).
  - apply Forall_cons_2; [|apply Forall_cons_2; [|apply Forall_nil_2]];
      (split; [|reflexivity]); (split; [|reflexivity]); (split; [discriminate|]);
      (apply Forall_cons_2; [simpl; lia | apply Forall_nil_2]).
  - reflexivity.
  - reflexivity.
Defined.

Lemma bytes_before_the_header_are_dropped_witness :
  findSequence noisyBuffer CONTENT_LENGTH = Some 2
  ∧ processBuffer (fun _ => None) (setBuffer noisyBuffer startedClient)
    = processBuffer (fun _ => None)
        (setBuffer (drop 2 noisyBuffer) (setBuffer noisyBuffer startedClient)).
Proof.
  split; [reflexivity|].
  apply (bytes_before_the_header_are_dropped (fun _ => None)
           (setBuffer noisyBuffer startedClient) 2).
  reflexivity.
Defined.

End Reading.

(** ** Promises *)

Module Settling.

Import Client Dispatch Pending Promises.
Local Open Scope list_scope.
Local Open Scope Z_scope.

Lemma step_requestId (e : Event) (c : LSPClient) : requestId c <= requestId (step e c).
Proof.
  destruct e as [msg|id|method params]; simpl.
  - rewrite dispatch_requestId. lia.
  - unfold timeoutFires. destruct (pending c !! id); simpl; lia.
  - unfold send. destruct (negb (proc c)); simpl; lia.
Qed.

Lemma run_requestId (events : list Event) :
  ∀ c, requestId c <= requestId (run events c).
Proof.
  induction events as [|e events IH]; intros c; [simpl; lia|].
  change (run (e :: events) c) with (run events (step e c)).
  pose proof (step_requestId e c). specialize (IH (step e c)). lia.
Qed.

(** X5: request numbers are never reused: whatever arrives, times out
    or is sent between two requests of one client, the later request
    carries the greater number. *)
Theorem request_numbers_are_never_reused
    (c c1 c2 : LSPClient) (events : list Event)
    (method1 method2 : string) (params1 params2 : option JSON) (id1 id2 : Z)
    (Hfirst : send method1 params1 c = inr (id1, c1))
    (Hsecond : send method2 params2 (run events c1) = inr (id2, c2)) :
  id1 < id2.
Proof.
  unfold send in *.
  destruct (negb (proc c)); [discriminate|]. injection Hfirst as <- <-.
  destruct (negb (proc (run events _))); [discriminate|]. injection Hsecond as <- _.
  match goal with |- _ < requestId (run events ?c') + 1 =>
    pose proof (run_requestId events c') as Hmono end.
  simpl in Hmono. lia.
Qed.

Lemma Consistent_new (started : bool) :
  Consistent (if started then startedClient else newClient).
Proof.
  destruct started; (split; [|split; [|split]]);
    [intros k h | intros k h | intros k Hk | | intros k h | intros k h | intros k Hk | ];
    try (simpl; rewrite lookup_empty; discriminate);
    try (by apply elem_of_nil in Hk); by constructor.
Qed.

Lemma Consistent_settle (k : Z) (entry handler : Handler) (s : Settlement)
    (c : LSPClient) :
  Consistent c → pending c !! k = Some entry → promise handler = k →
  Consistent (settle handler s (setPending (delete k (pending c)) c)).
Proof.
  intros (Hminted & Hkeyed & Hsettled & Hnodup) Hpending Hk.
  assert (k ∉ settledIds c) as Hfresh.
  { intros Hin. apply Hsettled in Hin as [_ Hnone]. congruence. }
  split; [|split; [|split]].
  - intros j h. simpl. rewrite lookup_delete_Some. intros [_ Hj]. by apply (Hminted j h).
  - intros j h. simpl. rewrite lookup_delete_Some. intros [_ Hj]. by apply Hkeyed.
  - intros j. unfold settledIds. simpl. rewrite map_app, elem_of_app. simpl.
    rewrite Hk. intros [Hj | Hj].
    + apply Hsettled in Hj as [Hle Hnone]. split; [done|].
      by rewrite lookup_delete_None; right.
    + apply list_elem_of_singleton in Hj as ->. split.
      * by apply (Hminted k entry).
      * by rewrite lookup_delete_eq.
  - unfold settledIds. simpl. rewrite map_app. simpl. rewrite Hk.
    apply NoDup_app. split; [done|]. split; [|apply NoDup_singleton].
    intros j Hj Hjk. apply list_elem_of_singleton in Hjk as ->. done.
Qed.

Lemma Consistent_unsettled (k : Z) (c : LSPClient) :
  Consistent c → Consistent (setPending (delete k (pending c)) c).
Proof.
  intros (Hminted & Hkeyed & Hsettled & Hnodup).
  split; [|split; [|split]]; [| | |done].
  - intros j h. simpl. rewrite lookup_delete_Some. intros [_ Hj]. by apply (Hminted j h).
  - intros j h. simpl. rewrite lookup_delete_Some. intros [_ Hj]. by apply Hkeyed.
  - intros j Hj. apply Hsettled in Hj as [Hle Hnone]. split; [done|].
    simpl. by rewrite lookup_delete_None; right.
Qed.

Lemma Consistent_respond (id result : JSON) (c : LSPClient) :
  Consistent c → Consistent (respond id result c).
Proof. by destruct (respond_cases id result c) as [-> | ->]. Qed.

Lemma Consistent_step (e : Event) (c : LSPClient) : Consistent c → Consistent (step e c).
Proof.
  intros Hc. destruct e as [msg|id|method params]; simpl.
  - destruct (dispatch_cases msg c) as [|id result|k handler s Hk|k handler Hk].
    + done.
    + by apply Consistent_respond.
    + apply (Consistent_settle k handler); [done | done |].
      destruct Hc as (_ & Hkeyed & _). by apply Hkeyed.
    + by apply Consistent_unsettled.
  - unfold timeoutFires. destruct (pending c !! id) as [handler|] eqn:Hid; [|done].
    by apply (Consistent_settle id handler).
  - unfold send. destruct (negb (proc c)); [done|].
    destruct Hc as (Hminted & Hkeyed & Hsettled & Hnodup).
    split; [|split; [|split]]; [| | |done].
    + intros j h. simpl. rewrite lookup_insert_Some. intros [[<- _] | [_ Hj]]; [lia|].
      specialize (Hminted j h Hj). lia.
    + intros j h. simpl. rewrite lookup_insert_Some. intros [[<- <-] | [_ Hj]]; [done|].
      by apply Hkeyed.
    + intros j Hj. apply Hsettled in Hj as [Hle Hnone]. simpl. split; [lia|].
      rewrite lookup_insert_None. split; [done | lia].
Qed.

Lemma Consistent_run (events : list Event) :
  ∀ c, Consistent c → Consistent (run events c).
Proof.
  induction events as [|e events IH]; intros c Hc; [done|].
  apply (IH (step e c)). by apply Consistent_step.
Qed.

(** X6: no promise is settled twice: over any sequence of requests
    sent, messages dispatched and timers fired on a new client, each
    request number occurs at most once among the settled promises. *)
Theorem no_promise_is_settled_twice (started : bool) (events : list Event) :
  NoDup (settledIds (run events (if started then startedClient else newClient))).
Proof. apply (Consistent_run events _ (Consistent_new started)). Qed.

(** Nothing settles the promise of a request whose entry is gone. *)
Lemma unsettled_step (k : Z) (e : Event) (c : LSPClient) :
  k <= requestId c → pending c !! k = None → WellKeyed c → k ∉ settledIds c →
  k ∉ settledIds (step e c).
Proof.
  intros Hle Hnone Hkeyed Hfresh. destruct e as [msg|id|method params]; simpl.
  - destruct (dispatch_cases msg c) as [|id result|j handler s Hj|j handler Hj]; try done.
    + by destruct (respond_cases id result c) as [-> | ->].
    + unfold settledIds. simpl. rewrite map_app, elem_of_app. simpl.
      intros [Hin | Hin]; [done|]. apply list_elem_of_singleton in Hin.
      rewrite (Hkeyed j handler Hj) in Hin. congruence.
  - unfold timeoutFires. destruct (pending c !! id) as [handler|] eqn:Hid; [|done].
    unfold settledIds. simpl. rewrite map_app, elem_of_app. simpl.
    intros [Hin | Hin]; [done|]. apply list_elem_of_singleton in Hin. congruence.
  - unfold send. by destruct (negb (proc c)).
Qed.

Lemma unsettled_run (k : Z) (events : list Event) :
  ∀ c, Consistent c → Gone k c → k ∉ settledIds c → k ∉ settledIds (run events c).
Proof.
  induction events as [|e events IH]; intros c Hc Hgone Hfresh; [done|].
  apply (IH (step e c)).
  - by apply Consistent_step.
  - by apply Gone_step.
  - destruct Hgone as (_ & Hle & Hnone). destruct Hc as (_ & Hkeyed & _).
    by apply unsettled_step.
Qed.

(** X7: a response to a pending request whose [error] is [null]
    removes the entry and settles nothing, since reading the error's
    message throws inside the [try]; whatever happens afterwards, the
    promise of that request is never settled, and its timer finds no
    entry to reject: the caller waits for ever. *)
Theorem null_error_leaves_the_caller_waiting
    (before : list Event) (k : Z) (handler : Handler) (msg : JSON)
    (Hpending : pending (run before startedClient) !! k = Some handler)
    (Hmsg : NullError k msg) :
  let c := dispatch msg (run before startedClient) in
  pending c !! k = None
  ∧ settled c = settled (run before startedClient)
  ∧ ∀ events, (k ∉ settledIds (run events c))
              ∧ timeoutFires k (run events c) = run events c.
Proof.
  pose proof (Consistent_run before _ (Consistent_new true)) as Hc. simpl in Hc.
  set (c0 := run before startedClient) in *.
  destruct Hmsg as (props & -> & Hid & Hmethod & Herror).
  assert (dispatch (JObj props) c0 = setPending (delete k (pending c0)) c0) as Hdispatch.
  { unfold dispatch, hasProp. rewrite Hid, Hmethod, Herror. simpl. by rewrite Hpending. }
  cbv zeta. rewrite Hdispatch.
  assert (Consistent (setPending (delete k (pending c0)) c0)) as Hc'
    by by apply Consistent_unsettled.
  assert (Gone k (setPending (delete k (pending c0)) c0)) as Hgone.
  { destruct Hc' as (Hminted & _). destruct Hc as (Hminted0 & _).
    split; [done|]. split; [by apply (Hminted0 k handler)|].
    simpl. by rewrite lookup_delete_eq. }
  split; [simpl; by rewrite lookup_delete_eq|]. split; [done|].
  intros events. split.
  - apply unsettled_run; [done | done |].
    intros Hin. destruct Hc as (_ & _ & Hsettled & _).
    apply Hsettled in Hin as [_ Hnone]. congruence.
  - pose proof (Gone_run k events _ Hgone) as (_ & _ & Hnone).
    unfold timeoutFires. by rewrite Hnone.
Qed.

Lemma null_error_leaves_the_caller_waiting_witness :
  let c := dispatch nullErrorAnswer (run [Sends "textDocument/hover" None] startedClient) in
  pending c !! 1 = None
  ∧ settled c = settled (run [Sends "textDocument/hover" None] startedClient)
  ∧ ∀ events, (1 ∉ settledIds (run events c))
              ∧ timeoutFires 1 (run events c) = run events c.
Proof.
  apply (null_error_leaves_the_caller_waiting
           [Sends "textDocument/hover" None] 1 {| promise := 1 |} nullErrorAnswer).
  - reflexivity.
  - by eexists.
Defined.

Lemma silent_step (e : Event) (c : LSPClient) :
  proc c = false → proc (step e c) = false ∧ stdin (step e c) = stdin c.
Proof.
  intros Hproc. destruct e as [msg|id|method params]; simpl.
  - destruct (dispatch_cases msg c) as [|id result|k handler s Hk|k handler Hk]; try done.
    unfold respond. by rewrite Hproc.
  - unfold timeoutFires. by destruct (pending c !! id).
  - unfold send. by rewrite Hproc.
Qed.

(** X8: a client that holds no subprocess writes nothing: over any
    sequence of events its output stays as it was, and every [send]
    throws ["LSP client not started"]. *)
Theorem nothing_is_written_without_a_subprocess
    (c : LSPClient) (events : list Event) (Hproc : proc c = false) :
  stdin (run events c) = stdin c
  ∧ ∀ method params, send method params (run events c)
                     = inl (LspError "LSP client not started").
Proof.
  assert (proc (run events c) = false ∧ stdin (run events c) = stdin c) as [Hp Hs].
  { revert c Hproc. induction events as [|e events IH]; intros c Hproc; [done|].
    destruct (silent_step e c Hproc) as [Hp Hs].
    destruct (IH (step e c) Hp) as [Hp' Hs'].
    change (run (e :: events) c) with (run events (step e c)).
    split; [done | congruence]. }
  split; [done|]. intros method params. unfold send. by rewrite Hp.
Qed.

Lemma request_numbers_are_never_reused_witness :
  ∃ c2, send "shutdown" None (run [Arrives hoverAnswer; TimesOut 1] waitingClient)
        = inr (2, c2)
        ∧ 1 < 2.
Proof.
  eexists. split; [reflexivity|].
  eapply (request_numbers_are_never_reused startedClient waitingClient _
            [Arrives hoverAnswer; TimesOut 1] "textDocument/hover" "shutdown"
            None None 1 2); reflexivity.
Defined.

Lemma nothing_is_written_without_a_subprocess_witness :
  stdin (run [Sends "initialize" None; Arrives configurationRequest] newClient)
  = stdin newClient
  ∧ ∀ method params,
      send method params
        (run [Sends "initialize" None; Arrives configurationRequest] newClient)
      = inl (LspError "LSP client not started").
Proof.
  apply (nothing_is_written_without_a_subprocess newClient
           [Sends "initialize" None; Arrives configurationRequest]).
  reflexivity.
Defined.

End Settling.

(** ** The life of a client *)

Module Lifecycle.

Import Client Session Orchestration.
Local Open Scope list_scope.

Section Facts.

Variable root : string.
Variable server : Config.ResolvedServer.
Variable pid : Z.
Variable spawns : bool.
Variable subprocess : string -> Z -> Reaction.

Local Abbreviation awaitSend := (awaitSend subprocess).
Local Abbreviation initialize := (initialize root server pid subprocess).
Local Abbreviation stop := (stop subprocess).
Local Abbreviation start := (start spawns).

Lemma stop_stopped (c : LSPClient) :
  proc c = false → stop c = (Returns tt, setProc false c).
Proof.
  intros Hproc.
  unfold Session.stop, andThen, bind, tryCatch, perform, Session.awaitSend, send, kill.
  rewrite Hproc. simpl. by rewrite Hproc.
Qed.

Lemma stop_outcome (c : LSPClient) :
  (∃ c', stop c = (Returns tt, kill c')) ∨ (∃ c', stop c = (Hangs, c')).
Proof.
  unfold Session.stop, andThen, bind, tryCatch, perform.
  destruct (awaitSend _ _ c) as [[v|e|] c1]; simpl; eauto.
Qed.

(** X9: [stop] never throws; when it returns the client holds no
    subprocess, and a second [stop] returns at once and changes
    nothing. *)
Theorem stop_never_throws_and_stops_once (c : LSPClient) :
  match stop c with
  | (Returns _, c') => proc c' = false ∧ stop c' = (Returns tt, c')
  | (Throws _, _) => False
  | (Hangs, _) => True
  end.
Proof.
  destruct (stop_outcome c) as [[c' ->] | [c' ->]]; [|done].
  split; [reflexivity|]. by rewrite stop_stopped.
Qed.

(** X10: once [start] and [initialize] have returned, [withLspClient]
    ends as the operation did: it returns what the operation returned or
    throws what the operation threw, never an error of [stop], and the
    client holds no subprocess by then; or the call never ends. *)
Theorem operation_outcome_is_handed_back {T} (ext : string) (fn : Action T)
    (c1 : LSPClient)
    (Hready : (start ;;; initialize) newClient = (Returns tt, c1)) :
  match withLspClient root server pid spawns subprocess ext true fn with
  | (Hangs, _) => True
  | (outcome, c') => outcome = (fn c1).1 ∧ proc c' = false
  end.
Proof.
  unfold withLspClient. simpl negb. cbv iota. unfold andThen, bind in *.
  destruct (start newClient) as [[[]|e|] c0]; try discriminate.
  destruct (initialize c0) as [[[]|e|] c1']; try discriminate.
  injection Hready as ->. unfold tryFinally.
  destruct (fn c1) as [[t|e|] c2]; [| |done];
    by destruct (stop_outcome c2) as [[c' ->] | [c' ->]].
Qed.

End Facts.

Lemma operation_outcome_is_handed_back_witness :
  match withLspClient "/repo" pyright 4242 true obligingSubprocess ".py" true
          (fun c => (@Throws nat (Thrown "operation"), c)) with
  | (Hangs, _) => True
  | (outcome, c') => outcome = Throws (Thrown "operation") ∧ proc c' = false
  end.
Proof.
  apply (operation_outcome_is_handed_back "/repo" pyright 4242 true obligingSubprocess
           ".py" (fun c => (@Throws nat (Thrown "operation"), c))
           ((start true ;;; initialize "/repo" pyright 4242 obligingSubprocess)
              newClient).2).
  reflexivity.
Defined.

End Lifecycle.

(** ** Documents *)

Module Documents.

Import Client Session Dispatch Operations.
Local Open Scope list_scope.

Lemma announcedUris_write (msg : JSON) (c : LSPClient) :
  announcedUris (write msg c)
  = announcedUris c ++ match didOpenUri msg with Some uri => [uri] | None => [] end.
Proof.
  unfold announcedUris. simpl. rewrite omap_app. simpl.
  by destruct (didOpenUri msg).
Qed.

Lemma Announced_respond (id result : JSON) (c : LSPClient) :
  Announced c → Announced (respond id result c).
Proof.
  intros Hc. destruct (respond_cases id result c) as [-> | ->]; [done|].
  unfold Announced. rewrite announcedUris_write. simpl. by rewrite app_nil_r.
Qed.

Lemma Announced_dispatch (msg : JSON) (c : LSPClient) :
  Announced c → Announced (dispatch msg c).
Proof.
  intros Hc. destruct (dispatch_cases msg c) as [|id result|k handler s Hk|k handler Hk];
    [done | by apply Announced_respond | done | done].
Qed.

Lemma Announced_timeoutFires (id : Z) (c : LSPClient) :
  Announced c → Announced (timeoutFires id c).
Proof. intros Hc. unfold timeoutFires. by destruct (pending c !! id). Qed.

Lemma didOpenUri_request (id : Z) (method : string) (params : option JSON) :
  String.eqb method "textDocument/didOpen" = false →
  didOpenUri (requestMessage id method params) = None.
Proof.
  intros Hmethod. unfold didOpenUri, requestMessage. simpl. rewrite Hmethod.
  by destruct params as [[]|].
Qed.

Section Facts.

Variable resolve : string -> string.
Variable extname : string -> string.
Variable readFileSync : string -> option string.
Variable EXT_TO_LANG : string -> option string.
Variable subprocess : string -> Z -> Reaction.

Lemma Announced_awaitSend (method : string) (params : option JSON) (c : LSPClient) :
  String.eqb method "textDocument/didOpen" = false →
  Announced c → Announced (awaitSend subprocess method params c).2.
Proof.
  intros Hmethod Hc. unfold awaitSend, send.
  destruct (negb (proc c)); [done|].
  match goal with
  | |- context [timeoutFires ?i ?x] => assert (Announced (timeoutFires i x)) as Hnext
  end.
  { apply Announced_timeoutFires.
    assert (Announced (setPending (<[(requestId c + 1)%Z := {| promise := (requestId c + 1)%Z |}]>
                         (pending (write (requestMessage (requestId c + 1) method params)
                                     (setRequestId (requestId c + 1) c))))
                         (write (requestMessage (requestId c + 1) method params)
                            (setRequestId (requestId c + 1) c)))) as Hsent.
    { unfold Announced.
      change (announcedUris (setPending ?p ?x)) with (announcedUris x).
      rewrite announcedUris_write, (didOpenUri_request _ _ _ Hmethod), app_nil_r.
      exact Hc. }
    destruct (subprocess method (requestId c + 1)); [by apply Announced_dispatch | done]. }
  by destruct (settlementOf _ _) as [[v|e]|].
Qed.

Lemma Announced_openFile (filePath : string) (c : LSPClient) :
  Announced c → Announced (openFile resolve extname readFileSync EXT_TO_LANG filePath c).2.
Proof.
  intros [Hnodup Hopened]. unfold openFile.
  case_bool_decide as Hin; [done|].
  destruct (readFileSync (resolve filePath)) as [text|]; [|done].
  simpl. unfold notify. destruct (negb (proc c)).
  - split; [done|]. intros uri Huri. destruct (Hopened uri Huri) as (p & -> & Hp).
    exists p. split; [done|]. simpl. set_solver.
  - unfold Announced. change (announcedUris (addOpened ?p ?x)) with (announcedUris x).
    rewrite announcedUris_write. simpl. split.
    + apply NoDup_app. split; [done|]. split; [|apply NoDup_singleton].
      intros uri Huri Hnew. apply list_elem_of_singleton in Hnew as ->.
      destruct (Hopened _ Huri) as (p & Heq & Hp).
      cbv [String.append] in Heq. injection Heq as <-. done.
    + intros uri. rewrite elem_of_app. intros [Huri | Huri].
      * destruct (Hopened uri Huri) as (p & -> & Hp).
        exists p. split; [done|]. simpl. set_solver.
      * apply list_elem_of_singleton in Huri as ->.
        exists (resolve filePath). split; [done|]. simpl. set_solver.
Qed.

Lemma Announced_operate (op : Operation) (c : LSPClient) :
  Announced c →
  Announced (operate resolve extname readFileSync EXT_TO_LANG subprocess op c).2.
Proof.
  intros Hc.
  destruct op; simpl;
    unfold hover, definition, references, documentSymbols, workspaceSymbols, diagnostics,
      andThen, bind;
    try (by apply Announced_awaitSend);
    match goal with
    | |- context [openFile _ _ _ _ ?p c] =>
        pose proof (Announced_openFile p c Hc) as Hopen;
        destruct (openFile resolve extname readFileSync EXT_TO_LANG p c) as [[[]|e|] c1];
        simpl in *; try done; by apply Announced_awaitSend
    end.
Qed.

(** X11: a document is announced at most once: over any sequence of
    operations on a client, no two [textDocument/didOpen] notifications
    written to the subprocess carry the same uri. *)
Theorem a_document_is_announced_at_most_once (ops : list Operation) (c : LSPClient)
    (Hfresh : announcedUris c = []) :
  NoDup (announcedUris
           (operateAll resolve extname readFileSync EXT_TO_LANG subprocess ops c)).
Proof.
  assert (Announced c) as Hc.
  { split; rewrite Hfresh; [constructor | by intros uri Huri%elem_of_nil]. }
  clear Hfresh. revert c Hc. induction ops as [|op ops IH]; intros c Hc; [apply Hc|].
  apply (IH _ (Announced_operate op c Hc)).
Qed.

End Facts.

Lemma a_document_is_announced_at_most_once_witness :
  NoDup (announcedUris
           (operateAll (fun p => p) noExtension readsPass noLanguages obligingSubprocess
              [Hover "/repo/a.py" 3 0; Definition_ "/repo/a.py" 3 0;
               Diagnostics "/repo/b.py"]
              startedClient)).
Proof.
  apply (a_document_is_announced_at_most_once (fun p => p) noExtension readsPass
           noLanguages obligingSubprocess
           [Hover "/repo/a.py" 3 0; Definition_ "/repo/a.py" 3 0; Diagnostics "/repo/b.py"]
           startedClient).
  reflexivity.
Defined.

End Documents.

(** ** The listing of servers *)

Module Catalogue.

Import Config Listing Registry.
Local Open Scope list_scope.

Lemma collectUserServers_key (entries : list (string * OpencodeJsonLspEntry))
    (key : string) (server : ResolvedServer) :
  (key, server) ∈ collectUserServers entries →
  Config.id server = key
  ∧ ∃ entry, (key, entry) ∈ entries ∧ isDisabled entry = false.
Proof.
  induction entries as [|[k e] rest IH]; simpl; [by intros ?%elem_of_nil|].
  assert ((key, server) ∈ collectUserServers rest →
          Config.id server = key
          ∧ ∃ entry, (key, entry) ∈ (k, e) :: rest ∧ isDisabled entry = false) as Hrest.
  { intros Hin. destruct (IH Hin) as (Hid & entry & Hentry & Hd).
    split; [done|]. exists entry. split; [by right | done]. }
  destruct (isDisabled e) eqn:Hd; [done|].
  destruct (entry_command e) as [cmd|]; [|done].
  destruct (entry_extensions e) as [exts|]; [|done].
  intros [Heq | Hin]%elem_of_cons; [|by apply Hrest].
  injection Heq as -> ->. split; [done|]. exists e. split; [by left | done].
Qed.

Lemma collectUserServers_keys (entries : list (string * OpencodeJsonLspEntry)) :
  List.map fst (collectUserServers entries) `sublist_of` List.map fst entries.
Proof.
  induction entries as [|[k e] rest IH]; simpl; [done|].
  destruct (isDisabled e); [by apply sublist_cons|].
  destruct (entry_command e) as [cmd|]; [|by apply sublist_cons].
  destruct (entry_extensions e) as [exts|]; [|by apply sublist_cons].
  simpl. by apply sublist_skip.
Qed.

Lemma collectDisabledOrder_elem (entries : list (string * OpencodeJsonLspEntry))
    (acc : list string) (id : string) :
  id ∈ collectDisabledOrder entries acc
  ↔ id ∈ acc ∨ ∃ entry, (id, entry) ∈ entries ∧ isDisabled entry = true.
Proof.
  revert acc. induction entries as [|[k e] rest IH]; intros acc; simpl.
  - split; [by left | intros [H | (e & Hin%elem_of_nil & _)]; done].
  - rewrite IH. clear IH. split.
    + intros [Hacc | (e' & Hin & Hd)].
      * destruct (isDisabled e) eqn:Hd; [|by left].
        destruct (includes acc k); [by left|].
        apply elem_of_app in Hacc as [Hacc | ->%list_elem_of_singleton]; [by left|].
        right. exists e. split; [by left | done].
      * right. exists e'. split; [by right | done].
    + intros [Hacc | (e' & [Heq | Hin]%elem_of_cons & Hd)].
      * left. destruct (isDisabled e); [|done].
        destruct (includes acc k); [done|]. apply elem_of_app. by left.
      * injection Heq as -> ->. left. rewrite Hd.
        destruct (includes acc k) eqn:Hinc.
        -- apply includes_In in Hinc. by apply list_elem_of_In.
        -- apply elem_of_app. right. by apply list_elem_of_singleton.
      * right. by exists e'.
Qed.

Lemma elem_of_List_filter {A} (f : A → bool) (l : list A) (x : A) :
  x ∈ List.filter f l ↔ x ∈ l ∧ f x = true.
Proof. rewrite !list_elem_of_In. apply filter_In. Qed.

Lemma sublist_List_filter {A} (f : A → bool) (l : list A) :
  List.filter f l `sublist_of` l.
Proof.
  induction l as [|x l IH]; simpl; [done|].
  destruct (f x); [by apply sublist_skip | by apply sublist_cons].
Qed.

Lemma isDisabled_true (entry : OpencodeJsonLspEntry) :
  isDisabled entry = true ↔ entry_disabled entry = Some true.
Proof. unfold isDisabled. by destruct (entry_disabled entry) as [[|]|]. Qed.

Lemma disabledInOrder_elem (config : OpencodeJson) (id : string) :
  id ∈ disabledInOrder config ↔ DisabledByUser config id.
Proof.
  unfold disabledInOrder, DisabledByUser. destruct (lsp config) as [entries|].
  - rewrite collectDisabledOrder_elem. split.
    + intros [Hin%elem_of_nil | (entry & Hin & Hd)]; [done|].
      exists entries, entry. split; [done|].
      split; [by apply list_elem_of_In | by apply isDisabled_true].
    + intros (entries' & entry & [= <-] & Hin & Hd). right. exists entry.
      split; [by apply list_elem_of_In | by apply isDisabled_true].
  - split; [by intros ?%elem_of_nil | by intros (? & ? & ? & _)].
Qed.

Section Facts.

Variable config : OpencodeJson.
Variable BUILTIN_SERVERS : list (string * BuiltinServer).
Variable PATH : option string.
Variable existsSync : string -> bool.
Variable pathJoin : string -> string -> string.

Local Abbreviation userInfo := (userInfo PATH existsSync pathJoin).
Local Abbreviation disabledInfo := (disabledInfo BUILTIN_SERVERS PATH existsSync pathJoin).
Local Abbreviation builtinInfo := (builtinInfo PATH existsSync pathJoin).
Local Abbreviation listUserServer := (listUserServer PATH existsSync pathJoin).
Local Abbreviation listDisabled :=
  (listDisabled BUILTIN_SERVERS PATH existsSync pathJoin).
Local Abbreviation listBuiltin := (listBuiltin PATH existsSync pathJoin).
Local Abbreviation getAllServers :=
  (getAllServers config BUILTIN_SERVERS PATH existsSync pathJoin).

(** The first loop pushes every user server and marks its id as seen. *)
Lemma listUserServer_fold (servers : list (string * ResolvedServer)) :
  ∀ st,
    (fold_left listUserServer servers st).1
    = st.1 ++ List.map (fun kv => userInfo kv.2) servers
    ∧ ∀ x, x ∈ (fold_left listUserServer servers st).2
           ↔ x ∈ st.2 ∨ ∃ kv, kv ∈ servers ∧ Config.id kv.2 = x.
Proof.
  induction servers as [|kv servers IH]; intros st; simpl.
  - split; [by rewrite app_nil_r|]. intros x. split; [by left|].
    by intros [H | (kv & Hin%elem_of_nil & _)].
  - destruct (IH (listUserServer st kv)) as [-> Hseen]. split.
    + simpl. by rewrite <- app_assoc.
    + intros x. rewrite Hseen. simpl. rewrite elem_of_union, elem_of_singleton. split.
      * intros [[-> | Hx] | (kv' & Hin & Hid)].
        -- right. exists kv. split; [by left | done].
        -- by left.
        -- right. exists kv'. split; [by right | done].
      * intros [Hx | (kv' & [-> | Hin]%elem_of_cons & Hid)].
        -- left. by right.
        -- left. by left.
        -- right. by exists kv'.
Qed.

Lemma ownBuiltin_None (builtins : list (string * BuiltinServer)) (x : string) :
  ownBuiltin builtins x = None ↔ ∀ b, ¬ In (x, b) builtins.
Proof.
  induction builtins as [|[key b] rest IH]; simpl; [split; [intros _ b [] | done]|].
  destruct (String.eqb_spec key x) as [-> | Hne].
  - split; [done|]. intros Hnone. exfalso. apply (Hnone b). by left.
  - rewrite IH. split.
    + intros Hnone b' [[= ? ?] | Hin]; [done | by apply (Hnone b')].
    + intros Hnone b' Hin. apply (Hnone b'). by right.
Qed.

(** Building the element of a disabled id throws exactly when the id
    names a member of [Object.prototype] and no entry of the table. *)
Lemma disabledInfo_None (x : string) :
  disabledInfo x = None ↔ InheritedOnly BUILTIN_SERVERS x.
Proof.
  unfold Listing.disabledInfo, lookupBuiltin, InheritedOnly.
  rewrite <- ownBuiltin_None, <- includes_In.
  destruct (ownBuiltin BUILTIN_SERVERS x) as [b|].
  - split; [done | by intros [_ ?]].
  - destruct (includes OBJECT_PROTOTYPE x); [done|]. split; [done | by intros [? _]].
Qed.

Lemma disabledInfo_Some (x : string) (info : ServerInfo) :
  disabledInfo x = Some info → id info = x ∧ disabled info = true.
Proof.
  unfold Listing.disabledInfo.
  by destruct (lookupBuiltin BUILTIN_SERVERS x); intros [= <-].
Qed.

(** The second loop pushes each disabled id not yet seen, once, and
    throws at the first of them whose element cannot be built. *)
Lemma listDisabled_spec (ids : list string) :
  ∀ st,
    match listDisabled ids st with
    | Some st' =>
        ∃ pushed infos,
          st'.1 = st.1 ++ infos
          ∧ Forall2 (fun x info => disabledInfo x = Some info) pushed infos
          ∧ NoDup pushed
          ∧ (∀ x, x ∈ pushed ↔ x ∈ ids ∧ (x ∉ st.2))
          ∧ ∀ x, x ∈ st'.2 ↔ x ∈ st.2 ∨ x ∈ ids
    | None => ∃ x, x ∈ ids ∧ (x ∉ st.2) ∧ disabledInfo x = None
    end.
Proof.
  induction ids as [|i ids IH]; intros st.
  - exists [], []. split; [by rewrite app_nil_r|]. split; [constructor|].
    split; [constructor|]. split.
    + intros x. split; [by intros ?%elem_of_nil | by intros [?%elem_of_nil _]].
    + intros x. split; [by left | by intros [H | Hin%elem_of_nil]].
  - cbn [Listing.listDisabled]. case_bool_decide as Hi.
    + specialize (IH st).
      destruct (listDisabled ids st) as [st'|].
      * destruct IH as (pushed & infos & Hresult & Hinfos & Hnodup & Hpushed & Hseen).
        exists pushed, infos. split; [done|]. split; [done|]. split; [done|]. split.
        -- intros x. rewrite Hpushed, elem_of_cons. split; [by intros [? ?]; auto|].
           intros [[-> | Hx] Hfresh]; [done | by split].
        -- intros x. rewrite Hseen, elem_of_cons. split; [intros [?|?]; auto|].
           intros [? | [-> | ?]]; auto.
      * destruct IH as (x & Hx & Hfresh & Hnone). exists x. split; [by right | done].
    + destruct (disabledInfo i) as [info|] eqn:Hinfo;
        [|exists i; split; [by left | done]].
      specialize (IH (st.1 ++ [info], {[ i ]} ∪ st.2)).
      destruct (listDisabled ids _) as [st'|].
      * destruct IH as (pushed & infos & Hresult & Hinfos & Hnodup & Hpushed & Hseen).
        simpl in Hresult, Hpushed, Hseen.
        exists (i :: pushed), (info :: infos). split; [|split; [|split; [|split]]].
        -- rewrite Hresult. by rewrite <- app_assoc.
        -- by constructor.
        -- constructor; [|done]. rewrite Hpushed, elem_of_union, elem_of_singleton.
           intros [_ Hfresh]. apply Hfresh. by left.
        -- intros x. rewrite !elem_of_cons, Hpushed, elem_of_union, elem_of_singleton.
           split.
           ++ intros [-> | [Hx Hfresh]]; [by split; [left|]|].
              split; [by right|]. intros Hst. apply Hfresh. by right.
           ++ intros [[-> | Hx] Hfresh]; [by left|].
              destruct (decide (x = i)) as [-> | Hne]; [by left|].
              right. split; [done|]. by intros [? | ?].
        -- intros x. rewrite Hseen, elem_of_union, elem_of_singleton, elem_of_cons.
           split; [intros [[-> | ?] | ?]; auto | intros [? | [-> | ?]]; auto].
      * destruct IH as (x & Hx & Hfresh & Hnone). simpl in Hfresh.
        exists x. split; [by right|]. split; [|done].
        intros Hst. apply Hfresh. apply elem_of_union. by right.
Qed.

(** The third loop pushes each built-in not seen, and marks nothing. *)
Lemma listBuiltin_fold (builtins : list (string * BuiltinServer)) :
  ∀ st,
    (fold_left listBuiltin builtins st).1
    = st.1 ++ List.map (fun kv => builtinInfo kv.1 kv.2)
                (List.filter (fun kv => negb (bool_decide (kv.1 ∈ st.2))) builtins).
Proof.
  induction builtins as [|kv builtins IH]; intros st; simpl.
  - by rewrite app_nil_r.
  - rewrite IH. unfold Listing.listBuiltin. case_bool_decide as Hkv; simpl; [done|].
    by rewrite <- app_assoc.
Qed.

Lemma getUserLspServers_key (key : string) (server : ResolvedServer) :
  (key, server) ∈ getUserLspServers config →
  Config.id server = key
  ∧ ∃ entries entry, lsp config = Some entries ∧ (key, entry) ∈ entries
                     ∧ isDisabled entry = false.
Proof.
  unfold getUserLspServers. destruct (lsp config) as [entries|];
    [|by intros ?%elem_of_nil].
  intros (Hid & entry & Hin & Hd)%collectUserServers_key.
  split; [done|]. by exists entries, entry.
Qed.

Lemma seen_users (x : string) :
  x ∈ (fold_left listUserServer (getUserLspServers config) ([], ∅)).2
  ↔ Shadowed config x.
Proof.
  destruct (listUserServer_fold (getUserLspServers config) ([], ∅)) as [_ ->].
  unfold Shadowed. simpl. split.
  - intros [Hx%elem_of_empty | ([key server] & Hin & <-)]; [done|].
    destruct (getUserLspServers_key _ _ Hin) as [Hid _]. simpl in *.
    exists server. apply list_elem_of_In. by rewrite Hid.
  - intros (server & Hin%list_elem_of_In). right. exists (x, server).
    split; [done|]. by destruct (getUserLspServers_key _ _ Hin).
Qed.

(** What [getAllServers] does: it returns the user servers, then the
    disabled ids that no user server carries, then the built-ins that
    are neither; or it throws, at a disabled id that no user server
    carries and whose element cannot be built. *)
Lemma getAllServers_outcome :
  match getAllServers with
  | Some listing =>
      ∃ pushed infos (seen : gset string),
        listing
        = List.map (fun kv => userInfo kv.2) (getUserLspServers config)
          ++ infos
          ++ List.map (fun kv => builtinInfo kv.1 kv.2)
               (List.filter (fun kv => negb (bool_decide (kv.1 ∈ seen))) BUILTIN_SERVERS)
        ∧ Forall2 (fun x info => disabledInfo x = Some info) pushed infos
        ∧ NoDup pushed
        ∧ (∀ x, x ∈ pushed ↔ DisabledByUser config x ∧ ¬ Shadowed config x)
        ∧ ∀ x, x ∈ seen ↔ Shadowed config x ∨ DisabledByUser config x
  | None =>
      ∃ x, DisabledByUser config x ∧ ¬ Shadowed config x ∧ disabledInfo x = None
  end.
Proof.
  unfold Listing.getAllServers.
  pose proof (listDisabled_spec (disabledInOrder config)
                (fold_left listUserServer (getUserLspServers config) ([], ∅))) as Hsecond.
  destruct (listDisabled _ _) as [st'|].
  - destruct Hsecond as (pushed & infos & Hresult & Hinfos & Hnodup & Hpushed & Hseen).
    exists pushed, infos, st'.2. split; [|split; [done|split; [done|split]]].
    + rewrite listBuiltin_fold, Hresult.
      destruct (listUserServer_fold (getUserLspServers config) ([], ∅)) as [-> _].
      simpl. by rewrite <- app_assoc.
    + intros x. by rewrite Hpushed, disabledInOrder_elem, seen_users.
    + intros x. by rewrite Hseen, disabledInOrder_elem, seen_users.
  - destruct Hsecond as (x & Hx & Hfresh & Hnone). exists x.
    split; [by apply disabledInOrder_elem|]. split; [|done].
    by rewrite <- seen_users.
Qed.

(** With plain ids the listing is returned. *)
Lemma getAllServers_returns :
  PlainIds config BUILTIN_SERVERS → is_Some getAllServers.
Proof.
  intros Hplain. pose proof getAllServers_outcome as Houtcome.
  destruct getAllServers as [listing|]; [done|].
  destruct Houtcome as (x & Hd & _ & Hnone%disabledInfo_None).
  by destruct (Hplain x Hd).
Qed.

Lemma Forall2_elem_r {A B} (P : A → B → Prop) (l : list A) (k : list B) (y : B) :
  Forall2 P l k → y ∈ k → ∃ x, x ∈ l ∧ P x y.
Proof.
  induction 1 as [|x y' l k Hxy _ IH]; [by intros ?%elem_of_nil|].
  intros [-> | Hin]%elem_of_cons.
  - exists x. split; [by left | done].
  - destruct (IH Hin) as (x' & Hx' & HP). exists x'. split; [by right | done].
Qed.

Lemma Forall2_elem_l {A B} (P : A → B → Prop) (l : list A) (k : list B) (x : A) :
  Forall2 P l k → x ∈ l → ∃ y, y ∈ k ∧ P x y.
Proof.
  induction 1 as [|x' y l k Hxy _ IH]; [by intros ?%elem_of_nil|].
  intros [-> | Hin]%elem_of_cons.
  - exists y. split; [by left | done].
  - destruct (IH Hin) as (y' & Hy' & HP). exists y'. split; [by right | done].
Qed.

(** The elements of a listing that is returned, loop by loop. *)
Lemma getAllServers_elem (listing : list ServerInfo) (info : ServerInfo) :
  getAllServers = Some listing →
  info ∈ listing
  ↔ (∃ key server, (key, server) ∈ getUserLspServers config ∧ info = userInfo server)
    ∨ (∃ x, DisabledByUser config x ∧ ¬ Shadowed config x
            ∧ disabledInfo x = Some info)
    ∨ (∃ key b, (key, b) ∈ BUILTIN_SERVERS ∧ ¬ Shadowed config key
                ∧ ¬ DisabledByUser config key ∧ info = builtinInfo key b).
Proof.
  intros Hlisting. pose proof getAllServers_outcome as Houtcome.
  rewrite Hlisting in Houtcome.
  destruct Houtcome as (pushed & infos & seen & -> & Hinfos & _ & Hpushed & Hseen).
  rewrite !elem_of_app, !list_elem_of_fmap.
  split.
  - intros [([key server] & -> & Hin) | [Hin | ([key b] & -> & Hin)]].
    + left. by exists key, server.
    + right. left. destruct (Forall2_elem_r _ _ _ _ Hinfos Hin) as (x & Hx & Hinfo).
      exists x. apply Hpushed in Hx as [? ?]. by split.
    + right. right. apply elem_of_List_filter in Hin as [Hin Hfresh].
      apply negb_true_iff, bool_decide_eq_false in Hfresh. rewrite Hseen in Hfresh.
      exists key, b. split; [done|]. split; [|split; [|done]]; intros ?; apply Hfresh; auto.
  - intros [(key & server & Hin & ->) | [(x & Hd & Hs & Hinfo) | (key & b & Hin & Hs & Hd & ->)]].
    + left. by exists (key, server).
    + right. left.
      destruct (Forall2_elem_l _ _ _ x Hinfos) as (info' & Hin' & Hinfo');
        [by apply Hpushed|].
      by assert (info' = info) as <- by congruence.
    + right. right. exists (key, b). split; [done|].
      apply elem_of_List_filter. split; [done|].
      apply negb_true_iff, bool_decide_eq_false. rewrite Hseen. by intros [? | ?].
Qed.

(** X12: where no id that the configuration disables names a member
    of [Object.prototype] that the table lacks, [getAllServers] returns
    a listing, and a server that [findServerForExtension] returns for an
    extension is in it, under its id and with its extensions, shown as
    installed and not disabled. *)
Theorem a_server_found_is_listed_as_installed (ext : string) (server : ResolvedServer)
    (Hplain : PlainIds config BUILTIN_SERVERS)
    (Hfound : findServerForExtension config BUILTIN_SERVERS PATH existsSync pathJoin ext
              = Some server) :
  ∃ listing info,
    getAllServers = Some listing
    ∧ info ∈ listing
    ∧ id info = Config.id server
    ∧ extensions info = Config.extensions server
    ∧ ext ∈ extensions info
    ∧ installed info = true
    ∧ disabled info = false.
Proof.
  destruct (getAllServers_returns Hplain) as [listing Hlisting].
  exists listing. unfold findServerForExtension in Hfound.
  pose proof (findUserServer_first PATH existsSync pathJoin (getUserLspServers config) ext)
    as Huser.
  destruct (findUserServer _ _ _ _ ext) as [s|].
  - injection Hfound as ->.
    destruct Huser as (before & key & after & Hservers & [Hext Hinst] & _).
    exists (userInfo server).
    split; [done|]. split; [|split; [done|split; [done|split; [|split; [|done]]]]].
    + apply (getAllServers_elem listing _ Hlisting). left. exists key, server.
      split; [|done]. rewrite Hservers. apply elem_of_app. right. by left.
    + by apply list_elem_of_In.
    + by apply isServerInstalled_Installed.
  - pose proof (findBuiltinServer_first config PATH existsSync pathJoin BUILTIN_SERVERS ext)
      as Hbuiltin.
    rewrite Hfound in Hbuiltin.
    destruct Hbuiltin as (before & key & b & after & Hbuiltins & -> & (Hd & Hs & Hext & Hinst) & _).
    exists (builtinInfo key b).
    split; [done|]. split; [|split; [done|split; [done|split; [|split; [|done]]]]].
    + apply (getAllServers_elem listing _ Hlisting). right. right. exists key, b.
      split; [|done]. rewrite Hbuiltins. apply elem_of_app. right. by left.
    + by apply list_elem_of_In.
    + by apply isServerInstalled_Installed.
Qed.

Lemma same_key_same_entry {V} (entries : list (string * V)) (key : string) (v1 v2 : V) :
  NoDup (List.map fst entries) → (key, v1) ∈ entries → (key, v2) ∈ entries → v1 = v2.
Proof.
  induction entries as [|[k v] rest IH]; simpl; [by intros _ ?%elem_of_nil|].
  intros [Hk Hrest]%NoDup_cons [H1 | H1]%elem_of_cons [H2 | H2]%elem_of_cons.
  - congruence.
  - injection H1 as -> ->. exfalso. apply Hk.
    apply list_elem_of_fmap. by exists (k, v2).
  - injection H2 as -> ->. exfalso. apply Hk.
    apply list_elem_of_fmap. by exists (k, v1).
  - by apply IH.
Qed.

(** With distinct keys, no user server carries a disabled id. *)
Lemma disabled_not_shadowed (x : string) :
  DistinctKeys config → DisabledByUser config x → ¬ Shadowed config x.
Proof.
  intros Hkeys (entries & entry & Hlsp & Hentry%list_elem_of_In & Hdisabled)
    (server & Hin%list_elem_of_In).
  destruct (getUserLspServers_key _ _ Hin) as (_ & entries' & entry' & Hlsp' & Hentry' & Hd).
  assert (entries' = entries) as -> by congruence.
  rewrite (same_key_same_entry entries x entry' entry (Hkeys _ Hlsp) Hentry' Hentry) in Hd.
  apply isDisabled_true in Hdisabled. congruence.
Qed.

(** X14: with the keys of the configuration distinct, as those of an
    object are, and none of the disabled ids a member of
    [Object.prototype] that the table lacks, [getAllServers] returns a
    listing, and the listing shows a server as disabled exactly when the
    configuration disables its id. *)
Theorem listed_as_disabled_iff_disabled_by_user
    (Hkeys : DistinctKeys config)
    (Hplain : PlainIds config BUILTIN_SERVERS) :
  ∃ listing,
    getAllServers = Some listing
    ∧ ∀ info, info ∈ listing →
        (disabled info = true ↔ DisabledByUser config (id info)).
Proof.
  destruct (getAllServers_returns Hplain) as [listing Hlisting].
  exists listing. split; [done|]. intros info Hlisted.
  apply (getAllServers_elem listing _ Hlisting) in Hlisted
    as [(key & server & Hin & ->) | [(x & Hd & Hs & Hinfo) | (key & b & Hin & Hs & Hd & ->)]];
    simpl.
  - split; [done|]. intros Hdisabled. exfalso.
    apply (disabled_not_shadowed _ Hkeys Hdisabled).
    exists server. apply list_elem_of_In.
    destruct (getUserLspServers_key _ _ Hin) as [-> _]. done.
  - by destruct (disabledInfo_Some _ _ Hinfo) as [-> ->].
  - split; [done | by intros ?].
Qed.

(** X13: with the keys of the configuration and of the built-in
    table distinct, as those of an object are, and none of the disabled
    ids a member of [Object.prototype] that the table lacks,
    [getAllServers] returns a listing in which no id occurs twice. *)
Theorem listed_ids_are_distinct
    (Hkeys : DistinctKeys config)
    (Hbuiltins : NoDup (List.map fst BUILTIN_SERVERS))
    (Hplain : PlainIds config BUILTIN_SERVERS) :
  ∃ listing, getAllServers = Some listing ∧ NoDup (List.map id listing).
Proof.
  pose proof (getAllServers_returns Hplain) as [listing Hlisting].
  exists listing. split; [done|].
  pose proof getAllServers_outcome as Houtcome. rewrite Hlisting in Houtcome.
  destruct Houtcome as (pushed & infos & seen & -> & Hinfos & Hnodup & Hpushed & Hseen).
  assert (List.map id infos = pushed) as Hids.
  { clear -Hinfos. induction Hinfos as [|x info pushed infos Hinfo _ IH]; [done|].
    simpl. rewrite IH. by destruct (disabledInfo_Some _ _ Hinfo) as [-> _]. }
  rewrite !map_app, !map_map, Hids. simpl.
  assert (List.map (fun kv : string * ResolvedServer => Config.id kv.2)
            (getUserLspServers config)
          = List.map fst (getUserLspServers config)) as ->.
  { apply map_ext_in. intros [key server] Hin%list_elem_of_In.
    by destruct (getUserLspServers_key _ _ Hin). }
  apply NoDup_app. split; [|split; [|apply NoDup_app; split; [done|split]]].
  - unfold getUserLspServers, DistinctKeys in *.
    destruct (lsp config) as [entries|]; [|constructor].
    eapply sublist_NoDup; [by apply Hkeys | apply collectUserServers_keys].
  - intros x Hx. assert (Shadowed config x) as Hs.
    { apply list_elem_of_fmap in Hx as ([key server] & -> & Hin).
      exists server. by apply list_elem_of_In. }
    rewrite elem_of_app. intros [Hin | Hin].
    + by apply Hpushed in Hin as [_ ?].
    + apply list_elem_of_fmap in Hin as ([key b] & -> & Hin).
      apply elem_of_List_filter in Hin as [_ Hfresh].
      apply negb_true_iff, bool_decide_eq_false in Hfresh. apply Hfresh, Hseen. by left.
  - intros x Hx%Hpushed Hin. destruct Hx as [Hd _].
    apply list_elem_of_fmap in Hin as ([key b] & -> & Hin).
    apply elem_of_List_filter in Hin as [_ Hfresh].
    apply negb_true_iff, bool_decide_eq_false in Hfresh. apply Hfresh, Hseen. by right.
  - eapply sublist_NoDup; [exact Hbuiltins|].
    change (fun kv : string * BuiltinServer => kv.1) with (@fst string BuiltinServer).
    apply (fmap_sublist fst), sublist_List_filter.
Qed.

(** X21: with the keys of the configuration distinct, [getAllServers]
    throws exactly when the configuration disables an id that names a
    member of [Object.prototype] and no entry of the built-in table:
    for such an id [BUILTIN_SERVERS[id]] is the inherited member, and
    [isServerInstalled] reads the length of its missing command. *)
Theorem listing_throws_on_a_disabled_prototype_name
    (Hkeys : DistinctKeys config) :
  getAllServers = None
  ↔ ∃ x, DisabledByUser config x ∧ InheritedOnly BUILTIN_SERVERS x.
Proof.
  pose proof getAllServers_outcome as Houtcome. split.
  - intros Hthrows. rewrite Hthrows in Houtcome.
    destruct Houtcome as (x & Hd & _ & Hnone%disabledInfo_None). by exists x.
  - intros (x & Hd & Hinherited).
    destruct getAllServers as [listing|]; [|done]. exfalso.
    destruct Houtcome as (pushed & infos & seen & _ & Hinfos & _ & Hpushed & _).
    assert (x ∈ pushed) as Hx.
    { apply Hpushed. split; [done|]. by apply disabled_not_shadowed. }
    destruct (Forall2_elem_l _ _ _ x Hinfos Hx) as (info & _ & Hinfo).
    apply disabledInfo_None in Hinherited. congruence.
Qed.

End Facts.

Lemma exampleConfig_keys : DistinctKeys exampleConfig.
Proof.
  intros entries [= <-]. apply NoDup_cons_2; [|apply NoDup_singleton].
  by intros ?%list_elem_of_singleton.
Qed.

Lemma exampleConfig_plain : PlainIds exampleConfig onePython.
Proof.
  intros x (entries & entry & [= <-] & Hin & Hdisabled) [Hproto _].
  destruct Hin as [[= <- <-] | [[= <- <-] | []]]; [|discriminate].
  repeat (destruct Hproto as [Hproto | Hproto]; [discriminate|]). destruct Hproto.
Qed.

Lemma a_server_found_is_listed_as_installed_witness :
  ∃ listing info,
    getAllServers exampleConfig onePython (Some "/usr/bin") everythingExists
      joinWithSlash = Some listing
    ∧ info ∈ listing
    ∧ id info = "pyright"
    ∧ extensions info = [".py"]
    ∧ ".py" ∈ extensions info
    ∧ installed info = true
    ∧ disabled info = false.
Proof.
  apply (a_server_found_is_listed_as_installed exampleConfig onePython (Some "/usr/bin")
           everythingExists joinWithSlash ".py" Session.pyright).
  - exact exampleConfig_plain.
  - reflexivity.
Defined.

Lemma listed_ids_are_distinct_witness :
  ∃ listing,
    getAllServers exampleConfig onePython (Some "/usr/bin") everythingExists
      joinWithSlash = Some listing
    ∧ NoDup (List.map id listing).
Proof.
  apply (listed_ids_are_distinct exampleConfig onePython (Some "/usr/bin")
           everythingExists joinWithSlash).
  - exact exampleConfig_keys.
  - apply NoDup_singleton.
  - exact exampleConfig_plain.
Defined.

Lemma listed_as_disabled_iff_disabled_by_user_witness :
  ∃ listing,
    getAllServers exampleConfig onePython (Some "/usr/bin") everythingExists
      joinWithSlash = Some listing
    ∧ ∀ info, info ∈ listing →
        (disabled info = true ↔ DisabledByUser exampleConfig (id info)).
Proof.
  apply (listed_as_disabled_iff_disabled_by_user exampleConfig onePython
           (Some "/usr/bin") everythingExists joinWithSlash).
  - exact exampleConfig_keys.
  - exact exampleConfig_plain.
Defined.

Lemma constructorConfig_keys : DistinctKeys constructorConfig.
Proof. intros entries [= <-]. apply NoDup_singleton. Qed.

Lemma listing_throws_on_a_disabled_prototype_name_witness :
  getAllServers constructorConfig onePython (Some "/usr/bin") everythingExists
    joinWithSlash = None
  ↔ ∃ x, DisabledByUser constructorConfig x ∧ InheritedOnly onePython x.
Proof.
  apply (listing_throws_on_a_disabled_prototype_name constructorConfig onePython
           (Some "/usr/bin") everythingExists joinWithSlash).
  exact constructorConfig_keys.
Defined.

(** The listing at the configuration that disables ["constructor"]. *)
Example constructor_is_not_listed :
  getAllServers constructorConfig onePython (Some "/usr/bin") everythingExists
    joinWithSlash = None.
Proof. reflexivity. Qed.

End Catalogue.

(** ** The configuration cache *)

Module Caching.

Import Loader.
Local Open Scope list_scope.

Section Facts.

Variable configPath : string.
Variable JSON_parse : string -> option JSON.

Local Abbreviation loadOpencodeJson := (loadOpencodeJson configPath JSON_parse).
Local Abbreviation loadEach := (loadEach configPath JSON_parse).

(** X15: the configuration is read once: when the first call of
    [loadOpencodeJson] has returned an object, or any value that is not
    falsy, every later call returns that same value, whatever the file
    holds by then. *)
Theorem configuration_is_read_once
    (first : FileSystem) (later : list FileSystem) (config cached : JSON)
    (Hfirst : loadOpencodeJson first JNull = (config, cached))
    (Hconfig : truthyValue config = true) :
  loadEach later cached = repeat config (length later).
Proof.
  assert (cached = config) as ->.
  { unfold Loader.loadOpencodeJson in Hfirst. simpl in Hfirst.
    destruct (existsSync first configPath); [|congruence].
    destruct (readFileSync first configPath) as [content|]; [|congruence].
    destruct (JSON_parse content); congruence. }
  induction later as [|fs later IH]; [reflexivity|].
  simpl. unfold Loader.loadOpencodeJson. rewrite Hconfig. by rewrite IH.
Qed.

End Facts.

Lemma configuration_is_read_once_witness :
  loadEach "/home/me/.config/opencode/opencode.json" parsesToDisabled
    [withFile; withFile] (JObj [])
  = repeat (JObj []) 2.
Proof.
  apply (configuration_is_read_once "/home/me/.config/opencode/opencode.json"
           parsesToDisabled noFile [withFile; withFile] (JObj []) (JObj []));
    reflexivity.
Defined.

End Caching.

(** ** The outline of a document *)

Module Outline.

Import Utils Format.
Local Open Scope string_scope.

Lemma append_assoc (a b c : string) : (a ++ b) ++ c = a ++ b ++ c.
Proof.
  induction a as [|x a IH]; [done|].
  cbv [String.append] in *. fold String.append in *. by rewrite IH.
Qed.

Lemma append_nil_r (a : string) : a ++ "" = a.
Proof.
  induction a as [|x a IH]; [done|].
  cbv [String.append] in *. fold String.append in *. by rewrite IH.
Qed.

Lemma join_cons (sep p : string) (rest : list string) :
  rest ≠ [] → join sep (p :: rest) = p ++ sep ++ join sep rest.
Proof. by destruct rest. Qed.

(** Joining two lists of lines. *)
Lemma join_app (sep : string) (l k : list string) :
  l ≠ [] → k ≠ [] →
  join sep (l ++ k)%list = join sep l ++ sep ++ join sep k.
Proof.
  intros Hl Hk. induction l as [|p l IH]; [done|].
  destruct l as [|q l].
  - simpl app. by rewrite join_cons.
  - change ((p :: q :: l) ++ k)%list with (p :: ((q :: l) ++ k))%list.
    rewrite !join_cons by done. rewrite IH by done. by rewrite !append_assoc.
Qed.

Lemma DocumentSymbol_induction (P : DocumentSymbol → Prop) :
  (∀ n k r s, P (Build_DocumentSymbol n k r s None)) →
  (∀ n k r s kids, Forall P kids → P (Build_DocumentSymbol n k r s (Some kids))) →
  ∀ symbol, P symbol.
Proof.
  intros Hnone Hsome. fix go 1. intros [n k r s [kids|]]; [|apply Hnone].
  apply Hsome. induction kids as [|kid kids IH]; constructor; [apply go | exact IH].
Qed.

Section Facts.

Variable SYMBOL_KIND_MAP : Z -> option string.

Local Abbreviation formatDocumentSymbol := (formatDocumentSymbol SYMBOL_KIND_MAP).
Local Abbreviation outline := (outline SYMBOL_KIND_MAP).
Local Abbreviation symbolLine := (symbolLine SYMBOL_KIND_MAP).

Lemma outline_nonempty (symbol : DocumentSymbol) (indent : nat) :
  outline symbol indent ≠ [].
Proof. by destruct symbol. Qed.

(** The loop over the children appends their outlines, line by line. *)
Lemma children_fold (kids : list DocumentSymbol) (indent : nat) :
  Forall (fun child => ∀ indent,
            formatDocumentSymbol child indent = join newline (outline child indent)) kids →
  ∀ lines, lines ≠ [] →
    fold_left
      (fun result child => result ++ newline ++ formatDocumentSymbol child (S indent))
      kids (join newline lines)
    = join newline (lines ++ flat_map (fun child => outline child (S indent)) kids)%list.
Proof.
  induction 1 as [|child kids Hchild _ IH]; intros lines Hlines; simpl.
  - by rewrite app_nil_r.
  - rewrite Hchild, <- join_app by (done || apply outline_nonempty).
    rewrite IH by (by destruct lines). by rewrite <- app_assoc.
Qed.

(** X16: [formatDocumentSymbol] prints the outline of a symbol: one
    line per symbol of the tree, a symbol before its children and the
    children in order, each line indented by two spaces per level below
    the starting indent, the lines joined by newlines. *)
Theorem document_symbols_print_as_an_outline (symbol : DocumentSymbol) (indent : nat) :
  formatDocumentSymbol symbol indent = join newline (outline symbol indent).
Proof.
  revert indent. induction symbol as [n k r s|n k r s kids IH] using DocumentSymbol_induction;
    intros indent; [reflexivity|].
  destruct kids as [|kid kids]; [reflexivity|].
  exact (children_fold (kid :: kids) indent IH
           [symbolLine (Build_DocumentSymbol n k r s (Some (kid :: kids))) indent]
           ltac:(done)).
Qed.

End Facts.

End Outline.

(** ** Severities *)

Module Severities.

Import Utils Format.
Local Open Scope string_scope.

Section Facts.

Variable SEVERITY_MAP : Z -> option string.

(** The table of [constants.ts] names each severity as the filter of
    [utils.ts] does. *)
Hypothesis SEVERITY_MAP_names :
  ∀ name n, severityMap name = Some n → SEVERITY_MAP n = Some (filterName name).

(** X17: where the table names the severities as the filter does, a
    diagnostic that passes the filter for a severity is printed by
    [formatDiagnostic] as a line that starts with that severity's
    name. *)
Theorem filtered_diagnostics_print_the_filter_name
    (diagnostics : list Diagnostic) (name : SeverityFilter) (d : Diagnostic)
    (Hname : name ≠ all)
    (Hkept : In d (filterDiagnosticsBySeverity diagnostics (Some name))) :
  ∃ rest, formatDiagnostic SEVERITY_MAP d = filterName name ++ rest.
Proof.
  assert (∃ n, severityMap name = Some n ∧ n ≠ 0%Z ∧ severity d = Some n)
    as (n & Hn & Hnonzero & Hseverity).
  { destruct name; try done; simpl in Hkept;
      apply filter_In in Hkept as [_ Heq]; unfold strictEqNum in Heq;
      destruct (severity d) as [m|]; try discriminate;
      apply Z.eqb_eq in Heq as ->; eexists; (split; [reflexivity|]); by split. }
  unfold formatDiagnostic, formatSeverity. rewrite Hseverity.
  apply Z.eqb_neq in Hnonzero as ->.
  rewrite (SEVERITY_MAP_names name n Hn).
  assert (orElse (Some (filterName name)) ("unknown(" ++ showNumber n ++ ")")
          = filterName name) as -> by by destruct name.
  eexists. reflexivity.
Qed.

End Facts.

Lemma filtered_diagnostics_print_the_filter_name_witness :
  ∃ rest, formatDiagnostic protocolSeverities rated = "error" ++ rest.
Proof.
  apply (filtered_diagnostics_print_the_filter_name protocolSeverities)
    with (diagnostics := [rated; unrated]) (name := error).
  - by intros [] n [= <-].
  - discriminate.
  - left. reflexivity.
Defined.

End Severities.

(** ** Writing and reading back *)

Module RoundTrip.

Import Wire Client Stream Output Framing.
Local Open Scope list_scope.

Lemma uintDigits_parse (d : Decimal.uint) :
  ∀ acc, fold_left (fun n x => (10 * n + (x - 48))%Z) (uintDigits d) (Z.of_nat acc)
         = Z.of_nat (Nat.of_uint_acc d acc).
Proof.
  induction d as [|d IH|d IH|d IH|d IH|d IH|d IH|d IH|d IH|d IH|d IH]; intros acc;
    [reflexivity|..]; cbn [uintDigits fold_left Nat.of_uint_acc];
    rewrite <- IH; f_equal; rewrite Nat.tail_mul_spec; lia.
Qed.

Lemma uintDigits_range (d : Decimal.uint) :
  Forall (fun x => (48 <= x <= 57)%Z) (uintDigits d).
Proof. induction d; simpl; constructor; (lia || done). Qed.

Lemma byteLengthDigits_parse (n : nat) : parseInt (byteLengthDigits n) = Z.of_nat n.
Proof.
  unfold parseInt, byteLengthDigits.
  change 0%Z with (Z.of_nat 0). rewrite uintDigits_parse.
  change (Nat.of_uint_acc (Nat.to_uint n) 0) with (Nat.of_uint (Nat.to_uint n)).
  by rewrite Unsigned.of_to.
Qed.

Lemma byteLengthDigits_digits (n : nat) : Digits (byteLengthDigits n).
Proof.
  split; [|apply uintDigits_range]. unfold byteLengthDigits.
  destruct (Nat.to_uint n) eqn:Hn; try discriminate.
  pose proof (Unsigned.of_to n) as Hback. rewrite Hn in Hback.
  subst n. discriminate.
Qed.

Lemma writtenFrame_complete (msg : list Z) : CompleteWith CRLFCRLF (writtenFrame msg).
Proof.
  split; [|reflexivity]. split; [apply byteLengthDigits_digits|].
  apply byteLengthDigits_parse.
Qed.

Lemma findSequence_prefix_none (front back needle : list Z) :
  findSequence (front ++ back) needle = None → findSequence front needle = None.
Proof.
  intros Hnone.
  pose proof (Search.findSequenceFrom_first front needle 0) as Hfront.
  pose proof (Search.findSequenceFrom_first (front ++ back) needle 0) as Hall.
  unfold findSequence in *. rewrite Hnone in Hall.
  destruct (findSequenceFrom 0 front needle) as [e|]; [|done].
  destruct Hfront as (k & _ & (before & after & -> & Hk) & _).
  exfalso. apply (Hall k). exists before, (after ++ back).
  split; [by rewrite <- !app_assoc | done].
Qed.

Section Reader.

Variable JSON_parse : list Z -> option JSON.

(** X18: what the client writes, it reads back: the frames that
    [send], [notify] and [respond] write for any messages, delivered in
    chunks cut anywhere, are extracted by the read loop as those
    messages, in order, and the buffer is left empty. *)
Theorem written_frames_are_read_back
    (c : LSPClient) (msgs : list (list Z)) (chunks : list (list Z))
    (Hempty : buffer c = [])
    (Hstream : concat chunks = written msgs) :
  ∃ c', readChunks JSON_parse chunks [] c = Some (msgs, c') ∧ buffer c' = [].
Proof.
  destruct (Reading.readChunks_crlf JSON_parse chunks (List.map writtenFrame msgs) [] c)
    as (c' & Hread & Hbuffer).
  - apply Forall_forall. intros f (msg & -> & _)%list_elem_of_fmap. apply writtenFrame_complete.
  - by rewrite Hempty.
  - by rewrite Hempty.
  - exists c'. split; [|done]. rewrite Hread. simpl. rewrite map_map. simpl.
    by rewrite map_id.
Qed.

(** X19: bytes in which ["Content-Length:"] does not occur, spelled
    so, are never extracted nor dropped: however many chunks of them
    arrive, the read loop extracts nothing, writes nothing, settles
    nothing and keeps every byte in the buffer. *)
Theorem bytes_without_the_header_name_pile_up
    (c : LSPClient) (chunks : list (list Z))
    (Hnone : findSequence (buffer c ++ concat chunks) CONTENT_LENGTH = None) :
  ∃ c', readChunks JSON_parse chunks [] c = Some ([], c')
        ∧ buffer c' = buffer c ++ concat chunks
        ∧ stdin c' = stdin c
        ∧ settled c' = settled c.
Proof.
  revert c Hnone. induction chunks as [|chunk chunks IH]; intros c Hnone.
  - exists c. simpl. by rewrite app_nil_r.
  - simpl in Hnone. rewrite app_assoc in Hnone.
    destruct (IH (setBuffer (buffer c ++ chunk) c) Hnone)
      as (c' & Hread & Hbuffer & Hstdin & Hsettled).
    exists c'. split; [|split; [|done]].
    + simpl. unfold receive, processBuffer. rewrite Reading.processLoop_S.
      change (buffer (setBuffer (buffer c ++ chunk) c)) with (buffer c ++ chunk).
      unfold scanFrame. by rewrite (findSequence_prefix_none _ _ _ Hnone).
    + simpl. by rewrite app_assoc.
Qed.

End Reader.

Lemma written_frames_are_read_back_witness :
  concat fiveChunks = written [[91; 93]; [110; 117; 108; 108]]%Z
  ∧ ∃ c', readChunks (fun _ => None) fiveChunks [] startedClient
          = Some ([[91; 93]; [110; 117; 108; 108]]%Z, c')
          ∧ buffer c' = [].
Proof.
  split; [reflexivity|].
  apply (written_frames_are_read_back (fun _ => None) startedClient
           [[91; 93]; [110; 117; 108; 108]]%Z fiveChunks); reflexivity.
Defined.

Lemma bytes_without_the_header_name_pile_up_witness :
  ∃ c', readChunks (fun _ => None) [lowerCaseFrame; lowerCaseFrame] [] startedClient
        = Some ([], c')
        ∧ buffer c' = buffer startedClient ++ concat [lowerCaseFrame; lowerCaseFrame]
        ∧ stdin c' = stdin startedClient
        ∧ settled c' = settled startedClient.
Proof.
  apply (bytes_without_the_header_name_pile_up (fun _ => None) startedClient
           [lowerCaseFrame; lowerCaseFrame]).
  reflexivity.
Defined.

End RoundTrip.

(** ** The handshake *)

Module Handshake.

Import Client Session Initialization.
Local Open Scope list_scope.

Lemma getProp_app (key : string) (front back : list (string * JSON)) :
  getProp key (front ++ back)
  = match getProp key front with
    | Some v => Some v
    | None => getProp key back
    end.
Proof.
  induction front as [|[k v] front IH]; [done|].
  simpl. by destruct (String.eqb k key).
Qed.

Lemma getProp_setProp (key changed : string) (v : JSON) (props : list (string * JSON)) :
  getProp key (setProp changed v props)
  = if String.eqb changed key then Some v else getProp key props.
Proof.
  induction props as [|[k x] props IH]; simpl.
  - done.
  - destruct (String.eqb k changed) eqn:Hk; simpl.
    + apply String.eqb_eq in Hk as ->. by destruct (String.eqb changed key).
    + destruct (String.eqb k key) eqn:Hkey; [|exact IH].
      apply String.eqb_eq in Hkey as ->.
      by rewrite String.eqb_sym, Hk.
Qed.

(** In [{ ...base, ...extra }] a key of [extra] carries the value
    [extra] gives it last, and any other key the value of [base]. *)
Lemma getProp_spread (key : string) (extra : list (string * JSON)) :
  ∀ base,
    getProp key (spread base extra)
    = match getProp key (rev extra) with
      | Some v => Some v
      | None => getProp key base
      end.
Proof.
  induction extra as [|[k v] extra IH]; intros base; [done|].
  change (spread base ((k, v) :: extra)) with (spread (setProp k v base) extra).
  rewrite IH, getProp_setProp. simpl rev. rewrite getProp_app. simpl.
  by destruct (getProp key (rev extra)), (String.eqb k key).
Qed.

(** X20: the initialization options of a server override the
    client's own [initialize] parameters: a member that the options
    name carries the value the options give it (the last one, should
    they repeat the name), and every other member is as it is for a
    server without options. *)
Theorem initialization_options_override_the_defaults
    (root : string) (pid : Z) (server : Config.ResolvedServer)
    (options : list (string * JSON)) (key : string)
    (Hoptions : Config.initialization server = Some (JObj options)) :
  getProp key (paramsOf root server pid)
  = match getProp key (rev options) with
    | Some v => Some v
    | None => getProp key (paramsOf root (withoutOptions server) pid)
    end.
Proof.
  unfold paramsOf, initializeParams. rewrite Hoptions. simpl Config.initialization.
  apply getProp_spread.
Qed.

Lemma initialization_options_override_the_defaults_witness :
  getProp "processId" (paramsOf "/repo" pyrightWithOptions 4242)
  = match getProp "processId" (rev [("processId", JNull); ("python", JObj [])]) with
    | Some v => Some v
    | None => getProp "processId" (paramsOf "/repo" (withoutOptions pyrightWithOptions) 4242)
    end.
Proof.
  apply (initialization_options_override_the_defaults "/repo" 4242 pyrightWithOptions
           [("processId", JNull); ("python", JObj [])] "processId").
  reflexivity.
Defined.

End Handshake.
